(** * NMFF-AFM: the search-and-convergence engine

    A shallow embedding of the control logic of the NMFF-AFM flexible
    fitting driver ([nmff_afm.py] and the modules under [module/]):
    the trajectory log and the stop judgements of [stop_iter.py], the
    slope ranking and the image similarity of [slope_of_gradient.py],
    the amplitude sampling of [modes_generator.py], the decay analysis of
    [scoring_and_export.py] and the iteration loop of the driver; then
    the RMSD scripts and log cells of [rms_calculation.py], the marking
    of the best step in the log, and the names of passes and mode files.

    Conventions.
    - Python exceptions are values of [exn]; a call that can raise returns
      a [result].  [try ... except] is [try_except].
    - The spreadsheet log is a list of rows of cells; the file that holds
      it may be missing ([None]).
    - Floating-point numbers are idealised: the quantities that only need
      field operations and comparisons (log scores, slopes, amplitudes)
      are rationals of [Q], compared with [==]; the quantities that need
      a square root or a logarithm (the Pearson coefficient, the decay
      step) are reals of [R].  Rounding is not modelled.
    - NumPy answers [nan] where Python would raise: the selection
      returns the [nan] amplitude as the code does; a pass that selects
      it ends at the marker [NotANumber], and the model does not follow
      the code further.
    - The tables are sorted with pandas' default sort kind, which is not
      stable: [sort_values] computes one order the call may return,
      [sorted_by] describes them all. *)

From Stdlib Require Import ZArith QArith Qabs Qround List String Bool Lia Arith.
From Stdlib Require Import DecimalString.
From Stdlib Require Import Reals Lra.
From Stdlib Require Import Permutation.
From Stdlib Require Lqa DecimalNat.
Import ListNotations.

(* ===================================================================== *)
(** ** Python results and exceptions *)
(* ===================================================================== *)

Module Py.

(** The exception classes the modelled code can meet.  [NotANumber] is
    not one of them: it marks a pass whose selected amplitude is [nan]
    (NumPy answers [nan] with a warning, not an exception).  The code
    itself carries on with the [nan]; the model, whose log and moves
    hold rationals, does not follow it there, and says nothing about
    what comes after. *)
Inductive exn : Type :=
| TypeError
| ValueError
| IndexError
| KeyError
| ZeroDivisionError
| AssertionError
| FileNotFoundError
| RuntimeError
| OverflowError
| NotANumber.

Definition exn_eqb (a b : exn) : bool :=
  match a, b with
  | TypeError, TypeError | ValueError, ValueError
  | IndexError, IndexError | KeyError, KeyError
  | ZeroDivisionError, ZeroDivisionError
  | AssertionError, AssertionError
  | FileNotFoundError, FileNotFoundError
  | RuntimeError, RuntimeError
  | OverflowError, OverflowError
  | NotANumber, NotANumber => true
  | _, _ => false
  end.

Inductive result (A : Type) : Type :=
| Ok (a : A)
| Raise (e : exn).

Arguments Ok {A} a.
Arguments Raise {A} e.

Definition bind {A B} (m : result A) (k : A -> result B) : result B :=
  match m with
  | Ok a => k a
  | Raise e => Raise e
  end.

(** [try: m except Exception: h] *)
Definition try_except {A} (m : result A) (h : exn -> result A) : result A :=
  match m with
  | Ok a => Ok a
  | Raise e => h e
  end.

(** [try: m except cls: h] for one exception class; others propagate. *)
Definition try_except_only {A} (cls : exn) (m : result A) (h : result A)
  : result A :=
  match m with
  | Ok a => Ok a
  | Raise e => if exn_eqb e cls then h else Raise e
  end.

Definition is_ok {A} (m : result A) : bool :=
  match m with Ok _ => true | Raise _ => false end.

(** [l[i]] on a Python list, for a non-negative index. *)
Definition list_index {A} (l : list A) (i : nat) : result A :=
  match nth_error l i with
  | Some a => Ok a
  | None => Raise IndexError
  end.

Fixpoint mapM {A B} (f : A -> result B) (l : list A) : result (list B) :=
  match l with
  | [] => Ok []
  | a :: l' =>
      bind (f a) (fun b => bind (mapM f l') (fun bs => Ok (b :: bs)))
  end.

End Py.

Import Py.

Declare Scope py_scope.
Delimit Scope py_scope with py.
Notation "x <- m ;; k" := (Py.bind m (fun x => k))
  (at level 61, m at next level, right associativity) : py_scope.
Notation "' p <- m ;; k" := (Py.bind m (fun p => k))
  (at level 61, p pattern, m at next level, right associativity) : py_scope.
Open Scope py_scope.

(* ===================================================================== *)
(** ** The spreadsheet log (openpyxl worksheets) *)
(* ===================================================================== *)

(** Strict comparison of rationals as a boolean. *)
Definition Qltb (x y : Q) : bool :=
  (Qnum x * QDen y <? Qnum y * QDen x)%Z.

Module Sheet.

(** The value of a cell: empty, text or a number. *)
Inductive cell : Type :=
| CNone
| CStr (s : string)
| CNum (q : Q).

Definition row := list cell.
Definition worksheet := list row.

(** A workbook file on disk; [None] when the path does not exist. *)
Definition file := option worksheet.

(** [openpyxl.load_workbook(path)] followed by the active sheet. *)
Definition load_workbook (f : file) : result worksheet :=
  match f with
  | Some ws => Ok ws
  | None => Raise FileNotFoundError
  end.

(** [worksheet.max_row]: the index of the last row, at least 1. *)
Definition max_row (ws : worksheet) : Z :=
  Z.max 1 (Z.of_nat (List.length ws)).

(** [worksheet.max_column]: the widest row, at least 1. *)
Definition max_column (ws : worksheet) : nat :=
  fold_right (fun r m => Nat.max (List.length r) m) 1%nat ws.

(** [worksheet.cell(row=r, column=c).value], rows and columns from 1.
    An index below 1 raises [ValueError]; a cell never written reads as
    [None]. *)
Definition cell_value (ws : worksheet) (r c : Z) : result cell :=
  if ((r <? 1) || (c <? 1))%Z then Raise ValueError
  else Ok (nth (Z.to_nat (c - 1)) (nth (Z.to_nat (r - 1)) ws []) CNone).

(** [ws.append(record)] *)
Definition append (ws : worksheet) (record : row) : worksheet :=
  ws ++ [record].

(** The cells of row [r] over columns [1 .. max_column]. *)
Definition row_values (ws : worksheet) (r : Z) : result (list cell) :=
  mapM (fun c => cell_value ws r (Z.of_nat c)) (seq 1 (max_column ws)).

(** Python's [number + value] where the left operand is a number. *)
Definition py_add (a : Q) (v : cell) : result Q :=
  match v with
  | CNum q => Ok (a + q)
  | _ => Raise TypeError
  end.

(** Python's [number > value] where the left operand is a number. *)
Definition py_gt (a : Q) (v : cell) : result bool :=
  match v with
  | CNum q => Ok (Qltb q a)
  | _ => Raise TypeError
  end.

End Sheet.

Import Sheet.

(* ===================================================================== *)
(** ** stop_iter.py *)
(* ===================================================================== *)

Module StopIter.

Definition header (whether_contain_rmsd_reference : string) : row :=
  if String.eqb whether_contain_rmsd_reference "yes" then
    [CStr "Deformed fig name"; CStr "CC of this iter"; CStr "Largest mode";
     CStr "Amplitude"; CStr "Last 5 iter average CC";
     CStr "RMSD to Initial"; CStr "RMSD to Reference"]
  else
    [CStr "Deformed fig name"; CStr "CC of this iter"; CStr "Largest mode";
     CStr "Amplitude"; CStr "Last 5 iter average CC";
     CStr "RMSD to Initial"].

(** [create_log]: a fresh workbook holding only the header row. *)
Definition create_log (whether_contain_rmsd_reference : string) : file :=
  Some (append [] (header whether_contain_rmsd_reference)).

(** [write_log]: load, append, save. *)
Definition write_log (io : file) (record : row) : result file :=
  ws <- load_workbook io ;;
  Ok (Some (append ws record)).

(** The body of the [for i in range(0, required_num, 1)] loop of
    [read_pre_iter_cc_and_avrg], from index [i] for [n] more rounds. *)
Fixpoint read_loop (ws : worksheet) (last_row : Z) (i n : nat)
         (total_value : Q) : result Q :=
  match n with
  | O => Ok total_value
  | S n' =>
      last_row_values <- row_values ws (last_row - Z.of_nat i) ;;
      last_value <- list_index last_row_values 1 ;;
      total_value' <- py_add total_value last_value ;;
      read_loop ws last_row (S i) n' total_value'
  end.

Definition read_pre_iter_cc_and_avrg (excel_file : file) (required_num : nat)
  : result Q :=
  ws <- load_workbook excel_file ;;
  read_loop ws (max_row ws) 0 required_num 0.

(** [cc_judgement_avrg].  [cc_iter] is the similarity of the current
    structure's image to the target, computed by the caller's image
    files.  Returns the saved log and the judgement. *)
Definition cc_judgement_avrg (deformed_fig_name : string)
           (mode_max_gradient : Q) (deform_amplitude : Q)
           (excel_file : file) (cc_iter : Q) : result (file * bool) :=
  cc_last_5_iter_avrg <-
    try_except
      (t <- read_pre_iter_cc_and_avrg excel_file 5 ;; Ok (t / 5))
      (fun _ => Ok 0) ;;
  cc_iter_this_iter_avrg <-
    try_except
      (t <- read_pre_iter_cc_and_avrg excel_file 4 ;; Ok ((t + cc_iter) / 5))
      (fun _ => Ok cc_iter) ;;
  let record_list :=
    [CStr deformed_fig_name; CNum cc_iter; CNum mode_max_gradient;
     CNum deform_amplitude; CNum cc_iter_this_iter_avrg] in
  log' <- write_log excel_file record_list ;;
  Ok (log', Qltb cc_last_5_iter_avrg cc_iter_this_iter_avrg).

Definition read_pre_iter_cc (excel_file : file) : result cell :=
  ws <- load_workbook excel_file ;;
  last_row_values <- row_values ws (max_row ws) ;;
  list_index last_row_values 1.

(** [cc_judgement_single].  [cc_read] is what
    [calculation_correlation_pearson_tsv_normalized] does on the two
    image paths the function builds: the similarity, or the error of
    the read. *)
Definition cc_judgement_single_read (deformed_fig_name : string)
           (mode_max_gradient : Q) (deform_amplitude : Q)
           (excel_file : file) (cc_read : result Q) : result (file * bool) :=
  cc_last_iter <-
    try_except_only FileNotFoundError
      (read_pre_iter_cc excel_file) (Ok (CNum 0)) ;;
  cc_iter <- cc_read ;;
  let record_list :=
    [CStr deformed_fig_name; CNum cc_iter; CNum mode_max_gradient;
     CNum deform_amplitude] in
  log' <- write_log excel_file record_list ;;
  b <- py_gt cc_iter cc_last_iter ;;
  Ok (log', b).

(** [cc_judgement_single] on image paths that name the two images: the
    read gives the similarity [cc_iter]. *)
Definition cc_judgement_single (deformed_fig_name : string)
           (mode_max_gradient : Q) (deform_amplitude : Q)
           (excel_file : file) (cc_iter : Q) : result (file * bool) :=
  cc_judgement_single_read deformed_fig_name mode_max_gradient
                           deform_amplitude excel_file (Ok cc_iter).

End StopIter.

Import StopIter.

(* ===================================================================== *)
(** ** slope_of_gradient.py: the sensitivity tables *)
(* ===================================================================== *)

Module Slope.

(** A row of [df_pcc]: columns [mode], [dq], [cc]. *)
Record sample : Type := mk_sample {
  s_mode : Z;
  s_dq : Z;
  s_cc : Q
}.

(** A row of [df_slopes]: columns [mode], [slope], [intercept]. *)
Record fit : Type := mk_fit {
  f_mode : Z;
  f_slope : Q;
  f_intercept : Q
}.

Section SortValues.
Variable A : Type.
Variable key : A -> Q.
Variable ascending : bool.

(** [goes_first y x]: row [y] is strictly ahead of row [x] in the
    requested order. *)
Definition goes_first (y x : A) : bool :=
  if ascending then Qltb (key y) (key x) else Qltb (key x) (key y).

Fixpoint insert_row (x : A) (l : list A) : list A :=
  match l with
  | [] => [x]
  | y :: ys => if goes_first y x then y :: insert_row x ys
               else x :: y :: ys
  end.

(** [df.sort_values(by=[key], ascending=...)].  The code asks for
    pandas' default sort kind, quicksort, which is not stable: the call
    fixes the order of the keys, not the order among rows of equal key.
    [sort_values] computes one of the orders the call may return, the
    one that keeps rows of equal key in their order of occurrence;
    [Order.sorted_by] holds of every order it may return, and what
    depends on the order among equal keys is stated over it. *)
Fixpoint sort_values (l : list A) : list A :=
  match l with
  | [] => []
  | x :: xs => insert_row x (sort_values xs)
  end.
End SortValues.

Arguments goes_first {A} key ascending y x.
Arguments insert_row {A} key ascending x l.
Arguments sort_values {A} key ascending l.

Definition abs_slope (r : fit) : Q := Qabs (f_slope r).

(** [find_largest_slopes] from line 124 on: the positional reads in
    the sorted table. *)
Definition find_largest_slopes_sorted (df : list fit)
  : result (Z * Q * Z * Q) :=
  r0 <- list_index df 0 ;;
  let largest_mode := f_mode r0 in
  let largest_slope := f_slope r0 in
  r1 <- list_index df 1 ;;
  let second_largest_mode := f_mode r1 in
  let second_largest_slope := f_slope r1 in
  Ok (largest_mode, largest_slope, second_largest_mode, second_largest_slope).

(** [find_largest_slopes] *)
Definition find_largest_slopes (df : list fit) : result (Z * Q * Z * Q) :=
  let df := sort_values abs_slope false df in
  find_largest_slopes_sorted df.

Definition Qsum (l : list Q) : Q := fold_right Qplus 0 l.

(** [slope_calculation]: the least-squares line of [cc] against [dq]
    (scikit-learn's [LinearRegression]).  No sample raises
    [ValueError]; when all [dq] coincide the minimum-norm solution has
    slope 0. *)
Definition slope_calculation (df : list sample) : result (Q * Q) :=
  match df with
  | [] => Raise ValueError
  | _ =>
      let n := inject_Z (Z.of_nat (List.length df)) in
      let xbar := Qsum (map (fun r => inject_Z (s_dq r)) df) / n in
      let ybar := Qsum (map s_cc df) / n in
      let sxx := Qsum (map (fun r => (inject_Z (s_dq r) - xbar)
                                     * (inject_Z (s_dq r) - xbar)) df) in
      let sxy := Qsum (map (fun r => (inject_Z (s_dq r) - xbar)
                                     * (s_cc r - ybar)) df) in
      let slope := if Qeq_bool sxx 0 then 0 else sxy / sxx in
      Ok (slope, ybar - slope * xbar)
  end.

(** Python's [range(a, b)] over integers. *)
Definition py_range (a b : Z) : list Z :=
  map (fun k => (a + Z.of_nat k)%Z) (seq 0 (Z.to_nat (b - a))).

(** Two rows of the table carry the same [(mode, dq)]. *)
Fixpoint duplicate_entries (df : list sample) : bool :=
  match df with
  | [] => false
  | r :: df' =>
      existsb (fun r' => (s_mode r' =? s_mode r)%Z && (s_dq r' =? s_dq r)%Z)
              df'
      || duplicate_entries df'
  end.

(** [write_to_xlsx], as far as it can fail: [df_cc.pivot] refuses a
    table with duplicate entries.  The cells written are not modelled. *)
Definition write_to_xlsx (df_cc : list sample) : result unit :=
  if duplicate_entries df_cc then Raise ValueError else Ok tt.

(** [process_data_tsv], from the table [df_pcc] that
    [cc_calculation_pearson_tsv] collected from the image files: one
    fit per mode of the range, and the samples sorted by descending
    [cc].  The step workbook is taken not to exist yet. *)
Definition process_data_tsv (df_pcc : list sample) (start_mode end_mode : Z)
  : result (list fit * list sample) :=
  df_slopes <-
    mapM (fun i =>
            let df_pcc_one_mode :=
              sort_values (fun r => inject_Z (s_dq r)) true
                          (filter (fun r => (s_mode r =? i)%Z) df_pcc) in
            slope <- slope_calculation df_pcc_one_mode ;;
            Ok (mk_fit i (fst slope) (snd slope)))
         (py_range start_mode (end_mode + 1)) ;;
  written <- write_to_xlsx df_pcc ;;
  let df_pcc_sorted := sort_values s_cc false df_pcc in
  Ok (df_slopes, df_pcc_sorted).

End Slope.

Import Slope.

(* ===================================================================== *)
(** ** modes_generator.py: the sampled amplitudes *)
(* ===================================================================== *)

Module ModesGen.

(** Python's [int(x)] on a number: truncation towards zero. *)
Definition py_int (x : Q) : Z := Z.quot (Qnum x) (QDen x).

(** The tuple [(-amplitude, -one_half, 0, one_half, amplitude)]. *)
Definition sampled_amplitudes (amplitude : Q) : list Q :=
  let one_half := py_int (amplitude / 2) in
  [- amplitude; inject_Z (- one_half); 0; inject_Z one_half; amplitude].

(** [generate_deformed_conformation]: the [(frequency, dq)] arguments
    of the calls to [deformation_rtb], in order. *)
Definition generate_deformed_conformation (amplitude : Q)
           (start_mode end_mode : Z) : result (list (Z * Q)) :=
  if negb (Qltb 0 amplitude) then Raise AssertionError
  else
    let frequencies := py_range start_mode (end_mode + 1) in
    Ok (flat_map (fun frequency =>
                    map (fun dq => (frequency, dq))
                        (sampled_amplitudes amplitude))
                 frequencies).

End ModesGen.

Import ModesGen.

(* ===================================================================== *)
(** ** nmff_afm.py: move selection and the iteration loop *)
(* ===================================================================== *)

Module Driver.

(** The name of an iteration's conformation: the initial name, then
    [name#s1], [name#s2], ... *)
Record conf_name : Type := mk_name {
  cn_stem : string;
  cn_step : option nat
}.

Definition render (n : conf_name) : string :=
  match cn_step n with
  | None => cn_stem n
  | Some k => cn_stem n ++ "#s" ++ NilEmpty.string_of_uint (Nat.to_uint k)
  end.

(** [filename_of_next_iter] (check_list.py), on a name whose stem holds
    no [#]. *)
Definition filename_of_next_iter (previous_name : conf_name) : conf_name :=
  match cn_step previous_name with
  | Some k => mk_name (cn_stem previous_name) (Some (S k))
  | None => mk_name (cn_stem previous_name) (Some 1%nat)
  end.

(** The parameters read from the TOML file that the loop depends on.
    The driver itself fixes [termination_criterion] to ["numeric"]. *)
Record config : Type := mk_config {
  original_conformation : string;
  combined_amplitude : Q;
  first_mode : Z;
  last_mode : Z;
  mode_selection : string;
  num_iterations : Z;
  termination_criterion : string;
  calculate_rmsd_to_reference : string
}.

(** What the external tools deliver in one iteration, all of them taken
    to succeed: the similarity table of the deformed images and the
    similarity of the current conformation's image to the target. *)
Record iter_obs : Type := mk_obs {
  o_pcc : list sample;
  o_cc : Q
}.

Record run_state : Type := mk_state {
  initial_conformation_iter : conf_name;
  deformed_times : Z;
  overall_log : file;
  applied_moves : list (Z * Q)
}.

(** A NumPy [float64] as the selection meets it: a number, or [nan]. *)
Inductive float64 : Type :=
| Num (q : Q)
| NaN.

(** [first_slope / abs(first_slope)], on the NumPy scalar read from the
    fit table: 1 or -1, and for a slope of 0 the [nan] that NumPy
    answers to 0 / 0, with a warning and no exception. *)
Definition unit_slope (first_slope : Q) : float64 :=
  if Qeq_bool (Qabs first_slope) 0 then NaN
  else Num (first_slope / Qabs first_slope).

(** [x * combined_amplitude] *)
Definition np_mul (x : float64) (c : Q) : float64 :=
  match x with
  | Num q => Num (q * c)
  | NaN => NaN
  end.

(** Lines 176-193: the branch on [mode_selection], on the ranking that
    [find_largest_slopes] returned. *)
Definition select_move_ranked (mode_selection : string)
           (combined_amplitude : Q) (ranking : Z * Q * Z * Q)
           (df_pcc : list sample) : result (Z * float64) :=
  let '(largest_mode, first_slope, second_largest_mode, second_slope) :=
    ranking in
  if String.eqb mode_selection "slope" then
    Ok (largest_mode, np_mul (unit_slope first_slope) combined_amplitude)
  else if String.eqb mode_selection "maxcc" then
    r <- list_index df_pcc 0 ;;
    Ok (s_mode r, Num (inject_Z (s_dq r)))
  else if String.eqb mode_selection "maxcc_force_move" then
    let df_not_zero := filter (fun r => negb (s_dq r =? 0)%Z) df_pcc in
    top <- list_index df_pcc 0 ;;
    r <- list_index df_not_zero 0 ;;
    Ok (s_mode r, Num (inject_Z (s_dq r)))
  else Raise ValueError.

(** Lines 170-193: the ranking, then the branch on [mode_selection]. *)
Definition select_move (mode_selection : string) (combined_amplitude : Q)
           (df_slopes : list fit) (df_pcc : list sample)
  : result (Z * float64) :=
  ranking <- find_largest_slopes df_slopes ;;
  select_move_ranked mode_selection combined_amplitude ranking df_pcc.

(** The same selection when the sort inside [find_largest_slopes]
    returns the order [df_sorted] of the fit table. *)
Definition select_move_sorted (mode_selection : string)
           (combined_amplitude : Q) (df_sorted : list fit)
           (df_pcc : list sample) : result (Z * float64) :=
  ranking <- find_largest_slopes_sorted df_sorted ;;
  select_move_ranked mode_selection combined_amplitude ranking df_pcc.

(** The move an iteration selects from its observation.  The code
    hands the amplitude on to the log and to the deformation tool as it
    is; a [nan] amplitude is where the model stops following the pass
    ([NotANumber]). *)
Definition move_at (cfg : config) (o : iter_obs) : result (Z * Q) :=
  '(df_slopes, df_pcc) <-
    process_data_tsv (o_pcc o) (first_mode cfg) (last_mode cfg) ;;
  '(num_of_largest_mode, deform_amplitude_1) <-
    select_move (mode_selection cfg) (combined_amplitude cfg)
                df_slopes df_pcc ;;
  match deform_amplitude_1 with
  | Num amplitude => Ok (num_of_largest_mode, amplitude)
  | NaN => Raise NotANumber
  end.

(** Lines 195-211: the branch on [termination_criterion]; returns the
    saved log and [stop_bool]. *)
Definition judge (cfg : config) (st : run_state) (o : iter_obs)
           (num_of_largest_mode : Z) (deform_amplitude_1 : Q)
  : result (file * bool) :=
  let name := render (initial_conformation_iter st) in
  if String.eqb (termination_criterion cfg) "average" then
    cc_judgement_avrg name (inject_Z num_of_largest_mode) deform_amplitude_1
                      (overall_log st) (o_cc o)
  else if String.eqb (termination_criterion cfg) "numeric" then
    if (deformed_times st =? num_iterations cfg)%Z
       || Qeq_bool deform_amplitude_1 0 then
      '(log', b) <-
        cc_judgement_avrg name (inject_Z num_of_largest_mode)
                          deform_amplitude_1 (overall_log st) (o_cc o) ;;
      Ok (log', false)
    else
      '(log', b) <-
        cc_judgement_avrg name (inject_Z num_of_largest_mode)
                          deform_amplitude_1 (overall_log st) (o_cc o) ;;
      Ok (log', true)
  else
    (* [work_folder] is the [Path] of the folder [1st]; lines 179-180 of
       stop_iter.py join it to the figure names without a separator, and
       no step of the run writes a file [...1st<name>.<suffix>]: the
       image read raises before the log is written. *)
    cc_judgement_single_read name (inject_Z num_of_largest_mode)
                             deform_amplitude_1 (overall_log st)
                             (Raise FileNotFoundError).

Inductive loop_exit : Type :=
| Broke       (* left by [break] *)
| Exhausted.  (* the [range] ran out *)

(** The body of the [for] loop up to [if not stop_bool: break]. *)
Definition iteration (cfg : config) (o : iter_obs) (st : run_state)
  : result (run_state * Z * Q * bool) :=
  deformed <- generate_deformed_conformation
                (combined_amplitude cfg) (first_mode cfg) (last_mode cfg) ;;
  '(num_of_largest_mode, deform_amplitude_1) <- move_at cfg o ;;
  '(log', stop_bool) <-
    judge cfg st o num_of_largest_mode deform_amplitude_1 ;;
  Ok (mk_state (initial_conformation_iter st) (deformed_times st) log'
               (applied_moves st),
      num_of_largest_mode, deform_amplitude_1, stop_bool).

(** "Prepare next iteration": deform along the chosen move, rename,
    count. *)
Definition prepare_next (st : run_state) (mode : Z) (amplitude : Q)
  : run_state :=
  mk_state (filename_of_next_iter (initial_conformation_iter st))
           (deformed_times st + 1)
           (overall_log st)
           (applied_moves st ++ [(mode, amplitude)]).

(** [for i in range(...)], with [n] passes left; [world i] is what the
    tools deliver in pass [i]. *)
Fixpoint loop (cfg : config) (world : nat -> iter_obs) (n i : nat)
         (st : run_state) : result (run_state * loop_exit) :=
  match n with
  | O => Ok (st, Exhausted)
  | S n' =>
      '(st', mode, amplitude, stop_bool) <- iteration cfg (world i) st ;;
      if negb stop_bool then Ok (st', Broke)
      else loop cfg world n' (S i) (prepare_next st' mode amplitude)
  end.

Definition initial_state (cfg : config) : run_state :=
  mk_state (mk_name (original_conformation cfg) None) 0
           (create_log (calculate_rmsd_to_reference cfg)) [].

(** The iteration phase of a confirmed run:
    [for i in range(num_iterations + 10)]. *)
Definition run (cfg : config) (world : nat -> iter_obs)
  : result (run_state * loop_exit) :=
  loop cfg world (Z.to_nat (num_iterations cfg + 10)) 0 (initial_state cfg).

End Driver.

Import Driver.

(* ===================================================================== *)
(** ** slope_of_gradient.py: the image similarity *)
(* ===================================================================== *)

Module Similarity.

Local Open Scope R_scope.

(** An image as [np.loadtxt] returns it from a file of several rows and
    columns: rows of heights. *)
Definition image := list (list R).

Definition shape (m : image) : nat * nat :=
  (List.length m, match m with [] => O | r :: _ => List.length r end).

(** [mat.flatten()] *)
Definition flatten (m : image) : list R := List.concat m.

(** A floating-point value: a number, or one of [inf], [-inf], [nan]. *)
Inductive fval : Type :=
| Fin (r : R)
| NonFinite.

(** [mat.min()] / [mat.max()]: no identity on an empty array. *)
Definition array_min (l : list R) : result R :=
  match l with
  | [] => Raise ValueError
  | x :: xs => Ok (fold_left Rmin xs x)
  end.

Definition array_max (l : list R) : result R :=
  match l with
  | [] => Raise ValueError
  | x :: xs => Ok (fold_left Rmax xs x)
  end.

(** NumPy's [a / b]: dividing by zero yields [inf] or [nan]. *)
Definition fdiv (a b : R) : fval :=
  if Req_dec_T b 0 then NonFinite else Fin (a / b).

Fixpoint all_finite (l : list fval) : option (list R) :=
  match l with
  | [] => Some []
  | Fin r :: l' =>
      match all_finite l' with
      | Some rs => Some (r :: rs)
      | None => None
      end
  | NonFinite :: _ => None
  end.

Definition Rsum (l : list R) : R := fold_right Rplus 0 l.

Definition mean (l : list R) : R := Rsum l / INR (List.length l).

Definition centered (l : list R) : list R :=
  map (fun x => x - mean l) l.

Definition sumsq (l : list R) : R := Rsum (map (fun x => x * x) l).

(** [linalg.norm] *)
Definition norm (l : list R) : R := sqrt (sumsq l).

Definition dot (x y : list R) : R :=
  Rsum (map (fun ab => fst ab * snd ab) (combine x y)).

(** The coefficient on finite data: [nan] for a constant input,
    otherwise the normalised dot product clipped to [-1, 1]. *)
Definition pearson_value (x y : list R) : fval :=
  let xm := centered x in
  let ym := centered y in
  let normxm := norm xm in
  let normym := norm ym in
  if Req_dec_T normxm 0 then NonFinite
  else if Req_dec_T normym 0 then NonFinite
  else
    let r := dot (map (fun a => a / normxm) xm)
                 (map (fun b => b / normym) ym) in
    Fin (Rmax (Rmin r 1) (-1)).

(** [scipy.stats.pearsonr(x, y)[0]]: the two length checks raise
    [ValueError]; data that is not finite gives [nan]. *)
Definition pearsonr (x y : list fval) : result fval :=
  if negb (List.length x =? List.length y)%nat then Raise ValueError
  else if (List.length x <? 2)%nat then Raise ValueError
  else
    match all_finite x, all_finite y with
    | Some xs, Some ys => Ok (pearson_value xs ys)
    | _, _ => Ok NonFinite
    end.

(** [calculation_correlation_pearson_tsv_normalized], on the two
    matrices read from the files. *)
Definition calculation_correlation_pearson_tsv_normalized
           (pmat imat : image) : result fval :=
  pmin <- array_min (flatten pmat) ;;
  imin <- array_min (flatten imat) ;;
  let shifted_pmat := map (fun v => v - pmin) (flatten pmat) in
  let shifted_imat := map (fun v => v - imin) (flatten imat) in
  pmax <- array_max (flatten pmat) ;;
  imax <- array_max (flatten imat) ;;
  let normalized_pmat_flatten := map (fun v => fdiv v pmax) shifted_pmat in
  let normalized_imat_flatten := map (fun v => fdiv v imax) shifted_imat in
  pearsonr normalized_pmat_flatten normalized_imat_flatten.

(** The image [alpha * I + beta]. *)
Definition rescale (alpha beta : R) (m : image) : image :=
  map (map (fun v => alpha * v + beta)) m.

(** All samples of the image are the same height. *)
Definition constant (l : list R) : Prop :=
  forall x y, In x l -> In y l -> x = y.

End Similarity.

(* ===================================================================== *)
(** ** scoring_and_export.py: the decay analysis *)
(* ===================================================================== *)

Module Scoring.

Local Open Scope R_scope.

(** [int(np.ceil(x))] *)
Definition ceil (x : R) : Z := (1 - up (- x))%Z.

(** What the operator gets to see: the lines printed, and the points
    marked on the fitted curve of the annotated figure, whose legend
    names the fraction, the step and the height. *)
Inductive message : Type :=
| Warning_decay (p : R) (u m : Z)   (* "Warning: Diff C is expected ..." *)
| Exp_fit (a b : R)                 (* "exp fit: ..." *)
| Marked_decay (p : R) (u : Z) (v : R)  (* [ax[2].scatter(u, v, ...)] *)
| Figures_saved                     (* "All the figures generated ..." *)
| Result_written.                   (* "Result written to log file." *)

Definition exponential_func (x a b : R) : R := a * exp (b * (x - 1)).

Definition p_list : list R := [5 / 100; 3 / 100; 1 / 100].

(** The step at which the fitted curve has decayed by the factor [p]. *)
Definition decay_step (b_fit p : R) : Z := ceil (ln p / b_fit + 1).

(** [A_RMSD.loc[u, col]] on the index [0 .. m]. *)
Definition loc (m u : Z) : result unit :=
  if ((0 <=? u) && (u <=? m))%Z then Ok tt else Raise KeyError.

(** The loop [for p in p_list] of [save_time_series_plot]; [m] is
    [A_RMSD.index.max()], [num_of_step] the module's global and [out]
    what was printed and marked so far.  A zero [b_fit] makes the
    quotient infinite, which [int] refuses. *)
Fixpoint decay_loop (a_fit b_fit : R) (m : Z) (ps : list R)
         (num_of_step : option Z) (out : list message)
  : result (option Z * list message) :=
  match ps with
  | [] => Ok (num_of_step, out)
  | p :: ps' =>
      if Req_dec_T b_fit 0 then Raise OverflowError
      else
        let u := decay_step b_fit p in
        let clamped := (m <? u)%Z in
        let out := if clamped then out ++ [Warning_decay p u m] else out in
        let u := if clamped then m else u in
        let num_of_step :=
          if Req_dec_T p (3 / 100) then Some u else num_of_step in
        let v := exponential_func (IZR u) a_fit b_fit in
        let out := out ++ [Marked_decay p u v] in
        w <- loc m u ;;
        decay_loop a_fit b_fit m ps' num_of_step out
  end.

(** [save_time_series_plot] (and its [_no_reference] twin, which runs
    the same steps): [fit] is what [curve_fit] does on the logged
    change series, its optimal parameters or the error it raises. *)
Definition save_time_series_plot (fit : result (R * R)) (m : Z)
  : result (Z * list message) :=
  params <- fit ;;
  let a_fit := fst params in
  let b_fit := snd params in
  '(num_of_step, out) <-
    decay_loop a_fit b_fit m p_list None [Exp_fit a_fit b_fit] ;;
  match num_of_step with
  | Some u => Ok (u, out)
  | None => Raise KeyError
  end.

(** The number of data rows of the log, as [read_log] sees them. *)
Definition read_log (log : file) : result nat :=
  ws <- load_workbook log ;;
  Ok (List.length ws - 1)%nat.

(** [scoring_conformations]: the best step and what was printed. *)
Definition scoring_conformations (log : file) (fit : result (R * R))
  : result (Z * list message) :=
  n <- read_log log ;;
  '(turning_point, out) <- save_time_series_plot fit (Z.of_nat n - 1) ;;
  Ok (turning_point, out ++ [Result_written; Figures_saved]).

(** The driver after [confirmation()]: the iteration loop, then the
    scoring of the logged trajectory. *)
Definition main (cfg : config) (world : nat -> iter_obs)
           (fit : result (R * R)) : result (Z * list message) :=
  '(st, ex) <- run cfg world ;;
  scoring_conformations (overall_log st) fit.

End Scoring.

(* ===================================================================== *)
(** ** Vocabulary of the statements *)
(* ===================================================================== *)

Module Spec.

(** A trajectory record as [cc_judgement_avrg] writes it. *)
Definition record_row (name : string) (cc mode amp avg : Q) : row :=
  [CStr name; CNum cc; CNum mode; CNum amp; CNum avg].

(** The second cell of the row is a number (the row carries a score). *)
Definition scored (r : row) : Prop :=
  exists q, nth_error r 1 = Some (CNum q).

(** The logged similarity of a row. *)
Definition score (r : row) : Q :=
  match nth 1 r CNone with CNum q => q | _ => 0 end.

(** The last [n] elements of a list (all of it when shorter). *)
Definition lastn {A} (n : nat) (l : list A) : list A :=
  skipn (List.length l - n) l.

Definition Qmean (l : list Q) : Q :=
  Qsum l / inject_Z (Z.of_nat (List.length l)).

(** A log as the loop keeps it: the header, then scored rows. *)
Definition log_rows (hdr : string) (rows : list row) : file :=
  Some (header hdr :: rows).

(** The scores read by [k] rounds of the loop of
    [read_pre_iter_cc_and_avrg] starting at round [i]: the rows from
    the bottom, skipping the last [i]. *)
Definition read_back (rows : list row) (i k : nat) : list Q :=
  firstn k (skipn i (rev (map score rows))).

(** [u] is the ceiling of [x]: the least integer that is not below
    [x]. *)
Definition is_ceil (x : R) (u : Z) : Prop :=
  (IZR u - 1 < x <= IZR u)%R.

(** What the analyzer shows for the fraction [p] whose decay step is
    [u], on a log whose last step is [m]: the warning when [u] lies
    beyond [m], then the point on the fitted curve [a * exp(b * (x - 1))]
    at the step it keeps, which is [u], or [m] when [u] lies beyond. *)
Definition decay_report (a_fit b_fit : R) (m : Z) (p : R) (u : Z)
  : list Scoring.message :=
  (if (m <? u)%Z then [Scoring.Warning_decay p u m] else [])
  ++ [Scoring.Marked_decay p (Z.min u m)
        (a_fit * exp (b_fit * (IZR (Z.min u m) - 1)))%R].

(** The conformation name of pass [k] of the loop. *)
Definition name_at (stem : string) (k : nat) : conf_name :=
  Nat.iter k filename_of_next_iter (mk_name stem None).

End Spec.

Import Spec.

(* ===================================================================== *)
(** ** Sample runs *)
(* ===================================================================== *)

Module Samples.

(** A sweep over modes 7 and 8 whose best sample is a real move. *)
Definition sweep_moving : list sample :=
  [mk_sample 7 (-10) (1#10); mk_sample 7 0 (1#5); mk_sample 7 10 (3#10);
   mk_sample 8 (-10) (1#4); mk_sample 8 0 (1#5); mk_sample 8 10 (3#20)].

(** A sweep whose best sample is the unperturbed conformation. *)
Definition sweep_resting : list sample :=
  [mk_sample 7 (-10) (1#10); mk_sample 7 0 (2#5); mk_sample 7 10 (3#10);
   mk_sample 8 (-10) (1#4); mk_sample 8 0 (2#5); mk_sample 8 10 (3#20)].

(** Budget 5, modes 7..8, strategy [maxcc]. *)
Definition cfg_maxcc : config :=
  mk_config "p" 10 7 8 "maxcc" 5 "numeric" "no".

(** The tools find a move in pass 0 and none in pass 1. *)
Definition world_rests_at_1 (j : nat) : iter_obs :=
  match j with
  | 1%nat => mk_obs sweep_resting (2#5)
  | _ => mk_obs sweep_moving (1#5)
  end.

Definition modes_rests_at_1 (j : nat) : Z := 7.

Definition amps_rests_at_1 (j : nat) : Q :=
  match j with
  | 1%nat => 0
  | _ => 10
  end.

(** A range of the single mode 7. *)
Definition cfg_one_mode : config :=
  mk_config "p" 10 7 7 "slope" 5 "numeric" "no".

Definition world_moving (j : nat) : iter_obs := mk_obs sweep_moving (1#5).

End Samples.

(* ===================================================================== *)
(** ** Further vocabulary *)
(* ===================================================================== *)

Module Order.

(** Row [x] may stand before row [y] in the requested order. *)
Definition in_order {A} (key : A -> Q) (ascending : bool) (x y : A) : Prop :=
  if ascending then key x <= key y else key y <= key x.

(** [l] is laid out in the requested order. *)
Fixpoint ordered {A} (key : A -> Q) (ascending : bool) (l : list A) : Prop :=
  match l with
  | [] => True
  | x :: l' => (forall y, In y l' -> in_order key ascending x y)
               /\ ordered key ascending l'
  end.

(** [df'] is an order that [df.sort_values(by=[key], ascending=...)]
    may return on [df]: the same rows, laid out in the requested order
    of the keys, whatever the order among rows of equal key. *)
Definition sorted_by {A} (key : A -> Q) (ascending : bool)
           (df df' : list A) : Prop :=
  Permutation df df' /\ ordered key ascending df'.

(** Some row of the table belongs to mode [i]. *)
Definition has_mode (df : list sample) (i : Z) : Prop :=
  exists r, In r df /\ s_mode r = i.

(** The samples of mode [i], as [process_data_tsv] hands them to the
    regression. *)
Definition samples_of_mode (df : list sample) (i : Z) : list sample :=
  sort_values (fun r => inject_Z (s_dq r)) true
              (filter (fun r => (s_mode r =? i)%Z) df).

End Order.

Import Order.

(* ===================================================================== *)
(** ** Writing cells (openpyxl) *)
(* ===================================================================== *)

Module SheetWrite.

(** [l[n] = v] on a list that grows with [d] when [n] is beyond its
    end. *)
Fixpoint set_nth {A} (d : A) (n : nat) (v : A) (l : list A) : list A :=
  match n, l with
  | O, [] => [v]
  | O, _ :: t => v :: t
  | S n', [] => d :: set_nth d n' v []
  | S n', x :: t => x :: set_nth d n' v t
  end.

(** [ws.cell(row=r, column=c, value=v)]: rows and columns from 1; an
    index below 1 raises [ValueError]; the sheet grows as needed. *)
Definition set_cell (ws : worksheet) (r c : Z) (v : cell) : result worksheet :=
  if ((r <? 1) || (c <? 1))%Z then Raise ValueError
  else
    let old_row := nth (Z.to_nat (r - 1)) ws [] in
    Ok (set_nth [] (Z.to_nat (r - 1))
                (set_nth CNone (Z.to_nat (c - 1)) v old_row) ws).

End SheetWrite.

Import SheetWrite.

(* ===================================================================== *)
(** ** rms_calculation.py *)
(* ===================================================================== *)

Module Rmsd.

(** [cell.value == keyword] for some cell of the row. *)
Definition row_has_keyword (keyword : string) (r : row) : bool :=
  existsb (fun c => match c with
                    | CStr s => String.eqb s keyword
                    | _ => false
                    end) r.

(** The loop [for row in ws.iter_rows(1)] of
    [write_rmsd_to_cell_by_keyword]: [rows] are the rows still to visit,
    the first of them being row [r] of the sheet [ws]. *)
Fixpoint write_matches (keyword : string) (value : cell) (column_num : Z)
         (rows : list row) (r : Z) (ws : worksheet) : result worksheet :=
  match rows with
  | [] => Ok ws
  | this_row :: rest =>
      ws' <- (if row_has_keyword keyword this_row
              then set_cell ws r column_num value
              else Ok ws) ;;
      write_matches keyword value column_num rest (r + 1) ws'
  end.

(** [write_rmsd_to_cell_by_keyword] *)
Definition write_rmsd_to_cell_by_keyword (io_path : file) (keyword : string)
           (result_rmsd : Q) (column_num : Z) : result file :=
  ws <- load_workbook io_path ;;
  ws1 <- write_matches keyword (CNum result_rmsd) column_num ws 1 ws ;;
  ws2 <- set_cell ws1 2 6 (CNum 0) ;;
  Ok (Some ws2).

(** Python's [range(0, stop, step)]. *)
Definition range_step (stop step : nat) : list nat :=
  map (fun k => (k * step)%nat) (seq 0 ((stop + step - 1) / step)).

(** The slices [files[i:i+50]] for [i] in [range(0, len(files), 50)]. *)
Definition chunks (files : list string) : list (list string) :=
  map (fun i => firstn 50 (skipn i files))
      (range_step (List.length files) 50).

(** [file_name.endswith(suffix)] *)
Definition ends_with (suffix s : string) : bool :=
  (String.length suffix <=? String.length s)%nat
  && String.eqb (substring (String.length s - String.length suffix)
                           (String.length suffix) s) suffix.

(** [s.split('.')[0]] *)
Definition before_dot (s : string) : string :=
  match index 0 "." s with
  | Some i => substring 0 i s
  | None => s
  end.

(** The test that makes a file a mobile structure of the script. *)
Definition is_mobile (reference_pdb file_name : string) : bool :=
  ends_with ".pdb" file_name
  && negb (String.eqb (before_dot file_name) reference_pdb).

(** The lines of one Pro-Fit script. *)
Definition script_lines (reference_pdb : string) (chunk : list string)
  : list string :=
  ("reference " ++ reference_pdb ++ ".pdb")%string
    :: flat_map (fun file_name =>
                   if is_mobile reference_pdb file_name
                   then [("mobile " ++ file_name)%string; "fit"%string]
                   else [])
                chunk
    ++ ["quit"%string].

(** The scripts [rmsd_calculation] writes for the listing [files] of the
    folder, in order: [script_1.txt], [script_2.txt], ... *)
Definition rmsd_scripts (files : list string) (reference_pdb : string)
  : list (list string) :=
  map (script_lines reference_pdb) (chunks files).

End Rmsd.

Import Rmsd.

(* ===================================================================== *)
(** ** scoring_and_export.py: the log around the decay analysis *)
(* ===================================================================== *)

Module ScoringLog.

(** [read_sheet["cc"].diff()] after the first row, [prev] being the
    score of the row before. *)
Fixpoint diff_from (prev : Q) (cc : list Q) : list (option Q) :=
  match cc with
  | [] => []
  | c :: rest => Some (c - prev) :: diff_from c rest
  end.

(** The column [cc change]: no value at step 0. *)
Definition cc_change (cc : list Q) : list (option Q) :=
  match cc with
  | [] => []
  | c :: rest => None :: diff_from c rest
  end.

(** The position of the first [true], if any. *)
Fixpoint first_true (l : list bool) : option nat :=
  match l with
  | [] => None
  | true :: _ => Some O
  | false :: l' => option_map S (first_true l')
  end.

(** [(read_sheet["cc change"] < 0).idxmax()]: the first step whose
    change is negative; step 0 when none is; [ValueError] on an empty
    sheet. *)
Definition first_negative_index (cc : list Q) : result nat :=
  let negative := map (fun d => match d with
                                | Some x => Qltb x 0
                                | None => false
                                end) (cc_change cc) in
  match negative with
  | [] => Raise ValueError
  | _ => Ok (match first_true negative with Some k => k | None => O end)
  end.

(** [str(result)] for an integer. *)
Definition string_of_Z (z : Z) : string :=
  NilEmpty.string_of_int (Z.to_int z).

(** [write_result_step_to_xlsx] *)
Definition write_result_step_to_xlsx (io : file) (result : Z) : Py.result file :=
  let full_result := ("s" ++ string_of_Z result)%string in
  ws <- load_workbook io ;;
  ws' <- set_cell ws (result + 2) 9 (CStr full_result) ;;
  Ok (Some ws').

(** [scoring_conformations], with the log it leaves: the best step is
    written back into the log. *)
Definition scoring_conformations_log (log : file) (fit : Py.result (R * R))
  : Py.result (Z * file) :=
  n <- Scoring.read_log log ;;
  '(turning_point, out) <-
    Scoring.save_time_series_plot fit (Z.of_nat n - 1) ;;
  log' <- write_result_step_to_xlsx log turning_point ;;
  Ok (turning_point, log').

End ScoringLog.

Import ScoringLog.

(* ===================================================================== *)
(** ** modes_generator.py: the names of the mode files *)
(* ===================================================================== *)

Module Naming.

(** A run of [n] zeros. *)
Fixpoint zeros (n : nat) : string :=
  match n with
  | O => EmptyString
  | S n' => ("0" ++ zeros n')%string
  end.

(** The decimal digits of a non-negative integer. *)
Definition digits (z : Z) : string :=
  NilEmpty.string_of_uint (N.to_uint (Z.to_N z)).

(** [mode_formatting], on the integer that [int(mode_in_single)] gives:
    the format [03d] pads with zeros to three characters, the sign of a
    negative number included. *)
Definition mode_formatting (mode_in_single : Z) : string :=
  if (mode_in_single <? 0)%Z then
    let d := digits (Z.abs mode_in_single) in
    ("-" ++ zeros (2 - String.length d) ++ d)%string
  else
    let d := digits mode_in_single in
    (zeros (3 - String.length d) ++ d)%string.

(** The mode file [deformation_rtb] hands to [movemode.pl]. *)
Definition mode_file (frequency : Z) : string :=
  ("mov000.mod" ++ mode_formatting frequency)%string.

(** Reading a decimal number back from a string of digits. *)
Definition read_digits (s : string) : option Z :=
  option_map Z.of_uint (NilEmpty.uint_of_string s).

End Naming.

Import Naming.

(* ===================================================================== *)
(** ** Facts about the log and the stop judgements *)
(* ===================================================================== *)

Module StopIterFacts.

Lemma mapM_ok {A B} (f : A -> result B) (g : A -> B) (l : list A) :
  (forall a, In a l -> f a = Ok (g a)) -> mapM f l = Ok (map g l).
Proof.
  induction l as [|a l IH]; intros H; simpl; [reflexivity|].
  rewrite (H a (or_introl eq_refl)); simpl.
  rewrite IH by (intros; apply H; now right). reflexivity.
Qed.

Lemma max_column_cons r ws : (List.length r <= max_column (r :: ws))%nat.
Proof. unfold max_column; simpl. apply Nat.le_max_l. Qed.

Lemma max_column_header hdr rows :
  (2 <= max_column (header hdr :: rows))%nat.
Proof.
  eapply Nat.le_trans; [|apply max_column_cons].
  unfold header; destruct (String.eqb hdr "yes"); simpl; lia.
Qed.

(** Reading column 2 of an existing row index. *)
Lemma second_cell ws (r : Z) :
  (2 <= max_column ws)%nat -> (1 <= r)%Z ->
  (vals <- row_values ws r ;; list_index vals 1)
  = Ok (nth 1 (nth (Z.to_nat (r - 1)) ws []) CNone).
Proof.
  intros Hc Hr. unfold row_values.
  rewrite mapM_ok with
    (g := fun c => nth (Z.to_nat (Z.of_nat c - 1))
                       (nth (Z.to_nat (r - 1)) ws []) CNone).
  - simpl. destruct (max_column ws) as [|[|k]]; try lia.
    reflexivity.
  - intros c Hin. apply in_seq in Hin. unfold cell_value.
    destruct (Z.ltb_spec r 1); try lia.
    destruct (Z.ltb_spec (Z.of_nat c) 1); try lia. reflexivity.
Qed.

Lemma header_second hdr : nth 1 (header hdr) CNone = CStr "CC of this iter".
Proof. unfold header; destruct (String.eqb hdr "yes"); reflexivity. Qed.

Lemma scored_score r : scored r -> nth 1 r CNone = CNum (score r).
Proof.
  intros [q Hq]. unfold score.
  rewrite (nth_error_nth r 1 CNone Hq). reflexivity.
Qed.

Lemma read_loop_rows hdr rows :
  Forall scored rows ->
  forall k i total,
    (i + k <= List.length rows)%nat ->
    read_loop (header hdr :: rows) (max_row (header hdr :: rows)) i k total
    = Ok (fold_left Qplus (read_back rows i k) total).
Proof.
  intros Hs. set (ws := header hdr :: rows).
  assert (Hmax : max_row ws = (Z.of_nat (List.length rows) + 1)%Z).
  { unfold max_row, ws; simpl List.length. lia. }
  induction k as [|k IH]; intros i total Hik.
  - unfold read_back; simpl. reflexivity.
  - cbn [read_loop].
    pose proof (second_cell ws (max_row ws - Z.of_nat i)
                  (max_column_header hdr rows)) as Hc.
    assert (Hr : (1 <= max_row ws - Z.of_nat i)%Z) by lia.
    specialize (Hc Hr).
    unfold bind in Hc |- *.
    destruct (row_values ws (max_row ws - Z.of_nat i)) as [vals|e];
      [|discriminate].
    rewrite Hc.
    replace (Z.to_nat (max_row ws - Z.of_nat i - 1))
      with (S (List.length rows - S i)) by lia.
    unfold ws at 1; cbn [nth].
    assert (Hin : (List.length rows - S i < List.length rows)%nat) by lia.
    assert (Hsc : scored (nth (List.length rows - S i) rows [])).
    { rewrite Forall_forall in Hs. apply Hs. now apply nth_In. }
    rewrite (scored_score _ Hsc). cbn [py_add].
    rewrite IH by lia.
    unfold read_back.
    assert (Hlen : (i < List.length (rev (map score rows)))%nat).
    { rewrite length_rev, length_map. lia. }
    assert (Hnth : nth i (rev (map score rows)) 0
                   = score (nth (List.length rows - S i) rows [])).
    { rewrite rev_nth by (rewrite length_map; lia).
      rewrite length_map.
      rewrite (nth_indep _ 0 (score [])) by (rewrite length_map; lia).
      apply map_nth. }
    rewrite <- Hnth.
    destruct (skipn i (rev (map score rows))) as [|x l] eqn:Hsk.
    { apply (f_equal (@List.length Q)) in Hsk.
      rewrite length_skipn in Hsk. simpl in Hsk. lia. }
    assert (Hx : nth i (rev (map score rows)) 0 = x).
    { rewrite <- (firstn_skipn i (rev (map score rows))) at 1.
      rewrite app_nth2; rewrite length_firstn, Nat.min_l by lia; try lia.
      rewrite Nat.sub_diag, Hsk. reflexivity. }
    assert (Hsk' : skipn (S i) (rev (map score rows)) = l).
    { replace (S i) with (1 + i)%nat by lia.
      rewrite <- skipn_skipn, Hsk. reflexivity. }
    rewrite Hsk', Hx. reflexivity.
Qed.

(** Once the loop reaches row 1 it adds the header text to a number. *)
Lemma read_loop_header hdr rows :
  Forall scored rows ->
  forall k i total,
    (i <= List.length rows)%nat -> (List.length rows < i + k)%nat ->
    read_loop (header hdr :: rows) (max_row (header hdr :: rows)) i k total
    = Raise TypeError.
Proof.
  intros Hs. induction k as [|k IH]; intros i total Hi Hik; [lia|].
  destruct (Nat.eq_dec i (List.length rows)) as [->|Hne].
  - cbn [read_loop].
    pose proof (second_cell (header hdr :: rows)
                  (max_row (header hdr :: rows)
                   - Z.of_nat (List.length rows))
                  (max_column_header hdr rows)) as Hc.
    assert (Hm : max_row (header hdr :: rows)
                 = (Z.of_nat (List.length rows) + 1)%Z).
    { unfold max_row; simpl List.length. lia. }
    rewrite Hm in *.
    specialize (Hc ltac:(lia)). unfold bind in Hc |- *.
    destruct (row_values (header hdr :: rows)
                (Z.of_nat (List.length rows) + 1
                 - Z.of_nat (List.length rows))) as [vals|e];
      [|discriminate].
    rewrite Hc.
    replace (Z.to_nat (Z.of_nat (List.length rows) + 1
                       - Z.of_nat (List.length rows) - 1)) with O by lia.
    cbn [nth]. rewrite header_second. reflexivity.
  - assert (Hstep : forall t,
               read_loop (header hdr :: rows) (max_row (header hdr :: rows))
                         i 1 t
               = Ok (fold_left Qplus (read_back rows i 1) t)).
    { intros t. apply read_loop_rows; [assumption | lia]. }
    cbn [read_loop] in Hstep |- *. specialize (Hstep total).
    unfold bind in Hstep |- *.
    destruct (row_values (header hdr :: rows)
                (max_row (header hdr :: rows) - Z.of_nat i)) as [vals|e];
      [|discriminate].
    destruct (list_index vals 1) as [v|e]; [|discriminate].
    destruct (py_add total v) as [t'|e]; [|discriminate].
    apply IH; lia.
Qed.

Lemma Qsum_app l1 l2 : Qsum (l1 ++ l2) == Qsum l1 + Qsum l2.
Proof.
  induction l1 as [|x l1 IH]; simpl.
  - ring.
  - unfold Qsum in *; simpl. rewrite IH. ring.
Qed.

Lemma fold_left_Qplus l : forall t, fold_left Qplus l t == t + Qsum l.
Proof.
  induction l as [|x l IH]; intros t; simpl.
  - unfold Qsum; simpl. ring.
  - rewrite IH. unfold Qsum; simpl. ring.
Qed.

Lemma Qsum_rev l : Qsum (rev l) == Qsum l.
Proof.
  induction l as [|x l IH]; simpl; [reflexivity|].
  rewrite Qsum_app, IH. unfold Qsum; simpl. ring.
Qed.

(** The scores read back from the bottom are the last [k] scores. *)
Lemma read_back_lastn rows k :
  (k <= List.length rows)%nat ->
  read_back rows 0 k = rev (lastn k (map score rows)).
Proof.
  intros Hk. unfold read_back, lastn. simpl skipn.
  rewrite length_map.
  rewrite <- (firstn_skipn (List.length rows - k) (map score rows)) at 1.
  rewrite rev_app_distr.
  rewrite firstn_app.
  rewrite length_rev, length_skipn, length_map.
  replace (k - (List.length rows - (List.length rows - k)))%nat with O by lia.
  simpl firstn at 2. rewrite app_nil_r.
  apply firstn_all2.
  rewrite length_rev, length_skipn, length_map. lia.
Qed.

Lemma lastn_app_one {A} (l : list A) (x : A) k :
  (k <= List.length l)%nat ->
  lastn (S k) (l ++ [x]) = lastn k l ++ [x].
Proof.
  intros Hk. unfold lastn. rewrite length_app; simpl List.length.
  replace (List.length l + 1 - S k)%nat with (List.length l - k)%nat by lia.
  rewrite skipn_app.
  replace (List.length l - k - List.length l)%nat with O by lia.
  reflexivity.
Qed.

(** Whatever the log holds, the judgement appends its record: both
    reads are guarded by [except Exception]. *)
Lemma cc_judgement_avrg_appends name mode amp ws cc :
  exists avg b,
    cc_judgement_avrg name mode amp (Some ws) cc
    = Ok (Some (ws ++ [record_row name cc mode amp avg]), b).
Proof.
  unfold cc_judgement_avrg.
  destruct (read_pre_iter_cc_and_avrg (Some ws) 5) as [t5|e5];
    destruct (read_pre_iter_cc_and_avrg (Some ws) 4) as [t4|e4];
    simpl; eexists; eexists; reflexivity.
Qed.

Lemma read_four hdr rows :
  Forall scored rows -> (4 <= List.length rows)%nat ->
  exists t, read_pre_iter_cc_and_avrg (log_rows hdr rows) 4 = Ok t
            /\ t == Qsum (lastn 4 (map score rows)).
Proof.
  intros Hs Hlen. unfold read_pre_iter_cc_and_avrg, log_rows, load_workbook, bind.
  rewrite read_loop_rows by (assumption || lia).
  eexists; split; [reflexivity|].
  rewrite fold_left_Qplus, read_back_lastn by lia.
  rewrite Qsum_rev. ring.
Qed.

Lemma read_four_short hdr rows :
  Forall scored rows -> (List.length rows < 4)%nat ->
  read_pre_iter_cc_and_avrg (log_rows hdr rows) 4 = Raise TypeError.
Proof.
  intros Hs Hlen. unfold read_pre_iter_cc_and_avrg, log_rows, load_workbook, bind.
  apply read_loop_header; (assumption || lia).
Qed.

(** With four earlier records the field is the five-point mean. *)
Lemma rolling_average_full hdr rows name mode amp cc :
  Forall scored rows -> (4 <= List.length rows)%nat ->
  exists avg b,
    cc_judgement_avrg name mode amp (log_rows hdr rows) cc
    = Ok (log_rows hdr (rows ++ [record_row name cc mode amp avg]), b)
    /\ avg == Qmean (lastn 5 (map score rows ++ [cc])).
Proof.
  intros Hs Hlen.
  destruct (read_four hdr rows Hs Hlen) as (t & Ht & Hsum).
  unfold cc_judgement_avrg. rewrite Ht.
  destruct (read_pre_iter_cc_and_avrg (log_rows hdr rows) 5) as [t5|e5];
    simpl; (eexists; eexists; split; [reflexivity|]).
  all: rewrite lastn_app_one by (rewrite length_map; lia).
  all: unfold Qmean; rewrite Qsum_app, Hsum.
  all: rewrite length_app.
  all: replace (List.length (lastn 4 (map score rows))) with 4%nat
      by (unfold lastn; rewrite length_skipn, length_map; lia).
  all: unfold Qsum at 3; simpl; field.
Qed.

(** With fewer than four earlier records the field is the current
    score alone. *)
Lemma rolling_average_short hdr rows name mode amp cc :
  Forall scored rows -> (List.length rows < 4)%nat ->
  exists b,
    cc_judgement_avrg name mode amp (log_rows hdr rows) cc
    = Ok (log_rows hdr (rows ++ [record_row name cc mode amp cc]), b).
Proof.
  intros Hs Hlen. unfold cc_judgement_avrg.
  rewrite (read_four_short hdr rows Hs Hlen).
  destruct (read_pre_iter_cc_and_avrg (log_rows hdr rows) 5) as [t5|e5];
    simpl; eexists; reflexivity.
Qed.

(** The rows the judgement appends keep the log a log of scored rows. *)
Lemma record_row_scored name cc mode amp avg :
  scored (record_row name cc mode amp avg).
Proof. exists cc. reflexivity. Qed.

Lemma appended_rows_scored rows name cc mode amp avg :
  Forall scored rows ->
  Forall scored (rows ++ [record_row name cc mode amp avg]).
Proof.
  intros Hs. apply Forall_app. split; [assumption|].
  constructor; [apply record_row_scored | constructor].
Qed.

(** C3 (as amended).  On a log of scored rows, the rolling-average
    field of the record that [cc_judgement_avrg] appends is the mean of
    the last five similarity scores (the current one and the four
    before it) when at least four records were logged before, and is
    the current similarity score itself when fewer than four were. *)
Theorem C3_rolling_average_field hdr rows name mode amp cc :
  Forall scored rows ->
  exists avg b,
    cc_judgement_avrg name mode amp (log_rows hdr rows) cc
    = Ok (log_rows hdr (rows ++ [record_row name cc mode amp avg]), b)
    /\ ((4 <= List.length rows)%nat ->
        avg == Qmean (lastn 5 (map score rows ++ [cc])))
    /\ ((List.length rows < 4)%nat -> avg = cc).
Proof.
  intros Hs.
  destruct (le_lt_dec 4 (List.length rows)) as [Hlen|Hlen].
  - destruct (rolling_average_full hdr rows name mode amp cc Hs Hlen)
      as (avg & b & Heq & Havg).
    exists avg, b. split; [assumption|]. split; [now intros _ | lia].
  - destruct (rolling_average_short hdr rows name mode amp cc Hs Hlen)
      as (b & Heq).
    exists cc, b. split; [assumption|]. split; [lia | reflexivity].
Qed.

Lemma C3_rolling_average_field_witness :
  exists avg b,
    cc_judgement_avrg "p#s4" 7 10
      (log_rows "no" [record_row "p" (1#5) 7 10 (1#5);
                      record_row "p#s1" (2#5) 7 10 (2#5);
                      record_row "p#s2" (3#5) 7 10 (3#5);
                      record_row "p#s3" (4#5) 7 10 (4#5)]) 1
    = Ok (log_rows "no"
            ([record_row "p" (1#5) 7 10 (1#5);
              record_row "p#s1" (2#5) 7 10 (2#5);
              record_row "p#s2" (3#5) 7 10 (3#5);
              record_row "p#s3" (4#5) 7 10 (4#5)]
               ++ [record_row "p#s4" 1 7 10 avg]), b)
    /\ ((4 <= 4)%nat ->
        avg == Qmean (lastn 5 (map score
                 [record_row "p" (1#5) 7 10 (1#5);
                  record_row "p#s1" (2#5) 7 10 (2#5);
                  record_row "p#s2" (3#5) 7 10 (3#5);
                  record_row "p#s3" (4#5) 7 10 (4#5)] ++ [1])))
    /\ ((4 < 4)%nat -> avg = 1).
Proof.
  apply (C3_rolling_average_field "no"
           [record_row "p" (1#5) 7 10 (1#5);
            record_row "p#s1" (2#5) 7 10 (2#5);
            record_row "p#s2" (3#5) 7 10 (3#5);
            record_row "p#s3" (4#5) 7 10 (4#5)] "p#s4" 7 10 1).
  repeat constructor; eexists; reflexivity.
Defined.

(** C3 as stated fails: with one record logged, the field of the second
    record is the current score 1, not the mean 1/2 of the two scores
    that exist. *)
Lemma C3_counterexample :
  cc_judgement_avrg "p#s1" 7 10 (log_rows "no" [record_row "p" 0 7 10 0]) 1
  = Ok (log_rows "no" [record_row "p" 0 7 10 0; record_row "p#s1" 1 7 10 1],
        true)
  /\ Qmean (lastn 5 (map score [record_row "p" 0 7 10 0] ++ [1])) == 1 # 2
  /\ ~ 1 == Qmean (lastn 5 (map score [record_row "p" 0 7 10 0] ++ [1])).
Proof.
  split; [reflexivity|]. split; [reflexivity|].
  intros H. vm_compute in H. discriminate H.
Qed.

(** C4.  With only the header in the log (the state [create_log]
    leaves), [cc_judgement_avrg] compares against the baseline 0 and
    returns; [cc_judgement_single] reads the header text as the previous
    similarity, so its default 0 is not used and the comparison raises
    [TypeError]; with the file missing it raises as well, from the
    write. *)
Theorem C4_first_iteration_judgements hdr name mode amp cc :
  cc_judgement_avrg name mode amp (create_log hdr) cc
  = Ok (log_rows hdr [record_row name cc mode amp cc], Qltb 0 cc)
  /\ cc_judgement_single name mode amp (create_log hdr) cc = Raise TypeError
  /\ cc_judgement_single name mode amp None cc = Raise FileNotFoundError.
Proof.
  unfold create_log, log_rows, header.
  destruct (String.eqb hdr "yes"); (split; [|split]); reflexivity.
Qed.

(** A failing image read leaves [cc_judgement_single] no result. *)
Lemma cc_judgement_single_read_raises name mode amp log e :
  exists e', cc_judgement_single_read name mode amp log (Raise e) = Raise e'.
Proof.
  unfold cc_judgement_single_read.
  destruct (try_except_only _ _ _) as [x|e0]; cbn [bind]; eauto.
Qed.

End StopIterFacts.

(* ===================================================================== *)
(** ** Facts about the slope ranking and the move selection *)
(* ===================================================================== *)

Module SlopeFacts.

Lemma Qltb_lt x y : Qltb x y = true <-> x < y.
Proof. unfold Qltb, Qlt. apply Z.ltb_lt. Qed.

Lemma Qltb_ge x y : Qltb x y = false <-> y <= x.
Proof. unfold Qltb, Qle. rewrite Z.ltb_ge. reflexivity. Qed.

Section Ranking.
Context {A : Type} (key : A -> Q).

Lemma insert_row_length asc x l :
  List.length (insert_row key asc x l) = S (List.length l).
Proof.
  induction l as [|y ys IH]; simpl; [reflexivity|].
  destruct (goes_first key asc y x); simpl; congruence.
Qed.

Lemma sort_values_length asc l :
  List.length (sort_values key asc l) = List.length l.
Proof.
  induction l as [|x xs IH]; simpl; [reflexivity|].
  rewrite insert_row_length. congruence.
Qed.

(** In the order [sort_values] computes, the head of the descending
    order is the first row, in order of occurrence, among those of
    largest key. *)
Lemma sort_values_desc_head x xs :
  exists before r after rest,
    x :: xs = before ++ r :: after
    /\ sort_values key false (x :: xs) = r :: rest
    /\ (forall r', In r' before -> key r' < key r)
    /\ (forall r', In r' after -> key r' <= key r).
Proof.
  revert x. induction xs as [|y ys IH]; intros x.
  - exists [], x, [], []. simpl. repeat split; intros r' [].
  - destruct (IH y) as (b0 & r0 & a0 & rest0 & Hsplit & Hsort & Hb & Ha).
    change (sort_values key false (x :: y :: ys))
      with (insert_row key false x (sort_values key false (y :: ys))).
    rewrite Hsort. cbn [insert_row goes_first].
    destruct (Qltb (key x) (key r0)) eqn:Hcmp.
    + apply Qltb_lt in Hcmp.
      exists (x :: b0), r0, a0, (insert_row key false x rest0).
      rewrite Hsplit. repeat split; try assumption.
      intros r' [<-|Hin]; [assumption | now apply Hb].
    + apply Qltb_ge in Hcmp.
      exists [], x, (y :: ys), (r0 :: rest0).
      repeat split; [intros r' [] |].
      intros r' Hin. rewrite Hsplit in Hin.
      apply in_app_or in Hin as [Hin|[<-|Hin]].
      * apply Qlt_le_weak. eapply Qlt_le_trans; [now apply Hb | exact Hcmp].
      * exact Hcmp.
      * eapply Qle_trans; [now apply Ha | exact Hcmp].
Qed.
End Ranking.

(** With at least two fits the ranking returns; in the order
    [sort_values] computes its first pair is the first-occurring fit of
    largest absolute slope. *)
Lemma find_largest_slopes_ok df :
  (2 <= List.length df)%nat ->
  exists before r after m2 s2,
    df = before ++ r :: after
    /\ find_largest_slopes df = Ok (f_mode r, f_slope r, m2, s2)
    /\ (forall r', In r' before -> Qabs (f_slope r') < Qabs (f_slope r))
    /\ (forall r', In r' after -> Qabs (f_slope r') <= Qabs (f_slope r)).
Proof.
  intros Hlen. destruct df as [|x xs]; [simpl in Hlen; lia|].
  destruct (sort_values_desc_head abs_slope x xs)
    as (before & r & after & rest & Hsplit & Hsort & Hb & Ha).
  pose proof (sort_values_length abs_slope false (x :: xs)) as Hl.
  rewrite Hsort in Hl. destruct rest as [|r1 rest]; [simpl in Hl, Hlen; lia|].
  exists before, r, after, (f_mode r1), (f_slope r1).
  unfold find_largest_slopes. rewrite Hsort. simpl.
  repeat split; assumption.
Qed.

(** With a single fit the second positional read is out of range. *)
Lemma find_largest_slopes_single r :
  find_largest_slopes [r] = Raise IndexError.
Proof. reflexivity. Qed.

Lemma find_largest_slopes_empty :
  find_largest_slopes [] = Raise IndexError.
Proof. reflexivity. Qed.

Lemma Qabs_zero_iff q : Qabs q == 0 <-> q == 0.
Proof.
  split; intros H.
  - destruct (Qlt_le_dec q 0) as [Hn|Hp].
    + rewrite Qabs_neg in H by now apply Qlt_le_weak.
      rewrite <- (Qopp_involutive q), H. reflexivity.
    + rewrite Qabs_pos in H; assumption.
  - rewrite H. reflexivity.
Qed.

(** The head of a table laid out in descending order of a key is a row
    of largest key, whatever the order among equal keys. *)
Lemma sorted_by_head {A} (key : A -> Q) (df : list A) r rest :
  sorted_by key false df (r :: rest) ->
  In r df /\ (forall r', In r' df -> key r' <= key r).
Proof.
  intros [Hperm [Hhead _]]. split.
  - apply (Permutation_in _ (Permutation_sym Hperm)). now left.
  - intros r' Hin. apply (Permutation_in _ Hperm) in Hin.
    destruct Hin as [<-|Hin]; [apply Qle_refl | exact (Hhead r' Hin)].
Qed.

(** C2 (as amended).  Under the [slope] strategy, with at least two
    fitted modes of which one has a non-zero slope, and whatever order
    the default sort returns among fits of equal absolute slope, the
    move goes along a mode whose fit has the largest absolute slope; its
    amplitude is the combined amplitude for a positive slope and its
    opposite for a negative one. *)
Theorem C2_slope_strategy A df_slopes df_sorted df_pcc :
  sorted_by abs_slope false df_slopes df_sorted ->
  (2 <= List.length df_slopes)%nat ->
  (exists r0, In r0 df_slopes /\ ~ f_slope r0 == 0) ->
  exists r amp,
    In r df_slopes
    /\ (forall r', In r' df_slopes -> Qabs (f_slope r') <= Qabs (f_slope r))
    /\ select_move_sorted "slope" A df_sorted df_pcc
       = Ok (f_mode r, Num amp)
    /\ ~ f_slope r == 0
    /\ (0 < f_slope r -> amp == A)
    /\ (f_slope r < 0 -> amp == - A).
Proof.
  intros Hsorted Hlen (r0 & Hin0 & Hnz0).
  pose proof (Permutation_length (proj1 Hsorted)) as Hl.
  destruct df_sorted as [|r [|r1 rest]]; try (simpl in Hl; lia).
  destruct (sorted_by_head abs_slope df_slopes r (r1 :: rest) Hsorted)
    as [Hin Hmax].
  assert (Hnz : ~ Qabs (f_slope r) == 0).
  { intros Hz. pose proof (Hmax r0 Hin0) as Hle. unfold abs_slope in Hle.
    rewrite Hz in Hle. apply Hnz0, Qabs_zero_iff.
    apply Qle_antisym; [assumption | apply Qabs_nonneg]. }
  exists r, (f_slope r / Qabs (f_slope r) * A).
  split; [assumption|]. split; [exact Hmax|]. split; [|split; [|split]].
  - unfold select_move_sorted, find_largest_slopes_sorted,
      select_move_ranked, unit_slope.
    cbn [list_index nth_error bind String.eqb Ascii.eqb Bool.eqb].
    destruct (Qeq_bool (Qabs (f_slope r)) 0) eqn:Hq.
    + apply Qeq_bool_eq in Hq. contradiction.
    + reflexivity.
  - intros Hz. apply Hnz. now apply Qabs_zero_iff.
  - intros Hpos. rewrite Qabs_pos by now apply Qlt_le_weak.
    field. intros Hz. rewrite Hz in Hpos. now apply Qlt_irrefl in Hpos.
  - intros Hneg. rewrite Qabs_neg by now apply Qlt_le_weak.
    field. intros Hz. rewrite Hz in Hneg. now apply Qlt_irrefl in Hneg.
Qed.

Lemma C2_slope_strategy_witness :
  exists r amp,
    In r [mk_fit 7 (1#25) (1#2); mk_fit 8 (-(1#20)) (1#2);
          mk_fit 9 (1#20) (1#2)]
    /\ (forall r',
          In r' [mk_fit 7 (1#25) (1#2); mk_fit 8 (-(1#20)) (1#2);
                 mk_fit 9 (1#20) (1#2)] ->
          Qabs (f_slope r') <= Qabs (f_slope r))
    /\ select_move_sorted "slope" 10
         [mk_fit 8 (-(1#20)) (1#2); mk_fit 9 (1#20) (1#2);
          mk_fit 7 (1#25) (1#2)] []
       = Ok (f_mode r, Num amp)
    /\ ~ f_slope r == 0
    /\ (0 < f_slope r -> amp == 10)
    /\ (f_slope r < 0 -> amp == - (10)).
Proof.
  apply (C2_slope_strategy 10
           [mk_fit 7 (1#25) (1#2); mk_fit 8 (-(1#20)) (1#2);
            mk_fit 9 (1#20) (1#2)]
           [mk_fit 8 (-(1#20)) (1#2); mk_fit 9 (1#20) (1#2);
            mk_fit 7 (1#25) (1#2)] []).
  - split.
    + apply (Permutation_cons_app [_; _] []). reflexivity.
    + simpl. unfold in_order, abs_slope. simpl.
      repeat split; intros y Hy; repeat destruct Hy as [<-|Hy];
        try contradiction; vm_compute; discriminate.
  - simpl. lia.
  - exists (mk_fit 7 (1#25) (1#2)). split; [simpl; auto|].
    simpl. intros H. vm_compute in H. discriminate H.
Defined.

(** When the largest absolute slope is 0 the quotient
    [first_slope / abs(first_slope)] is [nan], and so is the amplitude
    of the move. *)
Lemma flat_ranking_not_a_number A r r1 rest df_pcc :
  f_slope r == 0 ->
  select_move_sorted "slope" A (r :: r1 :: rest) df_pcc
  = Ok (f_mode r, NaN).
Proof.
  intros Hz.
  unfold select_move_sorted, find_largest_slopes_sorted, select_move_ranked,
    unit_slope.
  cbn [list_index nth_error bind String.eqb Ascii.eqb Bool.eqb].
  assert (Hq : Qeq_bool (Qabs (f_slope r)) 0 = true).
  { apply Qeq_bool_iff. now apply Qabs_zero_iff. }
  now rewrite Hq.
Qed.

(** C2 as stated fails twice.  On the fit table of the modes 7 to 10 in
    which 9 and 10 tie for the largest absolute slope, the order
    10, 9, 8, 7 is one the default sort may return, and under it the
    move goes along mode 10 although mode 9 is met first.  And on a
    table of two modes whose slopes are 0 the amplitude of the move is
    [nan] in either order, neither the combined amplitude nor its
    opposite. *)
Lemma C2_counterexample :
  sorted_by abs_slope false
    [mk_fit 7 (1#50) (1#2); mk_fit 8 (1#25) (1#2);
     mk_fit 9 (1#20) (1#2); mk_fit 10 (-(1#20)) (1#2)]
    [mk_fit 10 (-(1#20)) (1#2); mk_fit 9 (1#20) (1#2);
     mk_fit 8 (1#25) (1#2); mk_fit 7 (1#50) (1#2)]
  /\ (exists amp,
        select_move_sorted "slope" 10
          [mk_fit 10 (-(1#20)) (1#2); mk_fit 9 (1#20) (1#2);
           mk_fit 8 (1#25) (1#2); mk_fit 7 (1#50) (1#2)] []
        = Ok (10%Z, Num amp)
        /\ amp == - (10))
  /\ abs_slope (mk_fit 9 (1#20) (1#2))
     == abs_slope (mk_fit 10 (-(1#20)) (1#2))
  /\ select_move_sorted "slope" 10
       [mk_fit 7 0 (1#2); mk_fit 8 0 (1#2)] []
     = Ok (7%Z, NaN)
  /\ select_move_sorted "slope" 10
       [mk_fit 8 0 (1#2); mk_fit 7 0 (1#2)] []
     = Ok (8%Z, NaN).
Proof.
  split; [|split; [|split; [|split]]]; try reflexivity;
    [|eexists; split; reflexivity].
  split.
  - apply (Permutation_rev
             [mk_fit 7 (1#50) (1#2); mk_fit 8 (1#25) (1#2);
              mk_fit 9 (1#20) (1#2); mk_fit 10 (-(1#20)) (1#2)]).
  - simpl. unfold in_order, abs_slope. simpl.
    repeat split; intros y Hy; repeat destruct Hy as [<-|Hy];
      try contradiction; vm_compute; discriminate.
Qed.

(** The regression of the scores 0.1, 0.3, 0.5, 0.7, 0.9 at the
    amplitudes -10, -5, 0, 5, 10 has slope 0.04 and intercept 0.5. *)
Example slope_calculation_line :
  exists slope intercept,
    slope_calculation
      [mk_sample 7 (-10) (1#10); mk_sample 7 (-5) (3#10);
       mk_sample 7 0 (1#2); mk_sample 7 5 (7#10); mk_sample 7 10 (9#10)]
    = Ok (slope, intercept)
    /\ slope == 1 # 25 /\ intercept == 1 # 2.
Proof. eexists. eexists. split; [reflexivity|]. split; reflexivity. Qed.

End SlopeFacts.

(* ===================================================================== *)
(** ** Facts about the sampled amplitudes *)
(* ===================================================================== *)

Module ModesGenFacts.

Lemma in_py_range a b m : In m (py_range a b) <-> (a <= m < b)%Z.
Proof.
  unfold py_range. rewrite in_map_iff. split.
  - intros (k & <- & Hk). apply in_seq in Hk. lia.
  - intros Hm. exists (Z.to_nat (m - a)). split; [lia|].
    apply in_seq. lia.
Qed.

(** On a non-negative number [int] is the floor. *)
Lemma py_int_floor x :
  0 <= x -> inject_Z (py_int x) <= x /\ x < inject_Z (py_int x) + 1.
Proof.
  intros Hx. unfold py_int.
  assert (Hn : (0 <= Qnum x)%Z).
  { unfold Qle in Hx. simpl in Hx. lia. }
  rewrite Z.quot_div_nonneg by (assumption || reflexivity).
  replace (Qnum x / QDen x)%Z with (Qfloor x) by (destruct x; reflexivity).
  split; [apply Qfloor_le|].
  pose proof (Qlt_floor x) as H.
  rewrite inject_Z_plus in H. exact H.
Qed.

(** C6.  For a combined amplitude [A > 0] the amplitudes sampled for
    every mode of the range are [-A, -h, 0, h, A], where the integer
    [h] is [A / 2] truncated; with [A = 10] they are
    [-10, -5, 0, 5, 10]. *)
Theorem C6_sampled_amplitudes A start_mode end_mode :
  0 < A ->
  exists (h : Z) calls,
    (inject_Z h <= A / 2 /\ A / 2 < inject_Z h + 1)
    /\ generate_deformed_conformation A start_mode end_mode = Ok calls
    /\ (forall m dq,
           In (m, dq) calls <->
           (start_mode <= m <= end_mode)%Z
           /\ In dq [- A; inject_Z (- h); 0; inject_Z h; A])
    /\ sampled_amplitudes 10 = [- (10); - (5); 0; 5; 10].
Proof.
  intros HA.
  exists (py_int (A / 2)).
  exists (flat_map (fun frequency =>
                      map (fun dq => (frequency, dq)) (sampled_amplitudes A))
                   (py_range start_mode (end_mode + 1))).
  split; [|split; [|split]].
  - apply py_int_floor. apply Qlt_le_weak.
    apply Qlt_shift_div_l; [reflexivity|]. rewrite Qmult_0_l. exact HA.
  - unfold generate_deformed_conformation.
    apply SlopeFacts.Qltb_lt in HA. rewrite HA. reflexivity.
  - intros m dq. rewrite in_flat_map. split.
    + intros (f & Hf & Hin). apply in_map_iff in Hin as (d & Heq & Hd).
      inversion Heq; subst. apply in_py_range in Hf.
      split; [lia | exact Hd].
    + intros (Hm & Hd). exists m. split.
      * apply in_py_range. lia.
      * apply in_map_iff. exists dq. split; [reflexivity | exact Hd].
  - reflexivity.
Qed.

Lemma C6_sampled_amplitudes_witness :
  exists (h : Z) calls,
    (inject_Z h <= 7 / 2 /\ 7 / 2 < inject_Z h + 1)
    /\ generate_deformed_conformation 7 7 9 = Ok calls
    /\ (forall m dq,
           In (m, dq) calls <->
           (7 <= m <= 9)%Z
           /\ In dq [- (7); inject_Z (- h); 0; inject_Z h; 7])
    /\ sampled_amplitudes 10 = [- (10); - (5); 0; 5; 10].
Proof.
  apply (C6_sampled_amplitudes 7 7 9). reflexivity.
Defined.

Example sampled_amplitudes_7 :
  sampled_amplitudes 7 = [- (7); - (3); 0; 3; 7].
Proof. reflexivity. Qed.

End ModesGenFacts.

(* ===================================================================== *)
(** ** Facts about the iteration loop *)
(* ===================================================================== *)

Module DriverFacts.

Import StopIterFacts.

Section Numeric.
Variable cfg : config.
Variable world : nat -> iter_obs.
Variable modes : nat -> Z.
Variable amps : nat -> Q.

Hypothesis Hterm : termination_criterion cfg = "numeric"%string.
Hypothesis Hamp : 0 < combined_amplitude cfg.

(** The record pass [j] writes, up to its rolling-average field. *)
Let record (j : nat) (avg : Q) : row :=
  record_row (render (name_at (original_conformation cfg) j))
             (o_cc (world j)) (inject_Z (modes j)) (amps j) avg.

Lemma judge_numeric st o m a ws :
  overall_log st = Some ws ->
  exists avg,
    judge cfg st o m a
    = Ok (Some (ws ++ [record_row (render (initial_conformation_iter st))
                                  (o_cc o) (inject_Z m) a avg]),
          negb ((deformed_times st =? num_iterations cfg)%Z
                || Qeq_bool a 0)).
Proof.
  intros Hlog. unfold judge. rewrite Hterm, Hlog. simpl String.eqb.
  destruct (cc_judgement_avrg_appends
              (render (initial_conformation_iter st)) (inject_Z m) a ws
              (o_cc o)) as (avg & b & Heq).
  exists avg. rewrite Heq.
  destruct ((deformed_times st =? num_iterations cfg)%Z || Qeq_bool a 0);
    reflexivity.
Qed.

Lemma iteration_numeric st j ws :
  overall_log st = Some ws ->
  initial_conformation_iter st = name_at (original_conformation cfg) j ->
  move_at cfg (world j) = Ok (modes j, amps j) ->
  exists avg,
    iteration cfg (world j) st
    = Ok (mk_state (initial_conformation_iter st) (deformed_times st)
                   (Some (ws ++ [record j avg])) (applied_moves st),
          modes j, amps j,
          negb ((deformed_times st =? num_iterations cfg)%Z
                || Qeq_bool (amps j) 0)).
Proof.
  intros Hlog Hname Hmove. unfold iteration.
  unfold generate_deformed_conformation.
  apply SlopeFacts.Qltb_lt in Hamp. rewrite Hamp. simpl.
  rewrite Hmove. simpl.
  destruct (judge_numeric st (world j) (modes j) (amps j) ws Hlog)
    as (avg & Hj).
  exists avg. rewrite Hj. simpl. unfold record. rewrite Hname.
  reflexivity.
Qed.

(** The loop from pass [i], [d] passes before the stopping pass. *)
Lemma loop_numeric k :
  forall d n i st ws,
    k = (i + d)%nat -> (d < n)%nat ->
    deformed_times st = Z.of_nat i ->
    overall_log st = Some ws ->
    initial_conformation_iter st = name_at (original_conformation cfg) i ->
    (forall j, (i <= j <= k)%nat ->
               move_at cfg (world j) = Ok (modes j, amps j)) ->
    (Z.of_nat k = num_iterations cfg \/ amps k == 0) ->
    (forall j, (i <= j < k)%nat ->
               Z.of_nat j <> num_iterations cfg /\ ~ amps j == 0) ->
    exists st' rows avg,
      loop cfg world n i st = Ok (st', Broke)
      /\ deformed_times st' = Z.of_nat k
      /\ overall_log st' = Some (ws ++ rows)
      /\ List.length rows = S d
      /\ last rows [] = record k avg
      /\ applied_moves st'
         = applied_moves st
             ++ map (fun j => (modes j, amps j)) (seq i d).
Proof.
  induction d as [|d IH];
    intros n i st ws Hk Hn Hdt Hlog Hname Hmoves Hstop Hfirst.
  - rewrite Nat.add_0_r in Hk. subst k.
    destruct n as [|n]; [lia|]. cbn [loop].
    destruct (iteration_numeric st i ws Hlog Hname
                (Hmoves i ltac:(lia))) as (avg & Hit).
    rewrite Hit. cbn [bind].
    assert (Hb : ((deformed_times st =? num_iterations cfg)%Z
                  || Qeq_bool (amps i) 0) = true).
    { destruct Hstop as [Hs|Hs].
      - rewrite Hdt, Hs, Z.eqb_refl. reflexivity.
      - apply Qeq_eq_bool in Hs. rewrite Hs. apply orb_true_r. }
    rewrite Hb. cbn [negb].
    eexists; exists [record i avg], avg.
    repeat split; simpl; try assumption.
    rewrite app_nil_r. reflexivity.
  - destruct n as [|n]; [lia|]. cbn [loop].
    destruct (iteration_numeric st i ws Hlog Hname
                (Hmoves i ltac:(lia))) as (avg & Hit).
    rewrite Hit. cbn [bind].
    destruct (Hfirst i ltac:(lia)) as (Hne & Hnz).
    assert (Hb : ((deformed_times st =? num_iterations cfg)%Z
                  || Qeq_bool (amps i) 0) = false).
    { apply orb_false_iff. split.
      - apply Z.eqb_neq. rewrite Hdt. exact Hne.
      - destruct (Qeq_bool (amps i) 0) eqn:Hq; [|reflexivity].
        apply Qeq_bool_eq in Hq. contradiction. }
    rewrite Hb. cbn [negb].
    edestruct (IH n (S i)
                 (prepare_next
                    (mk_state (initial_conformation_iter st)
                              (deformed_times st)
                              (Some (ws ++ [record i avg]))
                              (applied_moves st))
                    (modes i) (amps i))
                 (ws ++ [record i avg]))
      as (st' & rows & avg' & Hloop & Hdt' & Hlog' & Hlen & Hlast & Hmv).
    + lia.
    + lia.
    + simpl. rewrite Hdt. lia.
    + reflexivity.
    + simpl. rewrite Hname. reflexivity.
    + intros j Hj. apply Hmoves. lia.
    + exact Hstop.
    + intros j Hj. apply Hfirst. lia.
    + exists st', (record i avg :: rows), avg'.
      rewrite Hloop. repeat split; try assumption.
      * rewrite Hlog', <- app_assoc. reflexivity.
      * simpl. now rewrite Hlen.
      * destruct rows as [|r rows]; [simpl in Hlen; lia|].
        exact Hlast.
      * rewrite Hmv. simpl. rewrite <- app_assoc. reflexivity.
Qed.

End Numeric.

(** Some pass up to the budget is the first to meet the stop test. *)
Lemma first_stop_exists (amps : nat -> Q) (n : nat) :
  exists k, (k <= n)%nat
            /\ (k = n \/ amps k == 0)
            /\ (forall j, (j < k)%nat -> ~ amps j == 0).
Proof.
  induction n as [|n IH].
  - exists O. repeat split; [lia | now left | intros j Hj; lia].
  - destruct IH as (k & Hk & Hstop & Hfirst).
    destruct (Qeq_dec (amps k) 0) as [Hz|Hnz].
    + exists k. repeat split; [lia | now right | assumption].
    + destruct Hstop as [->|Hz]; [|contradiction].
      exists (S n). repeat split; [lia | now left |].
      intros j Hj. destruct (Nat.eq_dec j n) as [->|Hne]; [assumption|].
      apply Hfirst. lia.
Qed.

(** C1.  Under the numeric criterion, let pass [k] (within the budget)
    be the first whose deformed-times counter equals the iteration
    budget or whose selected amplitude is 0, every selection up to it
    having succeeded.  Then the loop leaves by [break] in pass [k]: the
    counter is [k], the log holds [k + 1] records of which the last is
    that of pass [k], and exactly the [k] earlier moves were applied. *)
Theorem C1_numeric_termination cfg world modes amps k :
  termination_criterion cfg = "numeric"%string ->
  0 < combined_amplitude cfg ->
  (Z.of_nat k <= num_iterations cfg)%Z ->
  (forall j, (j <= k)%nat -> move_at cfg (world j) = Ok (modes j, amps j)) ->
  (Z.of_nat k = num_iterations cfg \/ amps k == 0) ->
  (forall j, (j < k)%nat -> ~ amps j == 0) ->
  exists st rows avg,
    run cfg world = Ok (st, Broke)
    /\ deformed_times st = Z.of_nat k
    /\ overall_log st = log_rows (calculate_rmsd_to_reference cfg) rows
    /\ List.length rows = S k
    /\ last rows []
       = record_row (render (name_at (original_conformation cfg) k))
                    (o_cc (world k)) (inject_Z (modes k)) (amps k) avg
    /\ applied_moves st = map (fun j => (modes j, amps j)) (seq 0 k).
Proof.
  intros Hterm Hamp Hk Hmoves Hstop Hfirst.
  destruct (loop_numeric cfg world modes amps Hterm Hamp k k
              (Z.to_nat (num_iterations cfg + 10)) O (initial_state cfg)
              [header (calculate_rmsd_to_reference cfg)])
    as (st & rows & avg & Hloop & Hdt & Hlog & Hlen & Hlast & Hmv);
    try reflexivity; try assumption.
  - lia.
  - intros j Hj. apply Hmoves. lia.
  - intros j Hj. split; [lia | apply Hfirst; lia].
  - exists st, rows, avg. unfold run. rewrite Hloop.
    repeat split; assumption.
Qed.

Lemma C1_numeric_termination_witness :
  exists st rows avg,
    run Samples.cfg_maxcc Samples.world_rests_at_1 = Ok (st, Broke)
    /\ deformed_times st = Z.of_nat 1
    /\ overall_log st
       = log_rows (calculate_rmsd_to_reference Samples.cfg_maxcc) rows
    /\ List.length rows = 2%nat
    /\ last rows []
       = record_row
           (render (name_at (original_conformation Samples.cfg_maxcc) 1))
           (o_cc (Samples.world_rests_at_1 1))
           (inject_Z (Samples.modes_rests_at_1 1))
           (Samples.amps_rests_at_1 1) avg
    /\ applied_moves st
       = map (fun j => (Samples.modes_rests_at_1 j,
                        Samples.amps_rests_at_1 j)) (seq 0 1).
Proof.
  apply (C1_numeric_termination Samples.cfg_maxcc Samples.world_rests_at_1
           Samples.modes_rests_at_1 Samples.amps_rests_at_1 1).
  - reflexivity.
  - reflexivity.
  - simpl. lia.
  - intros [|[|j]] Hj; [reflexivity | reflexivity | lia].
  - right. reflexivity.
  - intros [|j] Hj H; [discriminate H | lia].
Defined.

(** When every selection within the budget succeeds, such a stopping
    pass exists: a run under the numeric criterion always leaves the
    loop by [break], within the budget. *)
Corollary numeric_run_breaks cfg world modes amps :
  termination_criterion cfg = "numeric"%string ->
  0 < combined_amplitude cfg ->
  (0 <= num_iterations cfg)%Z ->
  (forall j, (Z.of_nat j <= num_iterations cfg)%Z ->
             move_at cfg (world j) = Ok (modes j, amps j)) ->
  exists k st,
    (Z.of_nat k <= num_iterations cfg)%Z
    /\ (Z.of_nat k = num_iterations cfg \/ amps k == 0)
    /\ (forall j, (j < k)%nat -> ~ amps j == 0)
    /\ run cfg world = Ok (st, Broke)
    /\ deformed_times st = Z.of_nat k.
Proof.
  intros Hterm Hamp Hb Hmoves.
  destruct (first_stop_exists amps (Z.to_nat (num_iterations cfg)))
    as (k & Hk & Hstop & Hfirst).
  assert (Hstop' : Z.of_nat k = num_iterations cfg \/ amps k == 0).
  { destruct Hstop as [->|Hz]; [left; lia | now right]. }
  destruct (loop_numeric cfg world modes amps Hterm Hamp k k
              (Z.to_nat (num_iterations cfg + 10)) O (initial_state cfg)
              [header (calculate_rmsd_to_reference cfg)])
    as (st & rows & avg & Hloop & Hdt & _);
    try reflexivity; try assumption.
  - lia.
  - intros j Hj. apply Hmoves. lia.
  - intros j Hj. split; [lia | apply Hfirst; lia].
  - exists k, st. unfold run. rewrite Hloop.
    repeat split; try assumption. lia.
Qed.

(** A range of one mode yields a fit table of one row. *)
Lemma process_data_tsv_one_mode df_pcc m df_slopes df_sorted :
  process_data_tsv df_pcc m m = Ok (df_slopes, df_sorted) ->
  exists slope intercept, df_slopes = [mk_fit m slope intercept].
Proof.
  unfold process_data_tsv, py_range.
  replace (Z.to_nat (m + 1 - m)) with 1%nat by lia.
  simpl seq. simpl map. rewrite Z.add_0_r. cbn [mapM].
  destruct (slope_calculation _) as [[slope intercept]|e];
    simpl; [|discriminate].
  destruct (write_to_xlsx df_pcc); simpl; [|discriminate].
  intros H. inversion H. eauto.
Qed.

Lemma select_move_single strategy A r df_pcc :
  select_move strategy A [r] df_pcc = Raise IndexError.
Proof. reflexivity. Qed.

(** C10.  When the mode range holds exactly one mode, the fit table
    has one row, [find_largest_slopes] raises [IndexError] on reading
    the second-largest slope, and so does the selection under every
    strategy; the run aborts in its first pass, with no move applied
    and no record logged. *)
Theorem C10_single_mode_aborts cfg world :
  first_mode cfg = last_mode cfg ->
  (0 <= num_iterations cfg)%Z ->
  (forall df_slopes df_sorted,
      process_data_tsv (o_pcc (world O)) (first_mode cfg) (last_mode cfg)
      = Ok (df_slopes, df_sorted) ->
      List.length df_slopes = 1%nat
      /\ find_largest_slopes df_slopes = Raise IndexError
      /\ (forall strategy A,
             select_move strategy A df_slopes df_sorted = Raise IndexError)
      /\ (0 < combined_amplitude cfg -> run cfg world = Raise IndexError))
  /\ (exists e, run cfg world = Raise e).
Proof.
  intros Hone Hbudget.
  assert (Hfuel : exists n, Z.to_nat (num_iterations cfg + 10) = S n).
  { exists (Z.to_nat (num_iterations cfg + 9)). lia. }
  destruct Hfuel as (n & Hn).
  split.
  - intros df_slopes df_sorted Hproc.
    pose proof Hproc as Hproc'. rewrite <- Hone in Hproc'.
    apply process_data_tsv_one_mode in Hproc' as (sl & ic & ->).
    repeat split.
    intros HA. unfold run. rewrite Hn. cbn [loop]. unfold iteration.
    unfold generate_deformed_conformation.
    apply SlopeFacts.Qltb_lt in HA. rewrite HA. cbn [negb bind].
    unfold move_at. rewrite Hproc. reflexivity.
  - unfold run. rewrite Hn. cbn [loop]. unfold iteration.
    unfold generate_deformed_conformation.
    destruct (Qltb 0 (combined_amplitude cfg)); cbn [negb bind];
      [|eexists; reflexivity].
    unfold move_at.
    destruct (process_data_tsv _ _ _) as [[df_slopes df_sorted]|e] eqn:Hproc;
      [|eexists; reflexivity].
    rewrite <- Hone in Hproc.
    apply process_data_tsv_one_mode in Hproc as (sl & ic & ->).
    eexists; reflexivity.
Qed.

Lemma C10_single_mode_aborts_witness :
  (forall df_slopes df_sorted,
      process_data_tsv (o_pcc (Samples.world_moving O))
                       (first_mode Samples.cfg_one_mode)
                       (last_mode Samples.cfg_one_mode)
      = Ok (df_slopes, df_sorted) ->
      List.length df_slopes = 1%nat
      /\ find_largest_slopes df_slopes = Raise IndexError
      /\ (forall strategy A,
             select_move strategy A df_slopes df_sorted = Raise IndexError)
      /\ (0 < combined_amplitude Samples.cfg_one_mode ->
          run Samples.cfg_one_mode Samples.world_moving = Raise IndexError))
  /\ (exists e, run Samples.cfg_one_mode Samples.world_moving = Raise e).
Proof.
  apply (C10_single_mode_aborts Samples.cfg_one_mode Samples.world_moving).
  - reflexivity.
  - simpl. lia.
Defined.

Example one_mode_run :
  run Samples.cfg_one_mode Samples.world_moving = Raise IndexError.
Proof. reflexivity. Qed.

End DriverFacts.

(* ===================================================================== *)
(** ** Facts about the image similarity *)
(* ===================================================================== *)

Module SimilarityFacts.

Import Similarity.
Local Open Scope R_scope.

(** *** Sums, means and norms under scaling *)

Lemma Rsum_scale c l : Rsum (map (fun t => c * t) l) = c * Rsum l.
Proof.
  induction l as [|x l IH]; unfold Rsum in *; simpl; [ring|].
  rewrite IH. ring.
Qed.

Lemma mean_scale c l : mean (map (fun t => c * t) l) = c * mean l.
Proof.
  unfold mean. rewrite Rsum_scale, length_map.
  unfold Rdiv. ring.
Qed.

Lemma centered_scale c l :
  centered (map (fun t => c * t) l) = map (fun t => c * t) (centered l).
Proof.
  unfold centered. rewrite mean_scale, !map_map.
  apply map_ext. intros a. ring.
Qed.

Lemma sumsq_nonneg l : 0 <= sumsq l.
Proof.
  induction l as [|x l IH]; unfold sumsq, Rsum in *; simpl; [lra|].
  pose proof (Rle_0_sqr x) as Hx. unfold Rsqr in Hx. lra.
Qed.

Lemma sumsq_zero l : sumsq l = 0 -> forall x, In x l -> x = 0.
Proof.
  induction l as [|a l IH]; intros Hz x Hin; [destruct Hin|].
  unfold sumsq, Rsum in Hz; simpl in Hz.
  pose proof (sumsq_nonneg l) as Hl. unfold sumsq, Rsum in Hl.
  pose proof (Rle_0_sqr a) as Ha. unfold Rsqr in Ha.
  destruct Hin as [<-|Hin].
  - assert (Hsq : a * a = 0) by lra.
    apply Rmult_integral in Hsq. tauto.
  - apply IH; [|assumption]. unfold sumsq, Rsum. lra.
Qed.

Lemma sumsq_scale c l : sumsq (map (fun t => c * t) l) = c * c * sumsq l.
Proof.
  unfold sumsq. rewrite map_map.
  rewrite <- Rsum_scale, map_map.
  f_equal. apply map_ext. intros a. ring.
Qed.

Lemma norm_scale c l : norm (map (fun t => c * t) l) = Rabs c * norm l.
Proof.
  unfold norm. rewrite sumsq_scale.
  rewrite sqrt_mult_alt by (pose proof (Rle_0_sqr c) as H;
                            unfold Rsqr in H; exact H).
  f_equal. change (c * c) with (Rsqr c). apply sqrt_Rsqr_abs.
Qed.

Lemma norm_sqr l : norm l * norm l = sumsq l.
Proof. unfold norm. apply sqrt_sqrt. apply sumsq_nonneg. Qed.

(** A list whose centred norm vanishes is constant. *)
Lemma norm_centered_zero l : norm (centered l) = 0 -> constant l.
Proof.
  intros Hn.
  assert (Hz : sumsq (centered l) = 0).
  { rewrite <- norm_sqr, Hn. ring. }
  assert (Hm : forall x, In x l -> x = mean l).
  { intros x Hin.
    assert (Hc : x - mean l = 0).
    { apply (sumsq_zero _ Hz). unfold centered.
      apply in_map_iff. exists x. split; [reflexivity | assumption]. }
    lra. }
  intros x y Hx Hy. rewrite (Hm x Hx), (Hm y Hy). reflexivity.
Qed.

Lemma dot_scaled (a b : R) l :
  dot (map (fun t => t * a) l) (map (fun t => t * b) l)
  = a * b * sumsq l.
Proof.
  unfold dot, sumsq.
  induction l as [|x l IH]; unfold Rsum in *; simpl; [ring|].
  rewrite IH. ring.
Qed.

(** The coefficient of a non-constant list against a multiple of
    itself is the sign of the factor. *)
Lemma pearson_value_scaled c l :
  c <> 0 -> ~ constant l ->
  pearson_value l (map (fun t => c * t) l) = Fin (c / Rabs c).
Proof.
  intros Hc Hnc. unfold pearson_value.
  rewrite centered_scale, norm_scale.
  set (xm := centered l). set (n := norm xm).
  assert (Hn : n <> 0).
  { intros Hz. apply Hnc. now apply norm_centered_zero. }
  assert (Habs : Rabs c <> 0) by now apply Rabs_no_R0.
  destruct (Req_dec_T n 0) as [Hz|_]; [contradiction|].
  destruct (Req_dec_T (Rabs c * n) 0) as [Hz|_].
  { apply Rmult_integral in Hz. tauto. }
  f_equal.
  assert (Hr : dot (map (fun a => a / n) xm)
                   (map (fun b => b / (Rabs c * n))
                        (map (fun t => c * t) xm))
               = c / Rabs c).
  { rewrite map_map.
    rewrite (map_ext (fun a => a / n) (fun t => t * / n))
      by (intros; reflexivity).
    rewrite (map_ext (fun x => c * x / (Rabs c * n))
                     (fun t => t * (c / (Rabs c * n))))
      by (intros; field; tauto).
    rewrite dot_scaled. rewrite <- norm_sqr. fold n. field. tauto. }
  rewrite Hr.
  destruct (Rcase_abs c) as [Hneg|Hpos].
  - rewrite (Rabs_left c Hneg).
    replace (c / - c) with (-1) by (field; lra).
    rewrite Rmin_left by lra. rewrite Rmax_left by lra. reflexivity.
  - rewrite (Rabs_right c Hpos).
    replace (c / c) with 1 by (field; lra).
    rewrite Rmin_left by lra. rewrite Rmax_left by lra. reflexivity.
Qed.

(** *** Extremes under an increasing affine map *)

Lemma fold_left_Rmin_affine alpha beta l a :
  0 < alpha ->
  fold_left Rmin (map (fun v => alpha * v + beta) l) (alpha * a + beta)
  = alpha * fold_left Rmin l a + beta.
Proof.
  intros Ha. revert a. induction l as [|x l IH]; intros a; simpl;
    [reflexivity|].
  rewrite <- IH. f_equal.
  unfold Rmin. destruct (Rle_dec a x), (Rle_dec (alpha * a + beta)
                                                (alpha * x + beta));
    try reflexivity; nra.
Qed.

Lemma fold_left_Rmax_affine alpha beta l a :
  0 < alpha ->
  fold_left Rmax (map (fun v => alpha * v + beta) l) (alpha * a + beta)
  = alpha * fold_left Rmax l a + beta.
Proof.
  intros Ha. revert a. induction l as [|x l IH]; intros a; simpl;
    [reflexivity|].
  rewrite <- IH. f_equal.
  unfold Rmax. destruct (Rle_dec a x), (Rle_dec (alpha * a + beta)
                                                (alpha * x + beta));
    try reflexivity; nra.
Qed.

Lemma array_min_affine alpha beta l m :
  0 < alpha -> array_min l = Ok m ->
  array_min (map (fun v => alpha * v + beta) l) = Ok (alpha * m + beta).
Proof.
  intros Ha. destruct l as [|x l]; simpl; [discriminate|].
  intros H. inversion H. now rewrite fold_left_Rmin_affine.
Qed.

Lemma array_max_affine alpha beta l m :
  0 < alpha -> array_max l = Ok m ->
  array_max (map (fun v => alpha * v + beta) l) = Ok (alpha * m + beta).
Proof.
  intros Ha. destruct l as [|x l]; simpl; [discriminate|].
  intros H. inversion H. now rewrite fold_left_Rmax_affine.
Qed.

Lemma all_finite_Fin (g : R -> R) l :
  all_finite (map (fun v => Fin (g v)) l) = Some (map g l).
Proof.
  induction l as [|x l IH]; simpl; [reflexivity|]. now rewrite IH.
Qed.

Lemma constant_map_inj (g : R -> R) l :
  (forall a b, g a = g b -> a = b) -> constant (map g l) -> constant l.
Proof.
  intros Hinj Hc x y Hx Hy. apply Hinj, Hc; now apply in_map.
Qed.

Lemma nonconstant_length l : ~ constant l -> (2 <= List.length l)%nat.
Proof.
  intros Hnc. destruct l as [|a [|b l]]; simpl; try lia; exfalso; apply Hnc.
  - intros x y [].
  - intros x y [<-|[]] [<-|[]]. reflexivity.
Qed.

(** Dividing by a non-zero maximum gives finite data. *)
Lemma normalized_finite (mn mx : R) l :
  mx <> 0 ->
  map (fun v => fdiv v mx) (map (fun v => v - mn) l)
  = map (fun v => Fin ((v - mn) / mx)) l.
Proof.
  intros Hmx. rewrite map_map. apply map_ext. intros a.
  unfold fdiv. destruct (Req_dec_T mx 0); [contradiction | reflexivity].
Qed.

(** The similarity of an image to an increasing affine copy of its
    samples, whatever the two layouts: the sign of the quotient of the
    two maxima. *)
Lemma similarity_affine (p q : image) alpha beta mx :
  flatten q = map (fun v => alpha * v + beta) (flatten p) ->
  array_max (flatten p) = Ok mx ->
  ~ constant (flatten p) ->
  0 < alpha ->
  mx <> 0 -> alpha * mx + beta <> 0 ->
  calculation_correlation_pearson_tsv_normalized p q
  = Ok (Fin ((mx / (alpha * mx + beta))
             / Rabs (mx / (alpha * mx + beta)))).
Proof.
  intros Hq Hmax Hnc Ha Hmx Hmx'.
  unfold calculation_correlation_pearson_tsv_normalized.
  rewrite Hq. set (x := flatten p) in *.
  assert (Hmin : exists mn, array_min x = Ok mn).
  { destruct x; [discriminate Hmax | eexists; reflexivity]. }
  destruct Hmin as (mn & Hmin).
  rewrite Hmin, (array_min_affine alpha beta x mn Ha Hmin).
  rewrite Hmax, (array_max_affine alpha beta x mx Ha Hmax).
  cbn [bind].
  rewrite (normalized_finite mn mx x Hmx).
  rewrite (normalized_finite (alpha * mn + beta) (alpha * mx + beta)
             (map (fun v => alpha * v + beta) x) Hmx').
  rewrite (map_map (fun v => alpha * v + beta)).
  unfold pearsonr. rewrite !length_map, Nat.eqb_refl. cbn [negb].
  pose proof (nonconstant_length x Hnc) as Hlen.
  destruct (Nat.ltb_spec (List.length x) 2) as [Hlt|_]; [lia|].
  rewrite (all_finite_Fin (fun v => (v - mn) / mx)).
  rewrite (all_finite_Fin (fun v => (alpha * v + beta
                                     - (alpha * mn + beta))
                                    / (alpha * mx + beta))).
  set (c := alpha * (mx / (alpha * mx + beta))).
  assert (Hc : c <> 0).
  { unfold c. apply Rmult_integral_contrapositive_currified; [lra|].
    unfold Rdiv. apply Rmult_integral_contrapositive_currified;
      [assumption | now apply Rinv_neq_0_compat]. }
  rewrite (map_ext (fun v => (alpha * v + beta - (alpha * mn + beta))
                             / (alpha * mx + beta))
                   (fun v => c * ((v - mn) / mx)))
    by (intros v; unfold c; field; tauto).
  rewrite <- (map_map (fun v => (v - mn) / mx) (fun t => c * t)).
  rewrite pearson_value_scaled.
  - do 2 f_equal. unfold c.
    rewrite Rabs_mult, (Rabs_right alpha) by lra.
    field. repeat split; try lra.
    apply Rabs_no_R0. unfold Rdiv.
    apply Rmult_integral_contrapositive_currified;
      [assumption | now apply Rinv_neq_0_compat].
  - exact Hc.
  - intros Hconst. apply Hnc.
    apply (constant_map_inj (fun v => (v - mn) / mx)); [|assumption].
    intros a b Hab.
    apply (Rmult_eq_compat_r mx) in Hab.
    unfold Rdiv in Hab. rewrite !Rmult_assoc, Rinv_l in Hab by assumption.
    lra.
Qed.

Lemma flatten_rescale alpha beta p :
  flatten (rescale alpha beta p)
  = map (fun v => alpha * v + beta) (flatten p).
Proof. unfold flatten, rescale. symmetry. apply concat_map. Qed.

Lemma sign_quotient_pos x : 0 < x -> x / Rabs x = 1.
Proof. intros Hx. rewrite Rabs_right by lra. field. lra. Qed.

Lemma sign_quotient_neg x : x < 0 -> x / Rabs x = -1.
Proof. intros Hx. rewrite Rabs_left by lra. field. lra. Qed.

Lemma quotient_pos a b : 0 < a * b -> 0 < a / b.
Proof.
  intros H. assert (Hb : b <> 0) by (intros ->; lra).
  replace (a / b) with (a * b * (/ b * / b)) by (field; assumption).
  apply Rmult_lt_0_compat; [assumption|].
  pose proof (Rinv_neq_0_compat b Hb) as Hi.
  pose proof (Rle_0_sqr (/ b)) as Hs. unfold Rsqr in Hs.
  destruct Hs as [Hs|Hs]; [assumption|].
  symmetry in Hs. apply Rmult_integral in Hs. tauto.
Qed.

(** The two length checks are the only guards of the computation. *)
Lemma similarity_returns p i :
  List.length (flatten p) = List.length (flatten i) ->
  (2 <= List.length (flatten p))%nat ->
  exists v, calculation_correlation_pearson_tsv_normalized p i = Ok v.
Proof.
  intros Hlen H2. unfold calculation_correlation_pearson_tsv_normalized.
  destruct (flatten p) as [|a x]; [simpl in H2; lia|].
  destruct (flatten i) as [|b y]; [simpl in Hlen; lia|].
  cbn [array_min array_max bind]. unfold pearsonr.
  rewrite !length_map, Hlen, Nat.eqb_refl. cbn [negb].
  rewrite <- Hlen.
  destruct (Nat.ltb_spec (List.length (a :: x)) 2) as [Hlt|_]; [lia|].
  repeat match goal with
         | |- context [all_finite ?l] => destruct (all_finite l)
         end; eexists; reflexivity.
Qed.

(** C5 (as amended).  Two images whose numbers of samples differ are
    refused with [ValueError].  (By [similarity_returns], two images
    with the same number of samples are scored whatever their shapes.) *)
Theorem C5_sample_count_mismatch p i :
  List.length (flatten p) <> List.length (flatten i) ->
  calculation_correlation_pearson_tsv_normalized p i = Raise ValueError.
Proof.
  intros Hlen. unfold calculation_correlation_pearson_tsv_normalized.
  destruct (flatten p) as [|a x]; [reflexivity|].
  destruct (flatten i) as [|b y]; [reflexivity|].
  cbn [array_min array_max bind]. unfold pearsonr.
  rewrite !length_map.
  destruct (Nat.eqb_spec (List.length (a :: x)) (List.length (b :: y)));
    [contradiction | reflexivity].
Qed.

Lemma C5_sample_count_mismatch_witness :
  calculation_correlation_pearson_tsv_normalized
    [[0; 1]; [2; 3]] [[0; 1; 2]; [3; 4; 5]]
  = Raise ValueError.
Proof.
  apply (C5_sample_count_mismatch [[0; 1]; [2; 3]] [[0; 1; 2]; [3; 4; 5]]).
  simpl. lia.
Defined.

(** C5 as stated fails: a 2 x 3 image and a 3 x 2 image differ in
    shape and are scored, here with the coefficient 1. *)
Lemma C5_counterexample :
  shape [[0; 1; 2]; [3; 4; 5]] = (2%nat, 3%nat)
  /\ shape [[0; 1]; [2; 3]; [4; 5]] = (3%nat, 2%nat)
  /\ calculation_correlation_pearson_tsv_normalized
       [[0; 1; 2]; [3; 4; 5]] [[0; 1]; [2; 3]; [4; 5]]
     = Ok (Fin 1).
Proof.
  split; [reflexivity|]. split; [reflexivity|].
  rewrite (similarity_affine [[0; 1; 2]; [3; 4; 5]]
                             [[0; 1]; [2; 3]; [4; 5]] 1 0 5).
  - do 2 f_equal. replace (5 / (1 * 5 + 0)) with 1 by field.
    apply sign_quotient_pos. lra.
  - simpl. repeat f_equal; ring.
  - simpl.
    rewrite (Rmax_right 0 1), (Rmax_right 1 2), (Rmax_right 2 3),
      (Rmax_right 3 4), (Rmax_right 4 5) by lra.
    reflexivity.
  - intros Hc. specialize (Hc 0 1). simpl in Hc.
    assert (H01 : 0 = 1) by (apply Hc; auto). lra.
  - lra.
  - lra.
  - lra.
Qed.

(** C9 (as amended).  For a non-constant image whose maximum [mx] is
    not zero, the similarity of the image to itself is 1, and so is
    its similarity to [alpha * I + beta] for [alpha > 0] whenever the
    rescaled maximum [alpha * mx + beta] has the sign of [mx]. *)
Theorem C9_positive_rescale p alpha beta mx :
  array_max (flatten p) = Ok mx ->
  ~ constant (flatten p) ->
  0 < alpha ->
  0 < mx * (alpha * mx + beta) ->
  calculation_correlation_pearson_tsv_normalized p (rescale alpha beta p)
  = Ok (Fin 1)
  /\ calculation_correlation_pearson_tsv_normalized p p = Ok (Fin 1).
Proof.
  intros Hmax Hnc Ha Hsign.
  assert (Hmx : mx <> 0) by (intros ->; lra).
  assert (Hmx' : alpha * mx + beta <> 0) by (intros Hz; rewrite Hz in Hsign; lra).
  split.
  - rewrite (similarity_affine p (rescale alpha beta p) alpha beta mx);
      try assumption; [|apply flatten_rescale].
    do 2 f_equal. apply sign_quotient_pos. now apply quotient_pos.
  - rewrite (similarity_affine p p 1 0 mx); try assumption; try lra.
    + do 2 f_equal. apply sign_quotient_pos. apply quotient_pos.
      replace (1 * mx + 0) with mx by ring.
      pose proof (Rle_0_sqr mx) as Hs. unfold Rsqr in Hs.
      destruct Hs as [Hs|Hs]; [assumption|].
      symmetry in Hs. apply Rmult_integral in Hs. tauto.
    + rewrite <- (map_id (flatten p)) at 1.
      apply map_ext. intros a. ring.
Qed.

Lemma C9_positive_rescale_witness :
  calculation_correlation_pearson_tsv_normalized
    [[1; 2]] (rescale 3 4 [[1; 2]]) = Ok (Fin 1)
  /\ calculation_correlation_pearson_tsv_normalized [[1; 2]] [[1; 2]]
     = Ok (Fin 1).
Proof.
  apply (C9_positive_rescale [[1; 2]] 3 4 2).
  - simpl. rewrite Rmax_right by lra. reflexivity.
  - intros Hc. specialize (Hc 1 2). simpl in Hc.
    assert (H12 : 1 = 2) by (apply Hc; auto). lra.
  - lra.
  - lra.
Defined.

(** C9 as stated fails twice: an image of constant height has no
    coefficient, not even against itself, and a shift that moves the
    maximum of [[1; 2]] below zero turns the score into -1. *)
Lemma C9_counterexample :
  calculation_correlation_pearson_tsv_normalized [[1; 1]] [[1; 1]]
  = Ok NonFinite
  /\ calculation_correlation_pearson_tsv_normalized
       [[1; 2]] (rescale 1 (-3) [[1; 2]])
     = Ok (Fin (-1))
  /\ Fin (-1) <> Fin 1.
Proof.
  split; [|split].
  - unfold calculation_correlation_pearson_tsv_normalized. simpl.
    unfold fdiv.
    destruct (Req_dec_T (Rmax 1 1) 0) as [H|_]; [reflexivity|].
    unfold pearsonr. simpl. unfold pearson_value.
    destruct (Req_dec_T _ 0) as [_|Hn]; [reflexivity|].
    exfalso. apply Hn. unfold norm, sumsq, centered, mean, Rsum. simpl.
    transitivity (sqrt 0); [|apply sqrt_0].
    f_equal. rewrite Rmin_left, Rmax_left by lra. field.
  - rewrite (similarity_affine [[1; 2]] (rescale 1 (-3) [[1; 2]]) 1 (-3) 2).
    + do 2 f_equal. apply sign_quotient_neg. lra.
    + apply flatten_rescale.
    + simpl. rewrite Rmax_right by lra. reflexivity.
    + intros Hc. specialize (Hc 1 2). simpl in Hc.
      assert (H12 : 1 = 2) by (apply Hc; auto). lra.
    + lra.
    + lra.
    + lra.
  - intros H. inversion H. lra.
Qed.

End SimilarityFacts.

(* ===================================================================== *)
(** ** Facts about the decay analysis *)
(* ===================================================================== *)

Module ScoringFacts.

Import Scoring.
Local Open Scope R_scope.

Lemma ceil_bounds x : IZR (ceil x) - 1 < x <= IZR (ceil x).
Proof.
  unfold ceil. destruct (archimed (- x)) as [Hgt Hle].
  rewrite minus_IZR. lra.
Qed.

Lemma ceil_unique x z : IZR z - 1 < x <= IZR z -> ceil x = z.
Proof.
  intros [Hlo Hhi]. unfold ceil.
  rewrite <- (tech_up (- x) (1 - z)).
  - lia.
  - rewrite minus_IZR. lra.
  - rewrite minus_IZR. lra.
Qed.

Lemma ceil_positive x : 0 < x -> (1 <= ceil x)%Z.
Proof.
  intros Hx. destruct (ceil_bounds x) as [_ Hhi].
  assert (H : 0 < IZR (ceil x)) by lra.
  apply lt_IZR in H. lia.
Qed.

(** A decaying fit puts every decay step at 1 or later. *)
Lemma decay_step_positive b p :
  b < 0 -> 0 < p < 1 -> (1 <= decay_step b p)%Z.
Proof.
  intros Hb [Hp0 Hp1]. unfold decay_step. apply ceil_positive.
  assert (Hln : ln p < 0).
  { rewrite <- ln_1. now apply ln_increasing. }
  assert (Hq : 0 < ln p / b).
  { unfold Rdiv. replace (ln p * / b) with ((- ln p) * (- / b)) by ring.
    apply Rmult_lt_0_compat; [lra|].
    pose proof (Rinv_lt_0_compat b Hb). lra. }
  lra.
Qed.

(** [exp 3 <= 27] and [35 < exp 4], enough to place [ln 0.03]. *)
Lemma exp_3_upper : exp 3 <= 27.
Proof.
  replace 3 with (1 + (1 + 1)) by ring. rewrite !exp_plus.
  pose proof exp_le_3 as H. pose proof (exp_pos 1) as Hp.
  assert (H2 : exp 1 * exp 1 <= 9) by nra. nra.
Qed.

Lemma exp_4_lower : 35 < exp 4.
Proof.
  assert (Hq : 5 / 4 < exp (1 / 4)).
  { pose proof (exp_ineq1 (1 / 4)) as H. lra. }
  assert (Hh : 25 / 16 < exp (1 / 2)).
  { replace (1 / 2) with (1 / 4 + 1 / 4) by field. rewrite exp_plus. nra. }
  assert (H1 : 625 / 256 < exp 1).
  { replace 1 with (1 / 2 + 1 / 2) at 1 by field. rewrite exp_plus. nra. }
  assert (H2 : 390625 / 65536 < exp 2).
  { replace 2 with (1 + 1) by ring. rewrite exp_plus. nra. }
  replace 4 with (2 + 2) by ring. rewrite exp_plus. nra.
Qed.

Lemma ln_3_100_bounds : -4 < ln (3 / 100) < -3.
Proof.
  split.
  - replace (-4) with (Ropp 4) by lra.
    rewrite <- (ln_exp (Ropp 4)). apply ln_increasing; [apply exp_pos|].
    rewrite exp_Ropp. pose proof exp_4_lower as H.
    apply (Rmult_lt_reg_r (exp 4)); [lra|].
    rewrite Rinv_l by lra. lra.
  - replace (-3) with (Ropp 3) by lra.
    rewrite <- (ln_exp (Ropp 3)). apply ln_increasing; [lra|].
    rewrite exp_Ropp. pose proof exp_3_upper as H.
    pose proof (exp_pos 3) as Hp.
    apply (Rmult_lt_reg_r (exp 3)); [lra|].
    rewrite Rinv_l by lra. lra.
Qed.

Lemma decay_step_example : decay_step (-1) (3 / 100) = 5%Z.
Proof.
  unfold decay_step. apply ceil_unique.
  pose proof ln_3_100_bounds as [Hlo Hhi].
  replace (ln (3 / 100) / -1 + 1) with (1 - ln (3 / 100)) by field.
  simpl IZR. lra.
Qed.

Lemma decay_step_is_ceil b p : is_ceil (ln p / b + 1) (decay_step b p).
Proof. unfold is_ceil, decay_step. apply ceil_bounds. Qed.

Lemma is_ceil_unique x u : is_ceil x u -> u = ceil x.
Proof. intros H. symmetry. now apply ceil_unique. Qed.

Lemma ln_5_100_upper : ln (5 / 100) < -2.
Proof.
  replace (-2) with (Ropp 2) by lra.
  rewrite <- (ln_exp (Ropp 2)). apply ln_increasing; [lra|].
  rewrite exp_Ropp.
  assert (H2 : exp 2 <= 9).
  { replace 2 with (1 + 1) by ring. rewrite exp_plus.
    pose proof exp_le_3 as H. pose proof (exp_pos 1) as Hp. nra. }
  pose proof (exp_pos 2) as Hp.
  apply (Rmult_lt_reg_r (exp 2)); [lra|].
  rewrite Rinv_l by lra. lra.
Qed.

(** One round of the loop under a decaying fit. *)
Lemma decay_loop_step a b m p ps num out :
  b < 0 -> 0 < p < 1 -> (0 <= m)%Z ->
  decay_loop a b m (p :: ps) num out
  = decay_loop a b m ps
      (if Req_dec_T p (3 / 100) then Some (Z.min (decay_step b p) m)
       else num)
      (out ++ decay_report a b m p (decay_step b p)).
Proof.
  intros Hb Hp Hm. cbn [decay_loop].
  destruct (Req_dec_T b 0) as [Hz|_]; [lra|].
  pose proof (decay_step_positive b p Hb Hp) as Hpos.
  unfold decay_report, exponential_func.
  destruct (Z.ltb_spec m (decay_step b p)) as [Hlt|Hge].
  - unfold loc. rewrite Z.min_r by lia.
    destruct (Z.leb_spec 0 m); [|lia].
    destruct (Z.leb_spec m m); [|lia].
    cbn [andb bind]. now rewrite <- app_assoc.
  - unfold loc. rewrite Z.min_l by lia.
    destruct (Z.leb_spec 0 (decay_step b p)); [|lia].
    destruct (Z.leb_spec (decay_step b p) m); [|lia]. reflexivity.
Qed.

(** The analysis of a decaying fit, with the steps the loop computed. *)
Lemma decaying_fit_report a b m :
  b < 0 -> (0 <= m)%Z ->
  save_time_series_plot (Ok (a, b)) m
  = Ok (Z.min (decay_step b (3 / 100)) m,
        [Exp_fit a b]
          ++ decay_report a b m (5 / 100) (decay_step b (5 / 100))
          ++ decay_report a b m (3 / 100) (decay_step b (3 / 100))
          ++ decay_report a b m (1 / 100) (decay_step b (1 / 100))).
Proof.
  intros Hb Hm.
  unfold save_time_series_plot, p_list. cbn [bind fst snd].
  rewrite !decay_loop_step by (assumption || lra).
  cbn [decay_loop].
  destruct (Req_dec_T (5 / 100) (3 / 100)) as [H|_]; [lra|].
  destruct (Req_dec_T (3 / 100) (3 / 100)) as [_|H]; [|lra].
  destruct (Req_dec_T (1 / 100) (3 / 100)) as [H|_]; [lra|].
  rewrite <- !app_assoc. reflexivity.
Qed.

(** C7 (as amended).  For a decaying fit ([b < 0]) and a log whose last
    step is [m >= 0], the analyzer takes for each fraction [p] of 0.05,
    0.03 and 0.01 the step [ceil(ln(p) / b + 1)], that is the integer
    [u] with [u - 1 < ln(p) / b + 1 <= u]; it replaces the step by [m],
    with a warning, when it exceeds [m], marks the step it keeps, and
    returns the step kept for the fraction 0.03.  For [b = -1] the step
    of the fraction 0.03 is 5. *)
Theorem C7_decay_best_step a b m :
  b < 0 -> (0 <= m)%Z ->
  exists u5 u3 u1 : Z,
    is_ceil (ln (5 / 100) / b + 1) u5
    /\ is_ceil (ln (3 / 100) / b + 1) u3
    /\ is_ceil (ln (1 / 100) / b + 1) u1
    /\ save_time_series_plot (Ok (a, b)) m
       = Ok (Z.min u3 m,
             [Exp_fit a b] ++ decay_report a b m (5 / 100) u5
                           ++ decay_report a b m (3 / 100) u3
                           ++ decay_report a b m (1 / 100) u1)
    /\ (b = -1 -> u3 = 5%Z).
Proof.
  intros Hb Hm.
  exists (decay_step b (5 / 100)), (decay_step b (3 / 100)),
    (decay_step b (1 / 100)).
  split; [apply decay_step_is_ceil|].
  split; [apply decay_step_is_ceil|].
  split; [apply decay_step_is_ceil|].
  split; [now apply decaying_fit_report|].
  intros ->. exact decay_step_example.
Qed.

Lemma C7_decay_best_step_witness :
  exists u5 u3 u1 : Z,
    is_ceil (ln (5 / 100) / (-1) + 1) u5
    /\ is_ceil (ln (3 / 100) / (-1) + 1) u3
    /\ is_ceil (ln (1 / 100) / (-1) + 1) u1
    /\ save_time_series_plot (Ok (1, -1)) 7
       = Ok (Z.min u3 7,
             [Exp_fit 1 (-1)] ++ decay_report 1 (-1) 7 (5 / 100) u5
                              ++ decay_report 1 (-1) 7 (3 / 100) u3
                              ++ decay_report 1 (-1) 7 (1 / 100) u1)
    /\ (-1 = -1 -> u3 = 5%Z).
Proof.
  apply (C7_decay_best_step 1 (-1) 7).
  - lra.
  - lia.
Defined.

(** C7 as stated fails for a fit that does not decay: with [b = 1] the
    step of the fraction 0.05 is negative, is not clamped, and its
    lookup as a row raises [KeyError]; with [b = 0] the quotient is
    infinite and its conversion raises [OverflowError].  No step is
    reported in either case. *)
Lemma C7_counterexample :
  save_time_series_plot (Ok (1, 1)) 7 = Raise KeyError
  /\ save_time_series_plot (Ok (1, 0)) 7 = Raise OverflowError.
Proof.
  split.
  - assert (Hu : (decay_step 1 (5 / 100) <= -1)%Z).
    { unfold decay_step.
      destruct (ceil_bounds (ln (5 / 100) / 1 + 1)) as [Hlo _].
      pose proof ln_5_100_upper as Hln.
      assert (H : IZR (ceil (ln (5 / 100) / 1 + 1)) < 0) by lra.
      apply lt_IZR in H. lia. }
    unfold save_time_series_plot, p_list. cbn [bind fst snd decay_loop].
    destruct (Req_dec_T 1 0) as [Hz|_]; [lra|].
    unfold loc.
    destruct (Z.ltb_spec 7 (decay_step 1 (5 / 100))) as [Hlt|Hge]; [lia|].
    destruct (Z.leb_spec 0 (decay_step 1 (5 / 100))); [lia|]. reflexivity.
  - unfold save_time_series_plot, p_list. cbn [bind fst snd decay_loop].
    destruct (Req_dec_T 0 0) as [_|Hz]; [reflexivity | lra].
Qed.

(** With the fit [a = 1], [b = -1] and at least six logged steps the
    reported best step is 5. *)
Corollary best_step_unit_decay m :
  (5 <= m)%Z ->
  exists out, save_time_series_plot (Ok (1, -1)) m = Ok (5%Z, out).
Proof.
  intros Hm.
  assert (Hb : -1 < 0) by lra. assert (H0 : (0 <= m)%Z) by lia.
  eexists. rewrite (decaying_fit_report 1 (-1) m Hb H0).
  rewrite decay_step_example, Z.min_l by lia. reflexivity.
Qed.

(** *** A failing fit *)

Lemma cc_judgement_avrg_log name mode amp log cc log' b :
  cc_judgement_avrg name mode amp log cc = Ok (log', b) ->
  exists ws, log' = Some ws.
Proof.
  unfold cc_judgement_avrg, write_log.
  destruct (try_except _ _) as [x|e]; cbn [bind]; [|discriminate].
  destruct (try_except _ _) as [y|e]; cbn [bind]; [|discriminate].
  destruct (load_workbook log) as [ws|e]; cbn [bind]; [|discriminate].
  intros H. inversion H. eauto.
Qed.

Lemma cc_judgement_single_log name mode amp log cc log' b :
  cc_judgement_single name mode amp log cc = Ok (log', b) ->
  exists ws, log' = Some ws.
Proof.
  unfold cc_judgement_single, cc_judgement_single_read, write_log.
  destruct (try_except_only _ _ _) as [x|e]; cbn [bind]; [|discriminate].
  destruct (load_workbook log) as [ws|e]; cbn [bind]; [|discriminate].
  destruct (py_gt cc x) as [c|e]; cbn [bind]; [|discriminate].
  intros H. inversion H. eauto.
Qed.

Lemma judge_log cfg st o m a log' b :
  judge cfg st o m a = Ok (log', b) -> exists ws, log' = Some ws.
Proof.
  unfold judge.
  destruct (String.eqb (termination_criterion cfg) "average");
    [apply cc_judgement_avrg_log|].
  destruct (String.eqb (termination_criterion cfg) "numeric").
  2:{ destruct (StopIterFacts.cc_judgement_single_read_raises
                  (render (initial_conformation_iter st)) (inject_Z m) a
                  (overall_log st) FileNotFoundError) as (e' & He').
      rewrite He'. discriminate. }
  destruct (_ || _);
    destruct (cc_judgement_avrg _ _ _ _ _) as [[l c]|e] eqn:Hj;
    cbn [bind]; try discriminate;
    intros H; inversion H; subst;
    eapply cc_judgement_avrg_log; eassumption.
Qed.

(** The loop never loses the log file. *)
Lemma loop_log cfg world n :
  forall i st st' ex,
    (exists ws, overall_log st = Some ws) ->
    loop cfg world n i st = Ok (st', ex) ->
    exists ws, overall_log st' = Some ws.
Proof.
  induction n as [|n IH]; intros i st st' ex Hlog; cbn [loop].
  - intros H. inversion H. subst. exact Hlog.
  - unfold iteration.
    destruct (generate_deformed_conformation _ _ _) as [d|e];
      cbn [bind]; [|discriminate].
    destruct (move_at cfg (world i)) as [[m a]|e];
      cbn [bind]; [|discriminate].
    destruct (judge cfg st (world i) m a) as [[log' b]|e] eqn:Hj;
      cbn [bind]; [|discriminate].
    apply judge_log in Hj.
    destruct b; cbn [negb].
    + apply IH. exact Hj.
    + intros H. inversion H. subst. exact Hj.
Qed.

(** C8 (as amended).  When the iteration loop has completed and
    [curve_fit] raises (as it does when the fit does not converge), the
    error leaves [scoring_conformations] and the driver unhandled: the
    run ends with that error, no warning is printed and no best step is
    produced. *)
Theorem C8_fit_error_propagates cfg world st ex e :
  run cfg world = Ok (st, ex) ->
  main cfg world (Raise e) = Raise e.
Proof.
  intros Hrun. unfold main. rewrite Hrun. cbn [bind].
  assert (Hlog : exists ws, overall_log st = Some ws).
  { unfold run in Hrun. eapply loop_log; [|exact Hrun].
    unfold initial_state, create_log. simpl. eauto. }
  destruct Hlog as (ws & Hws). unfold scoring_conformations.
  rewrite Hws. reflexivity.
Qed.

Lemma C8_fit_error_propagates_witness :
  main Samples.cfg_maxcc Samples.world_rests_at_1 (Raise RuntimeError)
  = Raise RuntimeError.
Proof.
  eapply (C8_fit_error_propagates Samples.cfg_maxcc
            Samples.world_rests_at_1 _ _ RuntimeError).
  reflexivity.
Defined.

(** C8 as stated fails: on a run whose loop completes, a fit that does
    not converge ends the run with [RuntimeError] instead of a result
    with a warning. *)
Lemma C8_counterexample :
  is_ok (run Samples.cfg_maxcc Samples.world_rests_at_1) = true
  /\ is_ok (main Samples.cfg_maxcc Samples.world_rests_at_1
                  (Raise RuntimeError)) = false.
Proof. split; reflexivity. Qed.

End ScoringFacts.

(* ===================================================================== *)
(** ** Facts about the sorted tables *)
(* ===================================================================== *)

(** Membership in an explicit list. *)
Ltac in_list := repeat (first [left; reflexivity | right]).

Module SortFacts.

Import SlopeFacts.

Section Sorting.
Context {A : Type} (key : A -> Q) (asc : bool).

Lemma goes_first_in_order y x :
  goes_first key asc y x = true -> in_order key asc y x.
Proof.
  unfold goes_first, in_order. destruct asc; intros H;
    apply Qltb_lt in H; now apply Qlt_le_weak.
Qed.

Lemma not_goes_first_in_order y x :
  goes_first key asc y x = false -> in_order key asc x y.
Proof.
  unfold goes_first, in_order. destruct asc; intros H;
    now apply Qltb_ge in H.
Qed.

Lemma in_order_trans x y z :
  in_order key asc x y -> in_order key asc y z -> in_order key asc x z.
Proof.
  unfold in_order. destruct asc; intros H1 H2;
    eapply Qle_trans; eassumption.
Qed.

Lemma insert_row_In x l z :
  In z (insert_row key asc x l) <-> z = x \/ In z l.
Proof.
  induction l as [|y ys IH]; simpl.
  - intuition.
  - destruct (goes_first key asc y x); simpl; [rewrite IH|]; intuition.
Qed.

Lemma insert_row_perm x l : Permutation (x :: l) (insert_row key asc x l).
Proof.
  induction l as [|y ys IH]; simpl; [reflexivity|].
  destruct (goes_first key asc y x); [|reflexivity].
  rewrite perm_swap. now apply perm_skip.
Qed.

Lemma insert_row_ordered x l :
  ordered key asc l -> ordered key asc (insert_row key asc x l).
Proof.
  induction l as [|y ys IH]; simpl; intros Hs.
  - split; [intros ? []|exact I].
  - destruct Hs as [Hy Hys].
    destruct (goes_first key asc y x) eqn:Hg; simpl.
    + split; [|now apply IH].
      intros z Hz. apply insert_row_In in Hz as [->|Hz].
      * now apply goes_first_in_order.
      * now apply Hy.
    + apply not_goes_first_in_order in Hg.
      split; [|split; assumption].
      intros z [<-|Hz]; [assumption|].
      eapply in_order_trans; [exact Hg | now apply Hy].
Qed.

Lemma sort_values_In l z : In z (sort_values key asc l) <-> In z l.
Proof.
  induction l as [|x xs IH]; simpl; [reflexivity|].
  rewrite insert_row_In, IH. intuition.
Qed.

Lemma sort_values_perm l : Permutation l (sort_values key asc l).
Proof.
  induction l as [|x xs IH]; simpl; [reflexivity|].
  rewrite <- insert_row_perm. now apply perm_skip.
Qed.

Lemma sort_values_ordered l : ordered key asc (sort_values key asc l).
Proof.
  induction l as [|x xs IH]; simpl; [exact I|].
  now apply insert_row_ordered.
Qed.

(** The order [sort_values] computes is one of those the call may
    return. *)
Lemma sort_values_sorted_by l : sorted_by key asc l (sort_values key asc l).
Proof. split; [apply sort_values_perm | apply sort_values_ordered]. Qed.

Lemma ordered_filter f l :
  ordered key asc l -> ordered key asc (filter f l).
Proof.
  induction l as [|x xs IH]; simpl; intros Hs; [exact I|].
  destruct Hs as [Hx Hxs]. destruct (f x); simpl; [|now apply IH].
  split; [|now apply IH].
  intros y Hy. apply filter_In in Hy as [Hy _]. now apply Hx.
Qed.

End Sorting.

(** [select_move] is [select_move_sorted] at the order [sort_values]
    computes. *)
Lemma select_move_as_sorted strategy A df_slopes df_pcc :
  select_move strategy A df_slopes df_pcc
  = select_move_sorted strategy A (sort_values abs_slope false df_slopes)
                       df_pcc.
Proof. reflexivity. Qed.

(** *** [process_data_tsv] *)

Lemma mapM_inv {A B} (f : A -> result B) l bs :
  mapM f l = Ok bs -> Forall2 (fun a b => f a = Ok b) l bs.
Proof.
  revert bs. induction l as [|a l IH]; simpl; intros bs H.
  - inversion H. constructor.
  - destruct (f a) as [b|e] eqn:Hf; simpl in H; [|discriminate].
    destruct (mapM f l) as [bs'|e]; simpl in H; [|discriminate].
    inversion H. constructor; [assumption | now apply IH].
Qed.

Lemma mapM_ok_in {A B} (f : A -> result B) l bs a :
  mapM f l = Ok bs -> In a l -> exists b, f a = Ok b.
Proof.
  intros H Hin. apply mapM_inv in H. revert Hin.
  induction H as [|x b l bs Hx _ IH]; intros Hin; [destruct Hin|].
  destruct Hin as [<-|Hin]; eauto.
Qed.

Lemma mapM_raise {A B} (f : A -> result B) l e :
  (forall a e', In a l -> f a = Raise e' -> e' = e) ->
  (exists a, In a l /\ f a = Raise e) ->
  mapM f l = Raise e.
Proof.
  induction l as [|a l IH]; intros Hall (x & Hin & Hx); [destruct Hin|].
  simpl. destruct (f a) as [b|e'] eqn:Hf; simpl.
  - destruct Hin as [->|Hin]; [congruence|].
    rewrite IH; [reflexivity | | eauto].
    intros a' e'' Ha'. apply Hall. now right.
  - f_equal. apply (Hall a); [now left | assumption].
Qed.

Lemma slope_calculation_raises df e :
  slope_calculation df = Raise e -> df = [] /\ e = ValueError.
Proof.
  destruct df; simpl; intros H; inversion H. split; reflexivity.
Qed.

Lemma slope_calculation_empty df :
  df = [] <-> slope_calculation df = Raise ValueError.
Proof.
  split; [intros ->; reflexivity|].
  intros H. now apply slope_calculation_raises in H.
Qed.

Lemma samples_of_mode_empty df i :
  samples_of_mode df i = [] <-> ~ has_mode df i.
Proof.
  unfold samples_of_mode, has_mode. split.
  - intros Hnil (r & Hin & Hm).
    assert (Hr : In r (sort_values (fun r => inject_Z (s_dq r)) true
                         (filter (fun r => (s_mode r =? i)%Z) df))).
    { apply sort_values_In. apply filter_In. split; [assumption|].
      now apply Z.eqb_eq. }
    rewrite Hnil in Hr. destruct Hr.
  - intros Hno.
    destruct (sort_values _ _ _) as [|r l] eqn:Hs; [reflexivity|].
    exfalso. apply Hno. exists r.
    assert (Hr : In r (r :: l)) by now left.
    rewrite <- Hs in Hr. apply sort_values_In in Hr.
    apply filter_In in Hr as [Hin Hm]. apply Z.eqb_eq in Hm. auto.
Qed.

Lemma mapM_total {A B} (f : A -> result B) l :
  (forall a, In a l -> exists b, f a = Ok b) ->
  exists bs, mapM f l = Ok bs.
Proof.
  induction l as [|a l IH]; intros H; simpl; [eauto|].
  destruct (H a (or_introl eq_refl)) as (b & ->).
  destruct IH as (bs & ->); [intros; apply H; now right|].
  simpl. eauto.
Qed.

Lemma mapM_first_raise {A B} (f : A -> result B) l e :
  mapM f l = Raise e -> exists a, In a l /\ f a = Raise e.
Proof.
  induction l as [|a l IH]; simpl; intros Hm; [discriminate|].
  destruct (f a) as [b|e'] eqn:Hfa; simpl in Hm.
  - destruct (mapM f l) as [bs|e']; simpl in Hm; [discriminate|].
    destruct (IH Hm) as (i & Hi & Hfi). exists i. split; [now right|auto].
  - exists a. split; [now left | congruence].
Qed.

(** The fit of one mode, as the loop of [process_data_tsv] builds it. *)
Lemma fit_of_mode df i b :
  (slope <- slope_calculation (samples_of_mode df i) ;;
   Ok (mk_fit i (fst slope) (snd slope))) = Ok b ->
  has_mode df i
  /\ f_mode b = i
  /\ slope_calculation (samples_of_mode df i) = Ok (f_slope b, f_intercept b).
Proof.
  destruct (slope_calculation (samples_of_mode df i)) as [[sl ic]|e] eqn:Hs;
    simpl; intros H; inversion H; subst; simpl.
  split; [|split; reflexivity].
  destruct (samples_of_mode df i) as [|r l] eqn:Hsm; [discriminate|].
  assert (Hr : In r (samples_of_mode df i)) by (rewrite Hsm; now left).
  apply sort_values_In, filter_In in Hr as [H1 H2].
  apply Z.eqb_eq in H2. exists r. auto.
Qed.

Lemma fit_of_mode_raises df i e :
  (slope <- slope_calculation (samples_of_mode df i) ;;
   Ok (mk_fit i (fst slope) (snd slope))) = Raise e ->
  ~ has_mode df i /\ e = ValueError.
Proof.
  destruct (slope_calculation (samples_of_mode df i)) as [[sl ic]|e'] eqn:Hs;
    simpl; intros H; inversion H; subst.
  apply slope_calculation_raises in Hs as [Hnil ->].
  split; [|reflexivity]. now apply samples_of_mode_empty.
Qed.

(** The shape of a successful [process_data_tsv]. *)
Lemma process_data_tsv_shape df start_mode end_mode :
  (forall i, (start_mode <= i <= end_mode)%Z -> has_mode df i) ->
  duplicate_entries df = false ->
  exists df_slopes,
    process_data_tsv df start_mode end_mode
    = Ok (df_slopes, sort_values s_cc false df)
    /\ Forall2 (fun i b =>
                  (slope <- slope_calculation (samples_of_mode df i) ;;
                   Ok (mk_fit i (fst slope) (snd slope))) = Ok b)
               (py_range start_mode (end_mode + 1)) df_slopes.
Proof.
  intros Hall Hdup. unfold process_data_tsv.
  change (fun i : Z =>
            slope <- slope_calculation
                       (sort_values (fun r => inject_Z (s_dq r)) true
                          (filter (fun r => (s_mode r =? i)%Z) df)) ;;
            Ok (mk_fit i (fst slope) (snd slope)))
    with (fun i : Z =>
            slope <- slope_calculation (samples_of_mode df i) ;;
            Ok (mk_fit i (fst slope) (snd slope))).
  set (f := fun i : Z =>
              slope <- slope_calculation (samples_of_mode df i) ;;
              Ok (mk_fit i (fst slope) (snd slope))).
  destruct (mapM_total f (py_range start_mode (end_mode + 1)))
    as (slopes & Hm).
  { intros i Hi. apply ModesGenFacts.in_py_range in Hi.
    destruct (f i) as [b|e] eqn:Hf; [eauto|].
    apply fit_of_mode_raises in Hf as [Hno _].
    exfalso. apply Hno, Hall. lia. }
  rewrite Hm. simpl. unfold write_to_xlsx. rewrite Hdup. simpl.
  exists slopes. split; [reflexivity|]. now apply mapM_inv in Hm.
Qed.

Lemma py_range_length a b : List.length (py_range a b) = Z.to_nat (b - a).
Proof. unfold py_range. now rewrite length_map, length_seq. Qed.

(** X1.  When every mode of the range has a sample and no [(mode, dq)]
    occurs twice, [process_data_tsv] returns one fit per mode of the
    range, in order, each the regression of that mode's samples, and the
    same samples rearranged by non-increasing [cc]. *)
Theorem process_data_tsv_tables df start_mode end_mode :
  (forall i, (start_mode <= i <= end_mode)%Z -> has_mode df i) ->
  duplicate_entries df = false ->
  exists df_slopes df_sorted,
    process_data_tsv df start_mode end_mode = Ok (df_slopes, df_sorted)
    /\ map f_mode df_slopes = py_range start_mode (end_mode + 1)
    /\ (forall b, In b df_slopes ->
          slope_calculation (samples_of_mode df (f_mode b))
          = Ok (f_slope b, f_intercept b))
    /\ Permutation df df_sorted
    /\ ordered s_cc false df_sorted.
Proof.
  intros Hall Hdup.
  destruct (process_data_tsv_shape df start_mode end_mode Hall Hdup)
    as (slopes & Hp & Hm).
  exists slopes, (sort_values s_cc false df).
  split; [assumption|].
  remember (py_range start_mode (end_mode + 1)) as modes eqn:Hmodes.
  clear Hmodes Hp.
  split; [|split; [|split]].
  - induction Hm as [|i b l bs Hb _ IH]; simpl; [reflexivity|].
    apply fit_of_mode in Hb as (_ & -> & _). now rewrite IH.
  - intros b Hb. induction Hm as [|i b' l bs Hb' _ IH]; [destruct Hb|].
    destruct Hb as [<-|Hb]; [|now apply IH].
    apply fit_of_mode in Hb' as (_ & Hmode & Hs). now rewrite Hmode.
  - apply sort_values_perm.
  - apply sort_values_ordered.
Qed.

Lemma process_data_tsv_tables_witness :
  exists df_slopes df_sorted,
    process_data_tsv Samples.sweep_moving 7 8 = Ok (df_slopes, df_sorted)
    /\ map f_mode df_slopes = py_range 7 (8 + 1)
    /\ (forall b, In b df_slopes ->
          slope_calculation (samples_of_mode Samples.sweep_moving (f_mode b))
          = Ok (f_slope b, f_intercept b))
    /\ Permutation Samples.sweep_moving df_sorted
    /\ ordered s_cc false df_sorted.
Proof.
  apply (process_data_tsv_tables Samples.sweep_moving 7 8).
  - intros i Hi. assert (Hc : i = 7%Z \/ i = 8%Z) by lia.
    destruct Hc as [->| ->].
    + exists (mk_sample 7 0 (1#5)). split; [in_list | reflexivity].
    + exists (mk_sample 8 0 (1#5)). split; [in_list | reflexivity].
  - reflexivity.
Defined.

(** X2.  [process_data_tsv] raises [ValueError] when some mode of the
    range has no sample, and when some [(mode, dq)] occurs twice. *)
Theorem process_data_tsv_refuses df start_mode end_mode :
  (exists i, (start_mode <= i <= end_mode)%Z /\ ~ has_mode df i)
  \/ duplicate_entries df = true ->
  process_data_tsv df start_mode end_mode = Raise ValueError.
Proof.
  intros Hbad. unfold process_data_tsv.
  change (fun i : Z =>
            slope <- slope_calculation
                       (sort_values (fun r => inject_Z (s_dq r)) true
                          (filter (fun r => (s_mode r =? i)%Z) df)) ;;
            Ok (mk_fit i (fst slope) (snd slope)))
    with (fun i : Z =>
            slope <- slope_calculation (samples_of_mode df i) ;;
            Ok (mk_fit i (fst slope) (snd slope))).
  set (f := fun i : Z =>
              slope <- slope_calculation (samples_of_mode df i) ;;
              Ok (mk_fit i (fst slope) (snd slope))).
  destruct (mapM f (py_range start_mode (end_mode + 1))) as [slopes|e] eqn:Hm.
  - simpl. destruct Hbad as [(i & Hi & Hno)|Hdup].
    + exfalso.
      destruct (mapM_ok_in f _ _ i Hm) as (b & Hb).
      { apply ModesGenFacts.in_py_range. lia. }
      apply fit_of_mode in Hb as (Hyes & _). contradiction.
    + unfold write_to_xlsx. rewrite Hdup. reflexivity.
  - simpl. apply mapM_first_raise in Hm as (i & _ & Hf).
    apply fit_of_mode_raises in Hf as [_ ->]. reflexivity.
Qed.

Lemma process_data_tsv_refuses_witness :
  process_data_tsv Samples.sweep_moving 7 9 = Raise ValueError.
Proof.
  apply (process_data_tsv_refuses Samples.sweep_moving 7 9).
  left. exists 9%Z. split; [lia|].
  intros (r & Hin & Hm). simpl in Hin.
  repeat (destruct Hin as [<-|Hin]; [discriminate Hm|]). destruct Hin.
Defined.

End SortFacts.

(* ===================================================================== *)
(** ** Facts about the selection strategies *)
(* ===================================================================== *)

Module SelectionFacts.

Import SlopeFacts SortFacts.

(** With two modes or more in the range and a well-formed sweep, the
    ranking that precedes every strategy returns. *)
Lemma ranking_returns cfg o :
  (first_mode cfg < last_mode cfg)%Z ->
  (forall i, (first_mode cfg <= i <= last_mode cfg)%Z ->
             has_mode (o_pcc o) i) ->
  duplicate_entries (o_pcc o) = false ->
  exists df_slopes ranking,
    process_data_tsv (o_pcc o) (first_mode cfg) (last_mode cfg)
    = Ok (df_slopes, sort_values s_cc false (o_pcc o))
    /\ find_largest_slopes df_slopes = Ok ranking.
Proof.
  intros Hmodes Hall Hdup.
  destruct (process_data_tsv_shape _ _ _ Hall Hdup) as (slopes & Hp & Hm).
  assert (Hlen : (2 <= List.length slopes)%nat).
  { apply Forall2_length in Hm. rewrite <- Hm, py_range_length. lia. }
  destruct (find_largest_slopes_ok slopes Hlen)
    as (b & r & a & m2 & s2 & _ & Hfind & _).
  eauto.
Qed.

(** X3.  Under the [maxcc] strategy the move is the mode and amplitude
    of a sample whose similarity no sample of the sweep exceeds. *)
Theorem maxcc_picks_best cfg o :
  mode_selection cfg = "maxcc"%string ->
  (first_mode cfg < last_mode cfg)%Z ->
  (forall i, (first_mode cfg <= i <= last_mode cfg)%Z ->
             has_mode (o_pcc o) i) ->
  duplicate_entries (o_pcc o) = false ->
  exists r,
    In r (o_pcc o)
    /\ (forall r', In r' (o_pcc o) -> s_cc r' <= s_cc r)
    /\ move_at cfg o = Ok (s_mode r, inject_Z (s_dq r)).
Proof.
  intros Hsel Hmodes Hall Hdup.
  destruct (ranking_returns cfg o Hmodes Hall Hdup)
    as (slopes & [[[m1 s1] m2] s2] & Hp & Hfind).
  destruct (o_pcc o) as [|x xs] eqn:Hdf.
  { destruct (Hall (first_mode cfg)) as (r & [] & _). lia. }
  destruct (sort_values_desc_head s_cc x xs)
    as (before & r & after & rest & Hsplit & Hsort & Hb & Ha).
  exists r. split; [|split].
  - rewrite Hsplit. apply in_or_app. right. now left.
  - intros r' Hin. rewrite Hsplit in Hin.
    apply in_app_or in Hin as [Hin|[<-|Hin]].
    + apply Qlt_le_weak. now apply Hb.
    + apply Qle_refl.
    + now apply Ha.
  - unfold move_at. rewrite Hdf, Hp. cbn [bind].
    unfold select_move, select_move_ranked. rewrite Hfind, Hsel, Hsort. reflexivity.
Qed.

Lemma maxcc_picks_best_witness :
  exists r,
    In r (o_pcc (Samples.world_rests_at_1 0))
    /\ (forall r', In r' (o_pcc (Samples.world_rests_at_1 0)) ->
                   s_cc r' <= s_cc r)
    /\ move_at Samples.cfg_maxcc (Samples.world_rests_at_1 0)
       = Ok (s_mode r, inject_Z (s_dq r)).
Proof.
  apply (maxcc_picks_best Samples.cfg_maxcc (Samples.world_rests_at_1 0)).
  - reflexivity.
  - reflexivity.
  - intros i Hi. simpl in Hi. assert (Hc : i = 7%Z \/ i = 8%Z) by lia.
    destruct Hc as [->| ->].
    + exists (mk_sample 7 0 (1#5)). split; [in_list | reflexivity].
    + exists (mk_sample 8 0 (1#5)). split; [in_list | reflexivity].
  - reflexivity.
Defined.

(** X4.  Under the [maxcc_force_move] strategy, when some sample has a
    non-zero amplitude, the move has a non-zero amplitude: it is the mode
    and amplitude of a sample that no other sample of non-zero amplitude
    exceeds in similarity. *)
Theorem force_move_is_a_move cfg o :
  mode_selection cfg = "maxcc_force_move"%string ->
  (first_mode cfg < last_mode cfg)%Z ->
  (forall i, (first_mode cfg <= i <= last_mode cfg)%Z ->
             has_mode (o_pcc o) i) ->
  duplicate_entries (o_pcc o) = false ->
  (exists r0, In r0 (o_pcc o) /\ s_dq r0 <> 0%Z) ->
  exists r,
    In r (o_pcc o)
    /\ s_dq r <> 0%Z
    /\ (forall r', In r' (o_pcc o) -> s_dq r' <> 0%Z -> s_cc r' <= s_cc r)
    /\ move_at cfg o = Ok (s_mode r, inject_Z (s_dq r)).
Proof.
  intros Hsel Hmodes Hall Hdup (r0 & Hin0 & Hnz0).
  destruct (ranking_returns cfg o Hmodes Hall Hdup)
    as (slopes & [[[m1 s1] m2] s2] & Hp & Hfind).
  set (nz := fun r => negb (s_dq r =? 0)%Z).
  set (sorted := sort_values s_cc false (o_pcc o)) in *.
  assert (Hnz : forall r, nz r = true <-> s_dq r <> 0%Z).
  { intros r. unfold nz. rewrite negb_true_iff. apply Z.eqb_neq. }
  assert (Hord : ordered s_cc false (filter nz sorted)).
  { apply ordered_filter. apply sort_values_ordered. }
  assert (Hmem : forall r, In r (filter nz sorted)
                           <-> In r (o_pcc o) /\ s_dq r <> 0%Z).
  { intros r. rewrite filter_In, Hnz. unfold sorted.
    now rewrite sort_values_In. }
  destruct (filter nz sorted) as [|r rest] eqn:Hf.
  { exfalso. apply (proj2 (Hmem r0)). auto. }
  destruct sorted as [|top srest] eqn:Hs.
  { discriminate Hf. }
  destruct (proj1 (Hmem r) (or_introl eq_refl)) as [Hin Hr].
  exists r. split; [assumption|]. split; [assumption|]. split.
  - intros r' Hin' Hnz'.
    destruct (proj2 (Hmem r') (conj Hin' Hnz')) as [<-|Hrest].
    + apply Qle_refl.
    + destruct Hord as [Hhead _]. now apply (Hhead r').
  - unfold move_at. rewrite Hp. cbn [bind].
    unfold select_move, select_move_ranked. rewrite Hfind, Hsel. cbn [bind String.eqb].
    fold nz. rewrite Hf. reflexivity.
Qed.

Lemma force_move_is_a_move_witness :
  exists r,
    In r Samples.sweep_resting
    /\ s_dq r <> 0%Z
    /\ (forall r', In r' Samples.sweep_resting -> s_dq r' <> 0%Z ->
                   s_cc r' <= s_cc r)
    /\ move_at (mk_config "p" 10 7 8 "maxcc_force_move" 5 "numeric" "no")
               (mk_obs Samples.sweep_resting (2#5))
       = Ok (s_mode r, inject_Z (s_dq r)).
Proof.
  apply (force_move_is_a_move
           (mk_config "p" 10 7 8 "maxcc_force_move" 5 "numeric" "no")
           (mk_obs Samples.sweep_resting (2#5))).
  - reflexivity.
  - reflexivity.
  - intros i Hi. simpl in Hi. assert (Hc : i = 7%Z \/ i = 8%Z) by lia.
    destruct Hc as [->| ->].
    + exists (mk_sample 7 0 (2#5)). split; [in_list | reflexivity].
    + exists (mk_sample 8 0 (2#5)). split; [in_list | reflexivity].
  - reflexivity.
  - exists (mk_sample 7 10 (3#10)). split; [in_list | discriminate].
Defined.

(** X5.  A strategy name other than [slope], [maxcc] and
    [maxcc_force_move] is refused with [ValueError], once the sweep of
    the first pass has been fitted and ranked. *)
Theorem unknown_strategy_refused cfg o :
  String.eqb (mode_selection cfg) "slope" = false ->
  String.eqb (mode_selection cfg) "maxcc" = false ->
  String.eqb (mode_selection cfg) "maxcc_force_move" = false ->
  (first_mode cfg < last_mode cfg)%Z ->
  (forall i, (first_mode cfg <= i <= last_mode cfg)%Z ->
             has_mode (o_pcc o) i) ->
  duplicate_entries (o_pcc o) = false ->
  move_at cfg o = Raise ValueError.
Proof.
  intros H1 H2 H3 Hmodes Hall Hdup.
  destruct (ranking_returns cfg o Hmodes Hall Hdup)
    as (slopes & [[[m1 s1] m2] s2] & Hp & Hfind).
  unfold move_at. rewrite Hp. cbn [bind].
  unfold select_move, select_move_ranked. rewrite Hfind. cbn [bind].
  now rewrite H1, H2, H3.
Qed.

Lemma unknown_strategy_refused_witness :
  move_at (mk_config "p" 10 7 8 "max_cc" 5 "numeric" "no")
          (mk_obs Samples.sweep_moving (1#5))
  = Raise ValueError.
Proof.
  apply (unknown_strategy_refused
           (mk_config "p" 10 7 8 "max_cc" 5 "numeric" "no")
           (mk_obs Samples.sweep_moving (1#5))).
  - reflexivity.
  - reflexivity.
  - reflexivity.
  - reflexivity.
  - intros i Hi. simpl in Hi. assert (Hc : i = 7%Z \/ i = 8%Z) by lia.
    destruct Hc as [->| ->].
    + exists (mk_sample 7 0 (1#5)). split; [in_list | reflexivity].
    + exists (mk_sample 8 0 (1#5)). split; [in_list | reflexivity].
  - reflexivity.
Defined.

End SelectionFacts.

(* ===================================================================== *)
(** ** Facts about the fits *)
(* ===================================================================== *)

Module FitFacts.

Import SlopeFacts SortFacts StopIterFacts.

(** X6.  With two fits or more, [find_largest_slopes] returns the two
    fits of largest absolute slope: the table is a rearrangement of the
    first, the second and a remainder, the first is at least the second
    and the second at least every fit of the remainder. *)
Theorem find_largest_slopes_top_two df :
  (2 <= List.length df)%nat ->
  exists r1 r2 rest,
    Permutation df (r1 :: r2 :: rest)
    /\ find_largest_slopes df
       = Ok (f_mode r1, f_slope r1, f_mode r2, f_slope r2)
    /\ Qabs (f_slope r2) <= Qabs (f_slope r1)
    /\ (forall r, In r rest -> Qabs (f_slope r) <= Qabs (f_slope r2)).
Proof.
  intros Hlen.
  pose proof (sort_values_perm abs_slope false df) as Hperm.
  pose proof (sort_values_ordered abs_slope false df) as Hord.
  pose proof (sort_values_length abs_slope false df) as Hl.
  unfold find_largest_slopes.
  destruct (sort_values abs_slope false df) as [|r1 [|r2 rest]];
    simpl in Hl; try lia.
  exists r1, r2, rest. split; [assumption|]. split; [reflexivity|].
  destruct Hord as [H1 [H2 _]]. split.
  - apply (H1 r2). now left.
  - intros r Hr. now apply (H2 r).
Qed.

Lemma find_largest_slopes_top_two_witness :
  exists r1 r2 rest,
    Permutation [mk_fit 7 (1#25) (1#2); mk_fit 8 (-(1#20)) (1#2);
                 mk_fit 9 (1#50) (1#2)] (r1 :: r2 :: rest)
    /\ find_largest_slopes [mk_fit 7 (1#25) (1#2); mk_fit 8 (-(1#20)) (1#2);
                            mk_fit 9 (1#50) (1#2)]
       = Ok (f_mode r1, f_slope r1, f_mode r2, f_slope r2)
    /\ Qabs (f_slope r2) <= Qabs (f_slope r1)
    /\ (forall r, In r rest -> Qabs (f_slope r) <= Qabs (f_slope r2)).
Proof.
  apply (find_largest_slopes_top_two
           [mk_fit 7 (1#25) (1#2); mk_fit 8 (-(1#20)) (1#2);
            mk_fit 9 (1#50) (1#2)]).
  simpl. lia.
Defined.

(** *** The regression line *)

Lemma Qsum_map_ext {A} (f g : A -> Q) l :
  (forall r, In r l -> f r == g r) -> Qsum (map f l) == Qsum (map g l).
Proof.
  induction l as [|x l IH]; intros H; [reflexivity|].
  unfold Qsum in *. simpl. rewrite (H x (or_introl eq_refl)).
  rewrite IH; [reflexivity|]. intros; apply H; now right.
Qed.

Lemma Qsum_map_affine {A} (f : A -> Q) (a b : Q) l :
  Qsum (map (fun r => a * f r + b) l)
  == a * Qsum (map f l) + inject_Z (Z.of_nat (List.length l)) * b.
Proof.
  induction l as [|x l IH].
  - unfold Qsum; simpl. ring.
  - unfold Qsum in *. cbn [map fold_right List.length]. rewrite IH.
    rewrite Nat2Z.inj_succ, <- Z.add_1_r, inject_Z_plus. ring.
Qed.

Lemma Qsum_map_scale {A} (f : A -> Q) (a : Q) l :
  Qsum (map (fun r => a * f r) l) == a * Qsum (map f l).
Proof.
  induction l as [|x l IH]; unfold Qsum in *; simpl; [ring|].
  rewrite IH. ring.
Qed.

Lemma Qsum_squares_nonneg {A} (f : A -> Q) l :
  0 <= Qsum (map (fun r => f r * f r) l).
Proof.
  induction l as [|x l IH]; unfold Qsum in *; simpl; [apply Qle_refl|].
  assert (Hsq : 0 <= f x * f x).
  { destruct (Qlt_le_dec (f x) 0) as [Hn|Hp].
    - setoid_replace (f x * f x) with ((- f x) * (- f x)) by ring.
      apply Qmult_le_0_compat; apply (Qopp_le_compat (f x) 0);
        now apply Qlt_le_weak.
    - now apply Qmult_le_0_compat. }
  pose proof (Qplus_le_compat _ _ _ _ Hsq IH) as H.
  rewrite Qplus_0_l in H. exact H.
Qed.

Lemma Qsum_squares_zero {A} (f : A -> Q) l :
  Qsum (map (fun r => f r * f r) l) == 0 -> forall r, In r l -> f r == 0.
Proof.
  induction l as [|x l IH]; intros Hz r Hin; [destruct Hin|].
  unfold Qsum in Hz; cbn [map fold_right] in Hz.
  pose proof (Qsum_squares_nonneg f l) as Hl. unfold Qsum in Hl.
  assert (Hx : 0 <= f x * f x).
  { pose proof (Qsum_squares_nonneg f [x]) as H.
    unfold Qsum in H; simpl in H. now rewrite Qplus_0_r in H. }
  assert (Hx0 : f x * f x == 0).
  { apply Qle_antisym; [|assumption].
    rewrite <- Hz. rewrite <- (Qplus_0_r (f x * f x)) at 1.
    now apply Qplus_le_r. }
  destruct Hin as [<-|Hin].
  - apply Qmult_integral in Hx0. tauto.
  - apply IH; [|assumption].
    unfold Qsum. rewrite Hx0, Qplus_0_l in Hz. exact Hz.
Qed.

Lemma slope_calculation_nonempty df :
  df <> [] ->
  slope_calculation df
  = Ok (let n := inject_Z (Z.of_nat (List.length df)) in
        let xbar := Qsum (map (fun r => inject_Z (s_dq r)) df) / n in
        let ybar := Qsum (map s_cc df) / n in
        let sxx := Qsum (map (fun r => (inject_Z (s_dq r) - xbar)
                                       * (inject_Z (s_dq r) - xbar)) df) in
        let sxy := Qsum (map (fun r => (inject_Z (s_dq r) - xbar)
                                       * (s_cc r - ybar)) df) in
        let slope := if Qeq_bool sxx 0 then 0 else sxy / sxx in
        (slope, ybar - slope * xbar)).
Proof. destruct df; [contradiction | reflexivity]. Qed.

(** X7.  When the scores of the samples lie exactly on a line
    [cc = a * dq + b] and two samples have different amplitudes,
    [slope_calculation] returns the slope [a] and the intercept [b]. *)
Theorem slope_calculation_exact_line df (a b : Q) :
  (forall r, In r df -> s_cc r == a * inject_Z (s_dq r) + b) ->
  (exists r1 r2, In r1 df /\ In r2 df /\ s_dq r1 <> s_dq r2) ->
  exists slope intercept,
    slope_calculation df = Ok (slope, intercept)
    /\ slope == a /\ intercept == b.
Proof.
  intros Hline (r1 & r2 & Hin1 & Hin2 & Hne).
  assert (Hdf : df <> []) by (intros ->; destruct Hin1).
  rewrite (slope_calculation_nonempty df Hdf). cbv zeta.
  set (n := inject_Z (Z.of_nat (List.length df))).
  set (xbar := Qsum (map (fun r => inject_Z (s_dq r)) df) / n).
  set (ybar := Qsum (map s_cc df) / n).
  set (sxx := Qsum (map (fun r => (inject_Z (s_dq r) - xbar) * (inject_Z (s_dq r) - xbar)) df)).
  set (sxy := Qsum (map (fun r => (inject_Z (s_dq r) - xbar) * (s_cc r - ybar)) df)).
  assert (Hn : ~ n == 0).
  { unfold n. destruct df as [|x0 df0]; [contradiction|].
    simpl List.length. intros H. unfold Qeq in H. simpl in H. lia. }
  assert (Hybar : ybar == a * xbar + b).
  { unfold ybar, xbar.
    rewrite (Qsum_map_ext s_cc (fun r => a * inject_Z (s_dq r) + b)) by exact Hline.
    rewrite (Qsum_map_affine (fun r => inject_Z (s_dq r))).
    fold n. field. exact Hn. }
  assert (Hsxy : sxy == a * sxx).
  { unfold sxy, sxx. rewrite <- Qsum_map_scale.
    apply Qsum_map_ext. intros r Hr. rewrite (Hline r Hr), Hybar.
    ring. }
  assert (Hsxx : ~ sxx == 0).
  { intros Hz.
    pose proof (Qsum_squares_zero (fun r => inject_Z (s_dq r) - xbar) df Hz) as Hall.
    pose proof (Hall r1 Hin1) as H1. pose proof (Hall r2 Hin2) as H2.
    simpl in H1, H2. apply Hne.
    assert (Heq : inject_Z (s_dq r1) == inject_Z (s_dq r2)).
    { setoid_replace (inject_Z (s_dq r1)) with (inject_Z (s_dq r1) - xbar + xbar) by ring.
      rewrite H1. setoid_replace (inject_Z (s_dq r2)) with (inject_Z (s_dq r2) - xbar + xbar) by ring.
      rewrite H2. reflexivity. }
    unfold Qeq in Heq. simpl in Heq. lia. }
  destruct (Qeq_bool sxx 0) eqn:Hq.
  { apply Qeq_bool_eq in Hq. contradiction. }
  eexists. eexists. split; [reflexivity|].
  assert (Hslope : sxy / sxx == a).
  { rewrite Hsxy. field. exact Hsxx. }
  split; [exact Hslope|].
  rewrite Hslope, Hybar. ring.
Qed.

Lemma slope_calculation_exact_line_witness :
  exists slope intercept,
    slope_calculation
      [mk_sample 7 (-10) (1#10); mk_sample 7 (-5) (3#10);
       mk_sample 7 0 (1#2); mk_sample 7 5 (7#10); mk_sample 7 10 (9#10)]
    = Ok (slope, intercept)
    /\ slope == 1 # 25 /\ intercept == 1 # 2.
Proof.
  apply (slope_calculation_exact_line
           [mk_sample 7 (-10) (1#10); mk_sample 7 (-5) (3#10);
            mk_sample 7 0 (1#2); mk_sample 7 5 (7#10); mk_sample 7 10 (9#10)]
           (1 # 25) (1 # 2)).
  - intros r Hr. simpl in Hr.
    repeat (destruct Hr as [<-|Hr]; [reflexivity|]). destruct Hr.
  - exists (mk_sample 7 (-10) (1#10)), (mk_sample 7 (-5) (3#10)).
    split; [in_list|]. split; [in_list | discriminate].
Defined.

End FitFacts.

(* ===================================================================== *)
(** ** Facts about the two judgements *)
(* ===================================================================== *)

Module JudgementFacts.

Import SlopeFacts StopIterFacts.

(** Reading [k] rows back from the bottom of a log that has them. *)
Lemma read_rows hdr rows k :
  Forall scored rows -> (k <= List.length rows)%nat ->
  exists t, read_pre_iter_cc_and_avrg (log_rows hdr rows) k = Ok t
            /\ t == Qsum (lastn k (map score rows)).
Proof.
  intros Hs Hlen.
  unfold read_pre_iter_cc_and_avrg, log_rows, load_workbook, bind.
  rewrite read_loop_rows by (assumption || lia).
  eexists; split; [reflexivity|].
  rewrite fold_left_Qplus, read_back_lastn by lia.
  rewrite Qsum_rev. ring.
Qed.

Lemma read_rows_short hdr rows k :
  Forall scored rows -> (List.length rows < k)%nat ->
  read_pre_iter_cc_and_avrg (log_rows hdr rows) k = Raise TypeError.
Proof.
  intros Hs Hlen.
  unfold read_pre_iter_cc_and_avrg, log_rows, load_workbook, bind.
  apply read_loop_header; (assumption || lia).
Qed.

Lemma lastn_S {A} (d : A) (l : list A) k :
  (k < List.length l)%nat ->
  lastn (S k) l = nth (List.length l - S k) l d :: lastn k l.
Proof.
  intros Hk. unfold lastn.
  set (m := (List.length l - S k)%nat).
  replace (List.length l - k)%nat with (S m) by lia.
  assert (Hm : (m < List.length l)%nat) by lia.
  clearbody m. clear Hk. revert m Hm.
  induction l as [|x l IH]; intros m Hm; [simpl in Hm; lia|].
  destruct m as [|m]; [reflexivity|].
  simpl. apply IH. simpl in Hm. lia.
Qed.

(** X8.  With five records or more in the log, [cc_judgement_avrg]
    answers "continue" exactly when the current similarity exceeds the
    similarity logged five records earlier. *)
Theorem avrg_judgement_five_back hdr rows name mode amp cc :
  Forall scored rows -> (5 <= List.length rows)%nat ->
  exists log' b,
    cc_judgement_avrg name mode amp (log_rows hdr rows) cc = Ok (log', b)
    /\ (b = true <->
        nth (List.length rows - 5) (map score rows) 0 < cc).
Proof.
  intros Hs Hlen.
  destruct (read_rows hdr rows 5 Hs Hlen) as (t5 & H5 & Hsum5).
  destruct (read_rows hdr rows 4 Hs ltac:(lia)) as (t4 & H4 & Hsum4).
  unfold cc_judgement_avrg. rewrite H5, H4. cbn [bind try_except].
  unfold write_log, log_rows. cbn [load_workbook bind].
  eexists. eexists. split; [reflexivity|].
  rewrite Qltb_lt.
  rewrite (lastn_S 0 (map score rows) 4) in Hsum5
    by (rewrite length_map; lia).
  rewrite length_map in Hsum5.
  set (x := nth (List.length rows - 5) (map score rows) 0) in *.
  set (s4 := Qsum (lastn 4 (map score rows))) in *.
  unfold Qsum in Hsum5. cbn [fold_right] in Hsum5. fold (Qsum (lastn 4 (map score rows))) in Hsum5.
  fold s4 in Hsum5.
  assert (H5' : t5 / 5 == (x + s4) / 5) by (rewrite Hsum5; reflexivity).
  assert (H4' : (t4 + cc) / 5 == (s4 + cc) / 5) by (rewrite Hsum4; reflexivity).
  rewrite H5', H4'.
  split; intros H.
  - apply (Qmult_lt_r _ _ 5) in H; [|reflexivity].
    assert (Ha : (x + s4) / 5 * 5 == x + s4) by field.
    assert (Hb : (s4 + cc) / 5 * 5 == s4 + cc) by field.
    rewrite Ha, Hb in H. Lqa.lra.
  - apply (Qmult_lt_r _ _ 5); [reflexivity|].
    assert (Ha : (x + s4) / 5 * 5 == x + s4) by field.
    assert (Hb : (s4 + cc) / 5 * 5 == s4 + cc) by field.
    rewrite Ha, Hb. Lqa.lra.
Qed.

Lemma avrg_judgement_five_back_witness :
  exists log' b,
    cc_judgement_avrg "p#s5" 7 10
      (log_rows "no" [record_row "p" (1#5) 7 10 (1#5);
                      record_row "p#s1" (2#5) 7 10 (2#5);
                      record_row "p#s2" (3#5) 7 10 (3#5);
                      record_row "p#s3" (4#5) 7 10 (4#5);
                      record_row "p#s4" (4#5) 7 10 (3#5)]) (1#10)
    = Ok (log', b)
    /\ (b = true <->
        nth (5 - 5)
            (map score [record_row "p" (1#5) 7 10 (1#5);
                        record_row "p#s1" (2#5) 7 10 (2#5);
                        record_row "p#s2" (3#5) 7 10 (3#5);
                        record_row "p#s3" (4#5) 7 10 (4#5);
                        record_row "p#s4" (4#5) 7 10 (3#5)]) 0 < 1 # 10).
Proof.
  apply (avrg_judgement_five_back "no"
           [record_row "p" (1#5) 7 10 (1#5);
            record_row "p#s1" (2#5) 7 10 (2#5);
            record_row "p#s2" (3#5) 7 10 (3#5);
            record_row "p#s3" (4#5) 7 10 (4#5);
            record_row "p#s4" (4#5) 7 10 (3#5)] "p#s5" 7 10 (1#10)).
  - repeat constructor; eexists; reflexivity.
  - simpl. lia.
Defined.

(** X9.  While the log holds fewer than five records,
    [cc_judgement_avrg] has no earlier window to compare with: it answers
    "continue" exactly when the rolling average it writes is positive. *)
Theorem avrg_judgement_early hdr rows name mode amp cc :
  Forall scored rows -> (List.length rows < 5)%nat ->
  exists avg,
    cc_judgement_avrg name mode amp (log_rows hdr rows) cc
    = Ok (log_rows hdr (rows ++ [record_row name cc mode amp avg]),
          Qltb 0 avg).
Proof.
  intros Hs Hlen. unfold cc_judgement_avrg.
  rewrite (read_rows_short hdr rows 5 Hs Hlen). cbn [bind try_except].
  destruct (read_pre_iter_cc_and_avrg (log_rows hdr rows) 4) as [t4|e];
    cbn [bind try_except]; eexists; reflexivity.
Qed.

Lemma avrg_judgement_early_witness :
  exists avg,
    cc_judgement_avrg "p#s1" 7 10
      (log_rows "no" [record_row "p" (1#5) 7 10 (1#5)]) (-(1#10))
    = Ok (log_rows "no" ([record_row "p" (1#5) 7 10 (1#5)]
                           ++ [record_row "p#s1" (-(1#10)) 7 10 avg]),
          Qltb 0 avg).
Proof.
  apply (avrg_judgement_early "no" [record_row "p" (1#5) 7 10 (1#5)]
           "p#s1" 7 10 (-(1#10))).
  - repeat constructor; eexists; reflexivity.
  - simpl. lia.
Defined.

(** X10.  On a log that holds a record, [cc_judgement_single] appends a
    record of four cells (no rolling average) and answers "continue"
    exactly when the current similarity exceeds that of the last
    record. *)
Theorem single_judgement_after_first hdr rows last_row name mode amp cc :
  Forall scored (rows ++ [last_row]) ->
  cc_judgement_single name mode amp (log_rows hdr (rows ++ [last_row])) cc
  = Ok (log_rows hdr ((rows ++ [last_row])
                        ++ [[CStr name; CNum cc; CNum mode; CNum amp]]),
        Qltb (score last_row) cc).
Proof.
  intros Hs.
  unfold cc_judgement_single, cc_judgement_single_read, read_pre_iter_cc,
    log_rows.
  cbn [load_workbook bind].
  set (ws := header hdr :: rows ++ [last_row]).
  pose proof (second_cell ws (max_row ws) (max_column_header hdr _)) as Hc.
  assert (Hm : max_row ws = (Z.of_nat (List.length rows) + 2)%Z).
  { unfold max_row, ws. simpl List.length. rewrite length_app. simpl. lia. }
  specialize (Hc ltac:(lia)). rewrite Hc, Hm.
  replace (Z.to_nat (Z.of_nat (List.length rows) + 2 - 1))
    with (S (List.length rows)) by lia.
  unfold ws. cbn [nth]. rewrite app_nth2 by lia. rewrite Nat.sub_diag.
  cbn [nth].
  assert (Hl : scored last_row).
  { rewrite Forall_forall in Hs. apply Hs, in_or_app. right. now left. }
  rewrite (scored_score _ Hl). reflexivity.
Qed.

Lemma single_judgement_after_first_witness :
  cc_judgement_single "p#s1" 7 10
    (log_rows "no" ([] ++ [[CStr "p"; CNum (1#5); CNum 7; CNum 10]])) (3#10)
  = Ok (log_rows "no" (([] ++ [[CStr "p"; CNum (1#5); CNum 7; CNum 10]])
                         ++ [[CStr "p#s1"; CNum (3#10); CNum 7; CNum 10]]),
        Qltb (score [CStr "p"; CNum (1#5); CNum 7; CNum 10]) (3#10)).
Proof.
  apply (single_judgement_after_first "no" []
           [CStr "p"; CNum (1#5); CNum 7; CNum 10] "p#s1" 7 10 (3#10)).
  repeat constructor; eexists; reflexivity.
Defined.

End JudgementFacts.

(* ===================================================================== *)
(** ** Facts about the loop under any criterion *)
(* ===================================================================== *)

Module LoopFacts.

Import SlopeFacts StopIterFacts.

(** Whatever the criterion, a judgement that returns has appended one
    row, which carries the similarity of the pass. *)
Lemma judge_appends cfg st o m a ws log' b :
  overall_log st = Some ws ->
  judge cfg st o m a = Ok (log', b) ->
  exists r, log' = Some (ws ++ [r]) /\ scored r /\ score r = o_cc o.
Proof.
  intros Hlog. unfold judge. rewrite Hlog.
  destruct (cc_judgement_avrg_appends
              (render (initial_conformation_iter st)) (inject_Z m) a ws
              (o_cc o)) as (avg & b' & Havrg).
  assert (Hrec : scored (record_row (render (initial_conformation_iter st))
                                    (o_cc o) (inject_Z m) a avg)
                 /\ score (record_row (render (initial_conformation_iter st))
                                      (o_cc o) (inject_Z m) a avg) = o_cc o).
  { split; [apply record_row_scored | reflexivity]. }
  destruct (String.eqb (termination_criterion cfg) "average").
  { rewrite Havrg. intros H. inversion H. eauto. }
  destruct (String.eqb (termination_criterion cfg) "numeric").
  { rewrite Havrg. destruct (_ || _); cbn [bind]; intros H; inversion H; eauto. }
  destruct (StopIterFacts.cc_judgement_single_read_raises
              (render (initial_conformation_iter st)) (inject_Z m) a
              (Some ws) FileNotFoundError) as (e' & He').
  rewrite He'. discriminate.
Qed.

Lemma loop_shape cfg world n :
  forall i st st' ex ws,
    overall_log st = Some ws ->
    loop cfg world n i st = Ok (st', ex) ->
    exists rows (p : nat),
      overall_log st' = Some (ws ++ rows)
      /\ map score rows = map (fun j => o_cc (world j))
                              (seq i (List.length rows))
      /\ Forall scored rows
      /\ deformed_times st' = (deformed_times st + Z.of_nat p)%Z
      /\ List.length rows
         = (p + match ex with Broke => 1 | Exhausted => 0 end)%nat
      /\ List.length (applied_moves st')
         = (List.length (applied_moves st) + p)%nat
      /\ (List.length rows <= n)%nat
      /\ initial_conformation_iter st'
         = Nat.iter p filename_of_next_iter (initial_conformation_iter st).
Proof.
  induction n as [|n IH]; intros i st st' ex ws Hlog; cbn [loop].
  - intros H. inversion H. subst. exists [], O.
    rewrite app_nil_r, Z.add_0_r, Nat.add_0_r. simpl. repeat split; auto.
  - unfold iteration.
    destruct (generate_deformed_conformation _ _ _) as [d|e];
      cbn [bind]; [|discriminate].
    destruct (move_at cfg (world i)) as [[m a]|e];
      cbn [bind]; [|discriminate].
    destruct (judge cfg st (world i) m a) as [[log' b]|e] eqn:Hj;
      cbn [bind]; [|discriminate].
    destruct (judge_appends _ _ _ _ _ _ _ _ Hlog Hj) as (r & -> & Hr & Hsc).
    destruct b; cbn [negb].
    + intros Hloop.
      apply (IH _ _ _ _ (ws ++ [r])) in Hloop; [|reflexivity].
      destruct Hloop as (rows & p & H1 & H2 & H3 & H4 & H5 & H6 & H7 & H8).
      exists (r :: rows), (S p). simpl in *.
      rewrite <- app_assoc in H1. simpl in H1.
      repeat split.
      * exact H1.
      * now rewrite Hsc, H2.
      * now constructor.
      * rewrite H4. lia.
      * rewrite H5. reflexivity.
      * rewrite H6, length_app. simpl. lia.
      * lia.
      * rewrite H8. clear. induction p; simpl; congruence.
    + intros H. inversion H. subst. exists [r], O. simpl.
      rewrite Z.add_0_r, Nat.add_0_r, Hsc.
      repeat split; auto; lia.
Qed.

(** X11.  Whenever the iteration phase returns, under any criterion,
    the log is the header followed by one record per pass run, in order,
    each carrying the similarity of its pass; the deformed-times counter
    equals the number of moves applied, the last record belongs to the
    stopping pass when the loop left by [break], and no more than
    [num_iterations + 10] records exist. *)
Theorem run_log_shape cfg world st ex :
  run cfg world = Ok (st, ex) ->
  exists rows,
    overall_log st = log_rows (calculate_rmsd_to_reference cfg) rows
    /\ map score rows
       = map (fun j => o_cc (world j)) (seq 0 (List.length rows))
    /\ Forall scored rows
    /\ List.length rows
       = (Z.to_nat (deformed_times st)
          + match ex with Broke => 1 | Exhausted => 0 end)%nat
    /\ List.length (applied_moves st) = Z.to_nat (deformed_times st)
    /\ (List.length rows <= Z.to_nat (num_iterations cfg + 10))%nat
    /\ initial_conformation_iter st
       = name_at (original_conformation cfg) (Z.to_nat (deformed_times st)).
Proof.
  unfold run. intros Hrun.
  apply (loop_shape _ _ _ _ _ _ _
           [header (calculate_rmsd_to_reference cfg)]) in Hrun;
    [|reflexivity].
  destruct Hrun as (rows & p & H1 & H2 & H3 & H4 & H5 & H6 & H7 & H8).
  simpl in H4, H6. exists rows.
  replace (Z.to_nat (deformed_times st)) with p by lia.
  repeat split; assumption.
Qed.

Lemma run_log_shape_witness :
  exists st ex rows,
    run Samples.cfg_maxcc Samples.world_rests_at_1 = Ok (st, ex)
    /\ overall_log st
       = log_rows (calculate_rmsd_to_reference Samples.cfg_maxcc) rows
    /\ map score rows
       = map (fun j => o_cc (Samples.world_rests_at_1 j))
             (seq 0 (List.length rows))
    /\ Forall scored rows
    /\ List.length rows
       = (Z.to_nat (deformed_times st)
          + match ex with Broke => 1 | Exhausted => 0 end)%nat
    /\ List.length (applied_moves st) = Z.to_nat (deformed_times st)
    /\ (List.length rows
        <= Z.to_nat (num_iterations Samples.cfg_maxcc + 10))%nat
    /\ initial_conformation_iter st
       = name_at (original_conformation Samples.cfg_maxcc)
                 (Z.to_nat (deformed_times st)).
Proof.
  destruct (run Samples.cfg_maxcc Samples.world_rests_at_1)
    as [[st ex]|e] eqn:Hrun; [|vm_compute in Hrun; discriminate Hrun].
  exists st, ex.
  destruct (run_log_shape Samples.cfg_maxcc Samples.world_rests_at_1 st ex
              Hrun) as (rows & H).
  exists rows. split; [reflexivity | exact H].
Defined.



End LoopFacts.

(* ===================================================================== *)
(** ** Further facts about the image similarity *)
(* ===================================================================== *)

Module SimilarityMore.

Import Similarity SimilarityFacts.
Local Open Scope R_scope.

Lemma dot_comm x y : dot x y = dot y x.
Proof.
  unfold dot. revert y. induction x as [|a x IH]; intros [|b y];
    try reflexivity.
  unfold Rsum in *. simpl. rewrite IH. ring.
Qed.

Lemma pearson_value_sym x y : pearson_value x y = pearson_value y x.
Proof.
  unfold pearson_value.
  destruct (Req_dec_T (norm (centered x)) 0),
           (Req_dec_T (norm (centered y)) 0); try reflexivity.
  now rewrite dot_comm.
Qed.

Lemma pearsonr_sym x y : pearsonr x y = pearsonr y x.
Proof.
  unfold pearsonr. rewrite (Nat.eqb_sym (List.length y)).
  destruct (Nat.eqb_spec (List.length x) (List.length y)) as [Hlen|_];
    [|reflexivity].
  cbn [negb]. rewrite Hlen.
  destruct (List.length y <? 2)%nat; [reflexivity|].
  destruct (all_finite x), (all_finite y); try reflexivity.
  now rewrite pearson_value_sym.
Qed.

(** X13.  The similarity does not depend on the order of its two
    images: the score, and the error when there is one, are the same
    either way. *)
Theorem similarity_symmetric p i :
  calculation_correlation_pearson_tsv_normalized p i
  = calculation_correlation_pearson_tsv_normalized i p.
Proof.
  unfold calculation_correlation_pearson_tsv_normalized.
  destruct (flatten p) as [|a x], (flatten i) as [|b y]; try reflexivity.
  cbn [array_min array_max bind]. apply pearsonr_sym.
Qed.

(** A list all of whose entries are [c]. *)
Lemma constant_all (l : list R) c :
  constant l -> In c l -> forall x, In x l -> x = c.
Proof. intros Hc Hin x Hx. now apply Hc. Qed.

Lemma Rsum_all (l : list R) c :
  (forall x, In x l -> x = c) -> Rsum l = INR (List.length l) * c.
Proof.
  induction l as [|a l IH]; intros H.
  - unfold Rsum; simpl. ring.
  - unfold Rsum in *. cbn [fold_right List.length].
    rewrite IH by (intros; apply H; now right).
    rewrite (H a (or_introl eq_refl)), S_INR. ring.
Qed.

Lemma norm_centered_constant (l : list R) :
  constant l -> norm (centered l) = 0.
Proof.
  intros Hc. destruct l as [|c l].
  { unfold norm, sumsq, centered, Rsum. simpl. apply sqrt_0. }
  assert (Hall : forall x, In x (c :: l) -> x = c).
  { apply constant_all; [assumption | now left]. }
  assert (Hmean : mean (c :: l) = c).
  { unfold mean. rewrite (Rsum_all _ c Hall). field.
    apply not_0_INR. discriminate. }
  unfold norm. transitivity (sqrt 0); [|apply sqrt_0]. f_equal.
  unfold sumsq, centered. rewrite Hmean, map_map.
  rewrite (Rsum_all _ 0); [ring|].
  intros x Hx. apply in_map_iff in Hx as (y & <- & Hy).
  rewrite (Hall y Hy). ring.
Qed.

Lemma all_finite_length l rs :
  all_finite l = Some rs -> List.length rs = List.length l.
Proof.
  revert rs. induction l as [|[r|] l IH]; simpl; intros rs H.
  - inversion H. reflexivity.
  - destruct (all_finite l) as [rs'|]; [|discriminate].
    inversion H. simpl. now rewrite (IH rs').
  - discriminate.
Qed.

(** X14.  An image of constant height has no score: against any image
    with as many samples (two or more) the result is not a number. *)
Theorem flat_image_has_no_score p i :
  constant (flatten p) ->
  List.length (flatten p) = List.length (flatten i) ->
  (2 <= List.length (flatten p))%nat ->
  calculation_correlation_pearson_tsv_normalized p i = Ok NonFinite.
Proof.
  intros Hc Hlen H2.
  unfold calculation_correlation_pearson_tsv_normalized.
  destruct (flatten p) as [|a x] eqn:Hp; [simpl in H2; lia|].
  destruct (flatten i) as [|b y] eqn:Hi; [simpl in Hlen; lia|].
  cbn [array_min array_max bind].
  set (pmin := fold_left Rmin x a). set (pmax := fold_left Rmax x a).
  set (imin := fold_left Rmin y b). set (imax := fold_left Rmax y b).
  unfold pearsonr. rewrite !length_map, Hlen, Nat.eqb_refl. cbn [negb].
  rewrite <- Hlen.
  destruct (Nat.ltb_spec (List.length (a :: x)) 2) as [Hlt|_]; [lia|].
  destruct (Req_dec_T pmax 0) as [Hz|Hnz].
  - replace (all_finite (map (fun v => fdiv v pmax)
                            (map (fun v => v - pmin) (a :: x))))
      with (@None (list R)); [reflexivity|].
    simpl. unfold fdiv. destruct (Req_dec_T pmax 0); [reflexivity|].
    contradiction.
  - rewrite (normalized_finite pmin pmax (a :: x) Hnz).
    rewrite (all_finite_Fin (fun v => (v - pmin) / pmax)).
    destruct (all_finite _) as [ys|]; [|reflexivity].
    unfold pearson_value.
    destruct (Req_dec_T _ 0) as [_|Hn]; [reflexivity|].
    exfalso. apply Hn. apply norm_centered_constant.
    intros u v Hu Hv.
    apply in_map_iff in Hu as (u' & <- & Hu').
    apply in_map_iff in Hv as (v' & <- & Hv').
    now rewrite (Hc u' v' Hu' Hv').
Qed.

Lemma flat_image_has_no_score_witness :
  calculation_correlation_pearson_tsv_normalized
    [[3; 3]; [3; 3]] [[0; 1]; [2; 3]] = Ok NonFinite.
Proof.
  apply (flat_image_has_no_score [[3; 3]; [3; 3]] [[0; 1]; [2; 3]]).
  - intros u v Hu Hv. simpl in Hu, Hv.
    repeat (destruct Hu as [<-|Hu]; [|]); try destruct Hu;
      repeat (destruct Hv as [<-|Hv]; [|]); try destruct Hv; reflexivity.
  - reflexivity.
  - simpl. lia.
Defined.

(** X15.  An image whose largest height is exactly 0 has no score
    either: the division by the maximum leaves no number. *)
Theorem zero_maximum_has_no_score p i :
  array_max (flatten p) = Ok 0 ->
  List.length (flatten p) = List.length (flatten i) ->
  (2 <= List.length (flatten p))%nat ->
  calculation_correlation_pearson_tsv_normalized p i = Ok NonFinite.
Proof.
  intros Hmax Hlen H2.
  unfold calculation_correlation_pearson_tsv_normalized.
  destruct (flatten p) as [|a x] eqn:Hp; [simpl in H2; lia|].
  destruct (flatten i) as [|b y] eqn:Hi; [simpl in Hlen; lia|].
  rewrite Hmax. cbn [array_min array_max bind].
  unfold pearsonr. rewrite !length_map, Hlen, Nat.eqb_refl. cbn [negb].
  rewrite <- Hlen.
  destruct (Nat.ltb_spec (List.length (a :: x)) 2) as [Hlt|_]; [lia|].
  simpl. unfold fdiv at 1.
  destruct (Req_dec_T 0 0) as [_|Hn]; [reflexivity|].
  now contradiction Hn.
Qed.

Lemma zero_maximum_has_no_score_witness :
  calculation_correlation_pearson_tsv_normalized
    [[-2; -1]; [-1; 0]] [[0; 1]; [2; 3]] = Ok NonFinite.
Proof.
  apply (zero_maximum_has_no_score [[-2; -1]; [-1; 0]] [[0; 1]; [2; 3]]).
  - simpl. rewrite (Rmax_right (-2) (-1)) by lra.
    rewrite (Rmax_left (-1) (-1)) by lra.
    rewrite (Rmax_right (-1) 0) by lra. reflexivity.
  - reflexivity.
  - simpl. lia.
Defined.

(** X16.  An image with fewer than two samples is refused with
    [ValueError], whatever the other image. *)
Theorem too_few_samples_refused p i :
  (List.length (flatten p) < 2)%nat ->
  calculation_correlation_pearson_tsv_normalized p i = Raise ValueError.
Proof.
  intros Hlen. unfold calculation_correlation_pearson_tsv_normalized.
  destruct (flatten p) as [|a [|a' x]]; [reflexivity| |simpl in Hlen; lia].
  destruct (flatten i) as [|b y]; [reflexivity|].
  cbn [array_min array_max bind]. unfold pearsonr. rewrite !length_map.
  destruct (Nat.eqb_spec (List.length [a]) (List.length (b :: y)));
    reflexivity.
Qed.

Lemma too_few_samples_refused_witness :
  calculation_correlation_pearson_tsv_normalized [[1]] [[1]]
  = Raise ValueError.
Proof.
  apply (too_few_samples_refused [[1]] [[1]]). simpl. lia.
Defined.

(** X17.  A score, when there is one, lies between -1 and 1. *)
Theorem score_within_unit_interval p i r :
  calculation_correlation_pearson_tsv_normalized p i = Ok (Fin r) ->
  -1 <= r <= 1.
Proof.
  unfold calculation_correlation_pearson_tsv_normalized.
  destruct (array_min (flatten p)) as [pmin|e]; cbn [bind]; [|discriminate].
  destruct (array_min (flatten i)) as [imin|e]; cbn [bind]; [|discriminate].
  destruct (array_max (flatten p)) as [pmax|e]; cbn [bind]; [|discriminate].
  destruct (array_max (flatten i)) as [imax|e]; cbn [bind]; [|discriminate].
  unfold pearsonr.
  destruct (negb _); [discriminate|].
  destruct (_ <? 2)%nat; [discriminate|].
  destruct (all_finite _) as [xs|]; [|discriminate].
  destruct (all_finite _) as [ys|]; [|discriminate].
  unfold pearson_value.
  destruct (Req_dec_T _ 0); [discriminate|].
  destruct (Req_dec_T _ 0); [discriminate|].
  intros H. inversion H. split.
  - apply Rmax_r.
  - apply Rmax_lub; [apply Rmin_r | lra].
Qed.

Lemma score_within_unit_interval_witness : -1 <= 1 <= 1.
Proof.
  apply (score_within_unit_interval [[1; 2]] [[1; 2]] 1).
  rewrite (similarity_affine [[1; 2]] [[1; 2]] 1 0 2).
  - do 2 f_equal. replace (2 / (1 * 2 + 0)) with 1 by field.
    apply sign_quotient_pos. lra.
  - simpl. repeat f_equal; ring.
  - simpl. rewrite Rmax_right by lra. reflexivity.
  - intros Hc. specialize (Hc 1 2). simpl in Hc.
    assert (H12 : 1 = 2) by (apply Hc; auto). lra.
  - lra.
  - lra.
  - lra.
Defined.

End SimilarityMore.

(* ===================================================================== *)
(** ** Facts about written cells *)
(* ===================================================================== *)

Module SheetWriteFacts.

Lemma nth_set_nth {A} (d : A) n v l n' :
  nth n' (set_nth d n v l) d = if (n' =? n)%nat then v else nth n' l d.
Proof.
  revert l n'. induction n as [|n IH]; intros l n'.
  - destruct l, n' as [|n']; simpl; try reflexivity. now destruct n'.
  - destruct l as [|x l], n' as [|n']; simpl; try reflexivity.
    + rewrite IH. destruct (n' =? n)%nat; [reflexivity|]. now destruct n'.
    + apply IH.
Qed.

Lemma set_nth_length {A} (d : A) n v l :
  List.length (set_nth d n v l) = Nat.max (List.length l) (S n).
Proof.
  revert l. induction n as [|n IH]; intros [|x l]; simpl; try reflexivity.
  - now destruct (List.length l).
  - rewrite IH. simpl. reflexivity.
  - now rewrite IH.
Qed.

(** Reading after one write: the written cell holds the value, every
    other cell reads as before. *)
Lemma set_cell_read ws r c v ws' :
  set_cell ws r c v = Ok ws' ->
  forall r' c',
    cell_value ws' r' c'
    = if ((r' =? r) && (c' =? c))%Z then Ok v else cell_value ws r' c'.
Proof.
  unfold set_cell.
  destruct (Z.ltb_spec r 1) as [|Hr]; [discriminate|].
  destruct (Z.ltb_spec c 1) as [|Hc]; [discriminate|].
  cbn [orb]. intros H r' c'. inversion H. subst ws'. clear H.
  unfold cell_value.
  destruct (Z.ltb_spec r' 1) as [|Hr'].
  { cbn [orb]. destruct (Z.eqb_spec r' r); [lia | reflexivity]. }
  destruct (Z.ltb_spec c' 1) as [|Hc'].
  { cbn [orb]. destruct (Z.eqb_spec c' c); [lia|].
    now rewrite andb_false_r. }
  cbn [orb]. rewrite nth_set_nth.
  destruct (Z.eqb_spec r' r) as [->|Hne].
  - rewrite Nat.eqb_refl, nth_set_nth. cbn [andb].
    destruct (Z.eqb_spec c' c) as [->|Hnc].
    + now rewrite Nat.eqb_refl.
    + destruct (Nat.eqb_spec (Z.to_nat (c' - 1)) (Z.to_nat (c - 1)));
        [lia | reflexivity].
  - cbn [andb].
    destruct (Nat.eqb_spec (Z.to_nat (r' - 1)) (Z.to_nat (r - 1)));
      [lia | reflexivity].
Qed.

Lemma set_cell_ok ws r c v :
  (1 <= r)%Z -> (1 <= c)%Z -> exists ws', set_cell ws r c v = Ok ws'.
Proof.
  intros Hr Hc. unfold set_cell.
  destruct (Z.ltb_spec r 1); [lia|]. destruct (Z.ltb_spec c 1); [lia|].
  eexists; reflexivity.
Qed.

Lemma set_cell_length ws r c v ws' :
  set_cell ws r c v = Ok ws' ->
  List.length ws' = Nat.max (List.length ws) (Z.to_nat r).
Proof.
  unfold set_cell.
  destruct (Z.ltb_spec r 1) as [|Hr]; [discriminate|].
  destruct (Z.ltb_spec c 1) as [|Hc]; [discriminate|].
  cbn [orb]. intros H. inversion H. rewrite set_nth_length.
  f_equal. lia.
Qed.

(** Reading after the loop over the rows. *)
Lemma write_matches_read keyword value column_num :
  (1 <= column_num)%Z ->
  forall rows r ws,
    (1 <= r)%Z ->
    exists ws',
      write_matches keyword value column_num rows r ws = Ok ws'
      /\ (List.length ws <= List.length ws')%nat
      /\ (List.length ws' <= Nat.max (List.length ws)
                               (Z.to_nat r + List.length rows - 1))%nat
      /\ forall r' c',
        cell_value ws' r' c'
        = if ((c' =? column_num) && (r <=? r')
              && (r' <? r + Z.of_nat (List.length rows)))%Z
             && row_has_keyword keyword (nth (Z.to_nat (r' - r)) rows [])
          then Ok value else cell_value ws r' c'.
Proof.
  intros Hcol. induction rows as [|this_row rows IH]; intros r ws Hr.
  - exists ws. cbn [write_matches List.length].
    split; [reflexivity|]. split; [lia|]. split; [lia|].
    intros r' c'. simpl.
    destruct (_ && _ && (r' <? r + 0))%Z eqn:Hb; [|reflexivity].
    exfalso. apply andb_prop in Hb as [Hb1 Hb2].
    apply andb_prop in Hb1 as [_ Hb1].
    apply Z.leb_le in Hb1. apply Z.ltb_lt in Hb2. lia.
  - cbn [write_matches].
    assert (Hstep : exists ws1,
               (if row_has_keyword keyword this_row
                then set_cell ws r column_num value else Ok ws) = Ok ws1
               /\ (List.length ws <= List.length ws1)%nat
               /\ (List.length ws1
                   <= Nat.max (List.length ws) (Z.to_nat r))%nat
               /\ forall r' c',
                 cell_value ws1 r' c'
                 = if ((r' =? r) && (c' =? column_num))%Z
                      && row_has_keyword keyword this_row
                   then Ok value else cell_value ws r' c').
    { destruct (row_has_keyword keyword this_row).
      - destruct (set_cell_ok ws r column_num value Hr Hcol) as (ws1 & H1).
        exists ws1. split; [assumption|].
        pose proof (set_cell_length _ _ _ _ _ H1) as Hl.
        split; [lia|]. split; [lia|].
        intros r' c'. rewrite (set_cell_read _ _ _ _ _ H1), andb_true_r.
        reflexivity.
      - exists ws. split; [reflexivity|]. split; [lia|]. split; [lia|].
        intros r' c'. now rewrite andb_false_r. }
    destruct Hstep as (ws1 & -> & Hl0 & Hl1 & Hread1). cbn [bind].
    destruct (IH (r + 1)%Z ws1 ltac:(lia)) as (ws' & Hw & Hl3 & Hl2 & Hread).
    exists ws'. split; [assumption|]. split; [lia|].
    split.
    { cbn [List.length]. lia. }
    intros r' c'. rewrite Hread, Hread1. cbn [List.length].
    destruct (Z.eqb_spec c' column_num) as [->|Hc]; cbn [andb];
      [|now rewrite andb_false_r].
    rewrite andb_true_r.
    destruct (Z.eqb_spec r' r) as [->|Hne].
    + replace (Z.to_nat (r - r)) with O by lia. cbn [nth].
      destruct (Z.leb_spec (r + 1) r); [lia|]. cbn [andb].
      destruct (Z.leb_spec r r); [|lia].
      destruct (Z.ltb_spec r (r + Z.of_nat (S (List.length rows))));
        [|lia].
      reflexivity.
    + cbn [andb].
      destruct (Z.leb_spec (r + 1) r') as [Hle|Hgt].
      * destruct (Z.leb_spec r r'); [|lia]. cbn [andb].
        replace (Z.to_nat (r' - r)) with (S (Z.to_nat (r' - (r + 1))))
          by lia.
        cbn [nth].
        replace (r + 1 + Z.of_nat (List.length rows))%Z
          with (r + Z.of_nat (S (List.length rows)))%Z by lia.
        reflexivity.
      * cbn [andb].
        destruct (Z.leb_spec r r'); [lia|]. reflexivity.
Qed.

End SheetWriteFacts.

(* ===================================================================== *)
(** ** Facts about the RMSD write-back and the Pro-Fit scripts *)
(* ===================================================================== *)

Module RmsdFacts.

Import SheetWriteFacts.

(** X18.  [write_rmsd_to_cell_by_keyword], for a column number of 1 or
    more, returns a sheet in which the cell of row 2, column 6 holds 0,
    the cell of column [column_num] holds the value in every row that
    had a cell equal to the keyword, and every other cell reads as
    before. *)
Theorem write_rmsd_cells ws keyword v column_num :
  (1 <= column_num)%Z ->
  exists ws',
    write_rmsd_to_cell_by_keyword (Some ws) keyword v column_num
    = Ok (Some ws')
    /\ forall r c,
      cell_value ws' r c
      = if ((r =? 2) && (c =? 6))%Z then Ok (CNum 0)
        else if ((c =? column_num) && (1 <=? r)
                 && (r <=? Z.of_nat (List.length ws)))%Z
                && row_has_keyword keyword (nth (Z.to_nat (r - 1)) ws [])
             then Ok (CNum v)
             else cell_value ws r c.
Proof.
  intros Hcol. unfold write_rmsd_to_cell_by_keyword. cbn [load_workbook bind].
  destruct (write_matches_read keyword (CNum v) column_num Hcol ws 1 ws
              ltac:(lia)) as (ws1 & -> & _ & _ & Hread1).
  cbn [bind].
  destruct (set_cell_ok ws1 2 6 (CNum 0) ltac:(lia) ltac:(lia))
    as (ws2 & Hset).
  rewrite Hset. cbn [bind]. exists ws2. split; [reflexivity|].
  intros r c. rewrite (set_cell_read _ _ _ _ _ Hset), Hread1.
  destruct ((r =? 2) && (c =? 6))%Z; [reflexivity|].
  replace (r <? 1 + Z.of_nat (List.length ws))%Z
    with (r <=? Z.of_nat (List.length ws))%Z; [reflexivity|].
  destruct (Z.leb_spec r (Z.of_nat (List.length ws))),
           (Z.ltb_spec r (1 + Z.of_nat (List.length ws))); lia || reflexivity.
Qed.

Lemma write_rmsd_cells_witness :
  exists ws',
    write_rmsd_to_cell_by_keyword
      (Some [header "no"; record_row "p" (1#5) 7 10 (1#5);
             record_row "p#s1" (2#5) 7 10 (2#5)]) "p#s1" (3#2) 6
    = Ok (Some ws')
    /\ forall r c,
      cell_value ws' r c
      = if ((r =? 2) && (c =? 6))%Z then Ok (CNum 0)
        else if ((c =? 6) && (1 <=? r)
                 && (r <=? Z.of_nat
                             (List.length
                                [header "no";
                                 record_row "p" (1#5) 7 10 (1#5);
                                 record_row "p#s1" (2#5) 7 10 (2#5)])))%Z
                && row_has_keyword "p#s1"
                     (nth (Z.to_nat (r - 1))
                          [header "no"; record_row "p" (1#5) 7 10 (1#5);
                           record_row "p#s1" (2#5) 7 10 (2#5)] [])
             then Ok (CNum (3#2))
             else cell_value
                    [header "no"; record_row "p" (1#5) 7 10 (1#5);
                     record_row "p#s1" (2#5) 7 10 (2#5)] r c.
Proof.
  apply (write_rmsd_cells
           [header "no"; record_row "p" (1#5) 7 10 (1#5);
            record_row "p#s1" (2#5) 7 10 (2#5)] "p#s1" (3#2) 6).
  lia.
Defined.

Lemma cell_value_nth ws k c :
  cell_value ws (Z.of_nat (S k)) (Z.of_nat (S c))
  = Ok (nth c (nth k ws []) CNone).
Proof.
  unfold cell_value.
  destruct (Z.ltb_spec (Z.of_nat (S k)) 1); [lia|].
  destruct (Z.ltb_spec (Z.of_nat (S c)) 1); [lia|].
  cbn [orb].
  replace (Z.to_nat (Z.of_nat (S k) - 1)) with k by lia.
  replace (Z.to_nat (Z.of_nat (S c) - 1)) with c by lia.
  reflexivity.
Qed.

(** X19.  On a log that holds a record, writing an RMSD into column 6
    or beyond adds no row and leaves columns 1 to 5 of every row as they
    were; in particular the logged similarities are the same. *)
Theorem write_rmsd_keeps_scores ws keyword v column_num :
  (2 <= List.length ws)%nat ->
  (6 <= column_num)%Z ->
  exists ws',
    write_rmsd_to_cell_by_keyword (Some ws) keyword v column_num
    = Ok (Some ws')
    /\ List.length ws' = List.length ws
    /\ (forall k c, (c < 5)%nat ->
          nth c (nth k ws' []) CNone = nth c (nth k ws []) CNone)
    /\ map score ws' = map score ws.
Proof.
  intros Hlen Hcol. unfold write_rmsd_to_cell_by_keyword.
  cbn [load_workbook bind].
  destruct (write_matches_read keyword (CNum v) column_num ltac:(lia) ws 1 ws
              ltac:(lia)) as (ws1 & -> & Hl1 & Hl2 & Hread1).
  cbn [bind].
  destruct (set_cell_ok ws1 2 6 (CNum 0) ltac:(lia) ltac:(lia))
    as (ws2 & Hset).
  rewrite Hset. cbn [bind]. exists ws2. split; [reflexivity|].
  pose proof (set_cell_length _ _ _ _ _ Hset) as Hl3.
  assert (Hl : List.length ws2 = List.length ws) by lia.
  assert (Hcells : forall k c, (c < 5)%nat ->
             nth c (nth k ws2 []) CNone = nth c (nth k ws []) CNone).
  { intros k c Hc.
    pose proof (cell_value_nth ws2 k c) as H2.
    rewrite (set_cell_read _ _ _ _ _ Hset), Hread1 in H2.
    destruct (Z.eqb_spec (Z.of_nat (S c)) 6); [lia|].
    rewrite andb_false_r in H2.
    destruct (Z.eqb_spec (Z.of_nat (S c)) column_num); [lia|].
    cbn [andb] in H2. rewrite cell_value_nth in H2. now inversion H2. }
  split; [assumption|]. split; [assumption|].
  apply (nth_ext _ _ 0 0); [now rewrite !length_map|].
  intros k Hk. rewrite length_map in Hk.
  rewrite (nth_indep _ 0 (score [])) by (rewrite length_map; lia).
  rewrite (nth_indep (map score ws) 0 (score []))
    by (rewrite length_map; lia).
  rewrite !map_nth. unfold score. rewrite Hcells by lia. reflexivity.
Qed.

Lemma write_rmsd_keeps_scores_witness :
  exists ws',
    write_rmsd_to_cell_by_keyword
      (Some [header "no"; record_row "p" (1#5) 7 10 (1#5);
             record_row "p#s1" (2#5) 7 10 (2#5)]) "p#s1" (3#2) 6
    = Ok (Some ws')
    /\ List.length ws'
       = List.length [header "no"; record_row "p" (1#5) 7 10 (1#5);
                      record_row "p#s1" (2#5) 7 10 (2#5)]
    /\ (forall k c, (c < 5)%nat ->
          nth c (nth k ws' []) CNone
          = nth c (nth k [header "no"; record_row "p" (1#5) 7 10 (1#5);
                          record_row "p#s1" (2#5) 7 10 (2#5)] []) CNone)
    /\ map score ws'
       = map score [header "no"; record_row "p" (1#5) 7 10 (1#5);
                    record_row "p#s1" (2#5) 7 10 (2#5)].
Proof.
  apply (write_rmsd_keeps_scores
           [header "no"; record_row "p" (1#5) 7 10 (1#5);
            record_row "p#s1" (2#5) 7 10 (2#5)] "p#s1" (3#2) 6).
  - simpl. lia.
  - lia.
Defined.

(** *** The scripts *)

Lemma firstn_skipn_step {A} (l : list A) i n :
  firstn i l ++ firstn n (skipn i l) = firstn (i + n) l.
Proof.
  revert l. induction i as [|i IH]; intros l; simpl; [reflexivity|].
  destruct l as [|x l]; simpl.
  - now rewrite firstn_nil.
  - now rewrite IH.
Qed.

Lemma concat_slices {A} (l : list A) step c :
  List.concat (map (fun i => firstn step (skipn i l))
                   (map (fun k => (k * step)%nat) (seq 0 c)))
  = firstn (c * step) l.
Proof.
  induction c as [|c IH]; [reflexivity|].
  rewrite seq_S, !map_app, concat_app, IH. simpl.
  rewrite app_nil_r, firstn_skipn_step. f_equal. lia.
Qed.

Lemma ceil_div_covers n step :
  (0 < step)%nat -> (n <= (n + step - 1) / step * step)%nat.
Proof.
  intros Hs.
  pose proof (Nat.div_mod_eq (n + step - 1) step) as Hd.
  pose proof (Nat.mod_upper_bound (n + step - 1) step ltac:(lia)) as Hm.
  nia.
Qed.

Lemma chunks_concat files : List.concat (chunks files) = files.
Proof.
  unfold chunks, range_step.
  rewrite concat_slices. apply firstn_all2.
  apply (ceil_div_covers (List.length files) 50). lia.
Qed.

(** X20.  The slices of fifty that [rmsd_calculation] cuts from the
    folder listing lose and repeat no file: put end to end they are the
    listing, each holds between 1 and 50 names, and their number is the
    number of files divided by 50, rounded up. *)
Theorem chunks_cover files :
  List.concat (chunks files) = files
  /\ (forall chunk, In chunk (chunks files) ->
        (1 <= List.length chunk <= 50)%nat)
  /\ List.length (chunks files) = ((List.length files + 49) / 50)%nat.
Proof.
  unfold chunks, range_step.
  replace (List.length files + 50 - 1)%nat with (List.length files + 49)%nat
    by lia.
  split; [|split].
  - rewrite concat_slices. apply firstn_all2.
    pose proof (ceil_div_covers (List.length files) 50 ltac:(lia)) as H.
    replace (List.length files + 50 - 1)%nat
      with (List.length files + 49)%nat in H by lia.
    exact H.
  - intros chunk Hin. apply in_map_iff in Hin as (i & <- & Hi).
    apply in_map_iff in Hi as (k & <- & Hk). apply in_seq in Hk.
    rewrite length_firstn, length_skipn.
    assert (Hlt : (k * 50 < List.length files)%nat).
    { pose proof (Nat.div_mod_eq (List.length files + 49) 50) as Hd.
      pose proof (Nat.mod_upper_bound (List.length files + 49) 50
                    ltac:(lia)) as Hm.
      nia. }
    lia.
  - now rewrite !length_map, length_seq.
Qed.

Lemma flat_map_concat {A B} (f : A -> list B) (ls : list (list A)) :
  flat_map f (List.concat ls) = List.concat (map (flat_map f) ls).
Proof.
  induction ls as [|l ls IH]; simpl; [reflexivity|].
  now rewrite flat_map_app, IH.
Qed.

Lemma script_body reference_pdb chunk :
  removelast (tl (script_lines reference_pdb chunk))
  = flat_map (fun file_name =>
                if is_mobile reference_pdb file_name
                then [("mobile " ++ file_name)%string; "fit"%string]
                else []) chunk.
Proof.
  unfold script_lines. cbn [tl]. apply removelast_last.
Qed.

(** X21.  Every script starts with the reference line and ends with
    [quit], and between them the scripts, taken in order, fit exactly
    the files of the listing that end in [.pdb] and whose name before the
    first dot is not the reference, each once and in the order of the
    listing. *)
Theorem rmsd_scripts_fit_each_file_once files reference_pdb :
  (forall s, In s (rmsd_scripts files reference_pdb) ->
     hd EmptyString s = ("reference " ++ reference_pdb ++ ".pdb")%string
     /\ last s EmptyString = "quit"%string)
  /\ List.concat (map (fun s => removelast (tl s))
                      (rmsd_scripts files reference_pdb))
     = flat_map (fun file_name => [("mobile " ++ file_name)%string;
                                   "fit"%string])
                (filter (is_mobile reference_pdb) files).
Proof.
  unfold rmsd_scripts. split.
  - intros s Hs. apply in_map_iff in Hs as (chunk & <- & _).
    unfold script_lines. split; [reflexivity|].
    change (?a :: ?l ++ ["quit"%string])
      with ((a :: l) ++ ["quit"%string]).
    apply last_last.
  - rewrite map_map.
    rewrite (map_ext _ _ (script_body reference_pdb)).
    rewrite <- flat_map_concat, chunks_concat.
    induction files as [|f files IH]; [reflexivity|].
    cbn [flat_map filter].
    destruct (is_mobile reference_pdb f); cbn [flat_map app];
      now rewrite IH.
Qed.

End RmsdFacts.

(* ===================================================================== *)
(** ** Further facts about the decay analysis *)
(* ===================================================================== *)

Module ScoringMore.

Import Scoring ScoringFacts SheetWriteFacts.
Local Open Scope R_scope.

(** The analysis of a decaying fit on a log with a record. *)
Lemma decaying_fit_step a b m :
  b < 0 -> (0 <= m)%Z ->
  exists out,
    save_time_series_plot (Ok (a, b)) m
    = Ok (Z.min (decay_step b (3 / 100)) m, out).
Proof.
  intros Hb Hm. eexists. now apply decaying_fit_report.
Qed.

Lemma ceil_monotone x y : x <= y -> (ceil x <= ceil y)%Z.
Proof.
  intros Hxy.
  destruct (ceil_bounds x) as [Hx _]. destruct (ceil_bounds y) as [_ Hy].
  assert (H : IZR (ceil x) < IZR (ceil y) + 1) by lra.
  rewrite <- plus_IZR in H. apply lt_IZR in H. lia.
Qed.

Lemma decay_step_antitone b p q :
  b < 0 -> 0 < p -> p <= q -> (decay_step b q <= decay_step b p)%Z.
Proof.
  intros Hb Hp Hpq. unfold decay_step. apply ceil_monotone.
  assert (Hln : ln p <= ln q).
  { destruct Hpq as [Hlt| ->]; [|lra]. left. now apply ln_increasing. }
  assert (Hinv : / b < 0) by now apply Rinv_lt_0_compat.
  unfold Rdiv. nra.
Qed.

(** X22.  For a decaying fit ([b < 0]) and a log with a record, the
    steps of the three fractions come in order (0.05 first, 0.01 last)
    and the reported best step lies within the log; it is step 0 only
    when the log holds a single record. *)
Theorem best_step_within_log a b m :
  b < 0 -> (0 <= m)%Z ->
  exists u out,
    save_time_series_plot (Ok (a, b)) m = Ok (u, out)
    /\ (Z.min 1 m <= u <= m)%Z
    /\ (decay_step b (5 / 100) <= decay_step b (3 / 100)
        <= decay_step b (1 / 100))%Z.
Proof.
  intros Hb Hm.
  destruct (decaying_fit_step a b m Hb Hm) as (out & Hs).
  exists (Z.min (decay_step b (3 / 100)) m), out.
  split; [assumption|].
  pose proof (decay_step_positive b (3 / 100) Hb ltac:(lra)) as Hpos.
  split; [lia|].
  split; apply decay_step_antitone; (assumption || lra).
Qed.

Lemma best_step_within_log_witness :
  exists u out,
    save_time_series_plot (Ok (1, -1)) 7 = Ok (u, out)
    /\ (Z.min 1 7 <= u <= 7)%Z
    /\ (decay_step (-1) (5 / 100) <= decay_step (-1) (3 / 100)
        <= decay_step (-1) (1 / 100))%Z.
Proof.
  apply (best_step_within_log 1 (-1) 7).
  - lra.
  - lia.
Defined.

(** X23.  A fit that grows slowly instead of decaying, [0 < b <= 1],
    makes the analysis fail with [KeyError] whatever the log: the step
    of the first fraction is negative and is looked up as a row. *)
Theorem growing_fit_raises a b m :
  0 < b <= 1 ->
  save_time_series_plot (Ok (a, b)) m = Raise KeyError.
Proof.
  intros [Hb0 Hb1].
  assert (Hu : (decay_step b (5 / 100) <= -1)%Z).
  { unfold decay_step.
    destruct (ceil_bounds (ln (5 / 100) / b + 1)) as [Hlo _].
    pose proof ln_5_100_upper as Hln.
    assert (Hq : ln (5 / 100) / b <= ln (5 / 100)).
    { unfold Rdiv.
      assert (Hinv : 1 <= / b).
      { rewrite <- Rinv_1. apply Rinv_le_contravar; lra. }
      nra. }
    assert (H : IZR (ceil (ln (5 / 100) / b + 1)) < 0) by lra.
    apply lt_IZR in H. lia. }
  unfold save_time_series_plot, p_list. cbn [bind fst snd decay_loop].
  destruct (Req_dec_T b 0) as [Hz|_]; [lra|].
  unfold loc.
  destruct (Z.ltb_spec m (decay_step b (5 / 100))) as [Hlt|Hge].
  - destruct (Z.leb_spec 0 m); [lia|]. reflexivity.
  - destruct (Z.leb_spec 0 (decay_step b (5 / 100))); [lia|]. reflexivity.
Qed.

Lemma growing_fit_raises_witness :
  save_time_series_plot (Ok (1, 1 / 2)) 7 = Raise KeyError.
Proof.
  apply (growing_fit_raises 1 (1 / 2) 7). lra.
Defined.

(** X24.  On a log with a record and for a decaying fit,
    [scoring_conformations] returns the best step [u] and writes [s<u>]
    into column 9 of the row of the record of step [u]; no row is added
    and every other cell is left as it was. *)
Theorem scoring_marks_best_step hdr rows a b :
  rows <> [] -> b < 0 ->
  exists u ws',
    scoring_conformations_log (log_rows hdr rows) (Ok (a, b))
    = Ok (u, Some ws')
    /\ u = Z.min (decay_step b (3 / 100)) (Z.of_nat (List.length rows) - 1)
    /\ (0 <= u < Z.of_nat (List.length rows))%Z
    /\ List.length ws' = S (List.length rows)
    /\ forall r c,
      cell_value ws' r c
      = if ((r =? u + 2) && (c =? 9))%Z
        then Ok (CStr ("s" ++ string_of_Z u))
        else cell_value (header hdr :: rows) r c.
Proof.
  intros Hrows Hb.
  assert (Hlen : (1 <= List.length rows)%nat).
  { destruct rows; [contradiction | simpl; lia]. }
  set (m := (Z.of_nat (List.length rows) - 1)%Z).
  destruct (decaying_fit_step a b m Hb ltac:(lia)) as (out & Hs).
  pose proof (decay_step_positive b (3 / 100) Hb ltac:(lra)) as Hpos.
  set (u := Z.min (decay_step b (3 / 100)) m) in *.
  destruct (set_cell_ok (header hdr :: rows) (u + 2) 9
              (CStr ("s" ++ string_of_Z u)) ltac:(lia) ltac:(lia))
    as (ws' & Hset).
  exists u, ws'. split.
  - unfold scoring_conformations_log, read_log, log_rows.
    cbn [load_workbook bind List.length].
    replace (Z.of_nat (S (List.length rows) - 1) - 1)%Z with m by lia.
    rewrite Hs. cbn [bind]. unfold write_result_step_to_xlsx.
    cbn [load_workbook bind]. rewrite Hset. reflexivity.
  - split; [reflexivity|]. split; [lia|]. split.
    + rewrite (set_cell_length _ _ _ _ _ Hset). simpl List.length. lia.
    + intros r c. apply (set_cell_read _ _ _ _ _ Hset).
Qed.

Lemma scoring_marks_best_step_witness :
  exists u ws',
    scoring_conformations_log
      (log_rows "no" [record_row "p" (1#5) 7 10 (1#5);
                      record_row "p#s1" (2#5) 7 10 (2#5)]) (Ok (1, -1))
    = Ok (u, Some ws')
    /\ u = Z.min (decay_step (-1) (3 / 100))
                 (Z.of_nat (List.length
                              [record_row "p" (1#5) 7 10 (1#5);
                               record_row "p#s1" (2#5) 7 10 (2#5)]) - 1)
    /\ (0 <= u < Z.of_nat (List.length
                             [record_row "p" (1#5) 7 10 (1#5);
                              record_row "p#s1" (2#5) 7 10 (2#5)]))%Z
    /\ List.length ws'
       = S (List.length [record_row "p" (1#5) 7 10 (1#5);
                         record_row "p#s1" (2#5) 7 10 (2#5)])
    /\ forall r c,
      cell_value ws' r c
      = if ((r =? u + 2) && (c =? 9))%Z
        then Ok (CStr ("s" ++ string_of_Z u))
        else cell_value
               (header "no" :: [record_row "p" (1#5) 7 10 (1#5);
                                record_row "p#s1" (2#5) 7 10 (2#5)]) r c.
Proof.
  apply (scoring_marks_best_step "no"
           [record_row "p" (1#5) 7 10 (1#5);
            record_row "p#s1" (2#5) 7 10 (2#5)] 1 (-1)).
  - discriminate.
  - lra.
Defined.

End ScoringMore.

(* ===================================================================== *)
(** ** Facts about the first regression of the trajectory *)
(* ===================================================================== *)

Module TrajectoryFacts.

Import SlopeFacts.

Lemma negative_change c prev : Qltb (c - prev) 0 = true <-> c < prev.
Proof. rewrite Qltb_lt. split; intros H; Lqa.lra. Qed.

Lemma first_true_diff prev l :
  match first_true (map (fun d => match d with
                                  | Some x => Qltb x 0
                                  | None => false
                                  end) (diff_from prev l)) with
  | Some k =>
      (k < List.length l)%nat
      /\ nth (S k) (prev :: l) 0 < nth k (prev :: l) 0
      /\ (forall j, (j < k)%nat ->
                    nth j (prev :: l) 0 <= nth (S j) (prev :: l) 0)
  | None =>
      forall j, (j < List.length l)%nat ->
                nth j (prev :: l) 0 <= nth (S j) (prev :: l) 0
  end.
Proof.
  revert prev. induction l as [|c l IH]; intros prev.
  - simpl. intros j Hj. lia.
  - cbn [diff_from map first_true].
    destruct (Qltb (c - prev) 0) eqn:Hneg.
    + apply negative_change in Hneg. split; [simpl; lia|].
      split; [exact Hneg|]. intros j Hj. lia.
    + assert (Hle : prev <= c).
      { apply Qltb_ge in Hneg. Lqa.lra. }
      specialize (IH c).
      destruct (first_true _) as [k|]; cbn [option_map].
      * destruct IH as (Hk & Hlt & Hbefore).
        split; [simpl; lia|]. split; [exact Hlt|].
        intros [|j] Hj; [exact Hle|]. apply Hbefore. lia.
      * intros [|j] Hj; [exact Hle|]. apply IH. simpl in Hj. lia.
Qed.

(** X25.  On a log with a record, the step marked as the first
    regression is the first step whose similarity is below that of the
    step before; when the similarity never decreases it is step 0. *)
Theorem first_negative_index_is_first_drop cc :
  cc <> [] ->
  exists k,
    first_negative_index cc = Ok k
    /\ (k < List.length cc)%nat
    /\ (forall j, (0 < j < k)%nat -> nth (j - 1) cc 0 <= nth j cc 0)
    /\ ((0 < k)%nat -> nth k cc 0 < nth (k - 1) cc 0)
    /\ (k = O -> forall j, (0 < j < List.length cc)%nat ->
                           nth (j - 1) cc 0 <= nth j cc 0).
Proof.
  intros Hne. destruct cc as [|c l]; [contradiction|].
  unfold first_negative_index. cbn [cc_change map first_true].
  pose proof (first_true_diff c l) as H.
  destruct (first_true _) as [k|]; cbn [option_map].
  - destruct H as (Hk & Hlt & Hbefore).
    exists (S k). split; [reflexivity|]. split; [simpl; lia|].
    split; [|split].
    + intros j Hj. destruct j as [|j]; [lia|].
      replace (S j - 1)%nat with j by lia. apply Hbefore. lia.
    + intros _. replace (S k - 1)%nat with k by lia. exact Hlt.
    + discriminate.
  - exists O. split; [reflexivity|]. split; [simpl; lia|].
    split; [intros j Hj; lia|]. split; [lia|].
    intros _ j Hj. destruct j as [|j]; [lia|].
    replace (S j - 1)%nat with j by lia. apply H. simpl in Hj. lia.
Qed.

Lemma first_negative_index_is_first_drop_witness :
  exists k,
    first_negative_index [1#5; 2#5; 3#5; 1#2; 7#10] = Ok k
    /\ (k < List.length [1#5; 2#5; 3#5; 1#2; 7#10])%nat
    /\ (forall j, (0 < j < k)%nat ->
          nth (j - 1) [1#5; 2#5; 3#5; 1#2; 7#10] 0
          <= nth j [1#5; 2#5; 3#5; 1#2; 7#10] 0)
    /\ ((0 < k)%nat ->
        nth k [1#5; 2#5; 3#5; 1#2; 7#10] 0
        < nth (k - 1) [1#5; 2#5; 3#5; 1#2; 7#10] 0)
    /\ (k = O -> forall j,
          (0 < j < List.length [1#5; 2#5; 3#5; 1#2; 7#10])%nat ->
          nth (j - 1) [1#5; 2#5; 3#5; 1#2; 7#10] 0
          <= nth j [1#5; 2#5; 3#5; 1#2; 7#10] 0).
Proof.
  apply (first_negative_index_is_first_drop [1#5; 2#5; 3#5; 1#2; 7#10]).
  discriminate.
Defined.

Example first_negative_index_drop :
  first_negative_index [1#5; 2#5; 3#5; 1#2; 7#10] = Ok 3%nat.
Proof. reflexivity. Qed.

Example first_negative_index_rising :
  first_negative_index [1#5; 2#5; 3#5] = Ok 0%nat.
Proof. reflexivity. Qed.

End TrajectoryFacts.

(* ===================================================================== *)
(** ** Further facts about the sampled amplitudes *)
(* ===================================================================== *)

Module ModesGenMore.

Import ModesGenFacts.

(** X26.  For a combined amplitude of 2 or more the five sampled
    amplitudes are strictly increasing, hence distinct; for an amplitude
    below 2 the truncated half is 0 and the three middle amplitudes
    coincide, so that only three distinct amplitudes are sampled. *)
Theorem sampled_amplitudes_distinct A :
  0 < A ->
  (2 <= A ->
   - A < inject_Z (- py_int (A / 2))
   /\ inject_Z (- py_int (A / 2)) < 0
   /\ 0 < inject_Z (py_int (A / 2))
   /\ inject_Z (py_int (A / 2)) < A)
  /\ (A < 2 -> sampled_amplitudes A = [- A; 0; 0; 0; A]).
Proof.
  intros HA.
  assert (Hhalf : 0 <= A / 2).
  { apply Qlt_le_weak, Qlt_shift_div_l; [reflexivity|].
    now rewrite Qmult_0_l. }
  destruct (py_int_floor (A / 2) Hhalf) as [Hlo Hhi].
  assert (Hdiv : A == 2 * (A / 2)) by field.
  set (h := py_int (A / 2)) in *.
  set (x := inject_Z h) in *. set (y := A / 2) in *.
  split.
  - intros H2.
    assert (Hpos : 0 < x) by (clearbody x y; Lqa.lra).
    rewrite inject_Z_opp. fold x. clearbody x y.
    repeat split; Lqa.lra.
  - intros H2.
    assert (Hh : h = 0%Z).
    { assert (H' : x < inject_Z 1).
      { change (inject_Z 1) with 1. clearbody x y. Lqa.lra. }
      assert (H'' : inject_Z (-1) < x).
      { change (inject_Z (-1)) with (-(1)). clearbody x y. Lqa.lra. }
      unfold x in H', H''. rewrite <- Zlt_Qlt in H', H''. lia. }
    unfold sampled_amplitudes. change (py_int (A / 2)) with h.
    rewrite Hh. reflexivity.
Qed.

Lemma sampled_amplitudes_distinct_witness :
  (2 <= 7 ->
   - (7) < inject_Z (- py_int (7 / 2))
   /\ inject_Z (- py_int (7 / 2)) < 0
   /\ 0 < inject_Z (py_int (7 / 2))
   /\ inject_Z (py_int (7 / 2)) < 7)
  /\ (7 < 2 -> sampled_amplitudes 7 = [- (7); 0; 0; 0; 7]).
Proof.
  apply (sampled_amplitudes_distinct 7). reflexivity.
Defined.

Example sampled_amplitudes_one :
  sampled_amplitudes 1 = [- (1); 0; 0; 0; 1].
Proof. reflexivity. Qed.

End ModesGenMore.

(* ===================================================================== *)
(** ** Facts about names *)
(* ===================================================================== *)

Module NamingFacts.

Import Naming.

Lemma append_length (s1 s2 : string) :
  String.length (s1 ++ s2) = (String.length s1 + String.length s2)%nat.
Proof. induction s1 as [|c s1 IH]; simpl; [reflexivity | now rewrite IH]. Qed.

Lemma append_cancel_l (s a b : string) :
  (s ++ a)%string = (s ++ b)%string -> a = b.
Proof.
  induction s as [|c s IH]; simpl; intros H; [assumption|].
  inversion H. now apply IH.
Qed.

Lemma name_at_S stem k : name_at stem (S k) = mk_name stem (Some (S k)).
Proof.
  induction k as [|k IH]; [reflexivity|].
  change (name_at stem (S (S k)))
    with (filename_of_next_iter (name_at stem (S k))).
  rewrite IH. reflexivity.
Qed.

Lemma decimal_inj j k :
  NilEmpty.string_of_uint (Nat.to_uint j)
  = NilEmpty.string_of_uint (Nat.to_uint k) -> j = k.
Proof.
  intros H.
  assert (Hu : Some (Nat.to_uint j) = Some (Nat.to_uint k)).
  { rewrite <- !NilEmpty.usu. now rewrite H. }
  inversion Hu as [Hd].
  rewrite <- (DecimalNat.Unsigned.of_to j), <- (DecimalNat.Unsigned.of_to k).
  now rewrite Hd.
Qed.

(** X27.  The names the loop gives to its passes are the initial name,
    then the initial name followed by [#s1], [#s2], ...; two passes never
    share a name. *)
Theorem iteration_names_distinct stem j k :
  render (name_at stem j) = render (name_at stem k) ->
  j = k
  /\ render (name_at stem O) = stem
  /\ render (name_at stem (S k))
     = (stem ++ "#s" ++ NilEmpty.string_of_uint (Nat.to_uint (S k)))%string.
Proof.
  intros H. split; [|split; [reflexivity | now rewrite name_at_S]].
  destruct j as [|j], k as [|k]; [reflexivity | | |].
  - exfalso. rewrite name_at_S in H. unfold render in H. simpl in H.
    apply (f_equal String.length) in H. rewrite append_length in H.
    simpl in H. lia.
  - exfalso. rewrite name_at_S in H. unfold render in H. simpl in H.
    apply (f_equal String.length) in H. rewrite append_length in H.
    simpl in H. lia.
  - rewrite !name_at_S in H. unfold render in H. cbn [cn_step cn_stem] in H.
    apply append_cancel_l in H. apply (append_cancel_l "#s") in H.
    now apply decimal_inj.
Qed.

Lemma iteration_names_distinct_witness :
  2%nat = 2%nat
  /\ render (name_at "p" O) = "p"%string
  /\ render (name_at "p" 3)
     = ("p" ++ "#s" ++ NilEmpty.string_of_uint (Nat.to_uint 3))%string.
Proof.
  apply (iteration_names_distinct "p" 2 2). reflexivity.
Defined.

Example third_name : render (name_at "1ake" 3) = "1ake#s3"%string.
Proof. reflexivity. Qed.

(** The modes [0 .. 999], checked one by one. *)
Lemma mode_formatting_checked :
  forallb (fun n =>
             let m := Z.of_nat n in
             (String.length (mode_formatting m) =? 3)%nat
             && match read_digits (mode_formatting m) with
                | Some z => (z =? m)%Z
                | None => false
                end)
          (seq 0 1000) = true.
Proof. vm_compute. reflexivity. Qed.

(** X28.  For a mode number from 0 to 999 [mode_formatting] gives
    exactly three characters, which read back as the mode number: the
    mode files of different modes have different names. *)
Theorem mode_formatting_three_digits m :
  (0 <= m < 1000)%Z ->
  String.length (mode_formatting m) = 3%nat
  /\ read_digits (mode_formatting m) = Some m.
Proof.
  intros Hm.
  pose proof mode_formatting_checked as H.
  rewrite forallb_forall in H.
  specialize (H (Z.to_nat m)).
  rewrite Z2Nat.id in H by lia. cbv zeta in H.
  assert (Hin : In (Z.to_nat m) (seq 0 1000)) by (apply in_seq; lia).
  apply H in Hin. apply andb_prop in Hin as [Hl Hr].
  apply Nat.eqb_eq in Hl. split; [assumption|].
  destruct (read_digits (mode_formatting m)) as [z|]; [|discriminate].
  apply Z.eqb_eq in Hr. now subst.
Qed.

Lemma mode_formatting_three_digits_witness :
  String.length (mode_formatting 7) = 3%nat
  /\ read_digits (mode_formatting 7) = Some 7%Z.
Proof.
  apply (mode_formatting_three_digits 7). lia.
Defined.

Example mode_file_7 : mode_file 7 = "mov000.mod007"%string.
Proof. reflexivity. Qed.

Example mode_formatting_negative : mode_formatting (-7) = "-07"%string.
Proof. reflexivity. Qed.

Example mode_formatting_wide : mode_formatting 1234 = "1234"%string.
Proof. reflexivity. Qed.

End NamingFacts.

(* ===================================================================== *)
(** ** What the log reader returns, and a flipped image *)
(* ===================================================================== *)

Module ReaderFacts.

Import StopIterFacts JudgementFacts.

(** X29.  On a log of scored records [read_pre_iter_cc_and_avrg]
    returns the sum (not the mean) of the last [required_num]
    similarities when the log holds that many records, and raises
    [TypeError] when it holds fewer: the header text is reached. *)
Theorem read_pre_iter_sum hdr rows required_num :
  Forall scored rows ->
  ((required_num <= List.length rows)%nat ->
   exists t,
     read_pre_iter_cc_and_avrg (log_rows hdr rows) required_num = Ok t
     /\ t == Qsum (lastn required_num (map score rows)))
  /\ ((List.length rows < required_num)%nat ->
      read_pre_iter_cc_and_avrg (log_rows hdr rows) required_num
      = Raise TypeError).
Proof.
  intros Hs. split; intros Hlen.
  - now apply read_rows.
  - now apply read_rows_short.
Qed.

Lemma read_pre_iter_sum_witness :
  exists t,
    read_pre_iter_cc_and_avrg
      (log_rows "no" [record_row "p" (1#5) 7 10 (1#5);
                      record_row "p#s1" (2#5) 7 10 (2#5)]) 2 = Ok t
    /\ t == Qsum (lastn 2 (map score [record_row "p" (1#5) 7 10 (1#5);
                                      record_row "p#s1" (2#5) 7 10 (2#5)])).
Proof.
  apply (proj1 (read_pre_iter_sum "no" [record_row "p" (1#5) 7 10 (1#5);
                                        record_row "p#s1" (2#5) 7 10 (2#5)] 2
                 ltac:(repeat constructor; eexists; reflexivity))).
  simpl. lia.
Defined.

End ReaderFacts.

Module FlipFacts.

Import Similarity SimilarityFacts.
Local Open Scope R_scope.

Lemma quotient_neg a b : a * b < 0 -> a / b < 0.
Proof.
  intros H. assert (Hb : b <> 0) by (intros ->; lra).
  replace (a / b) with (a * b * (/ b * / b)) by (field; assumption).
  pose proof (Rinv_neq_0_compat b Hb) as Hi.
  assert (Hs : 0 < / b * / b).
  { pose proof (Rle_0_sqr (/ b)) as Hs. unfold Rsqr in Hs.
    destruct Hs as [Hs|Hs]; [assumption|].
    symmetry in Hs. apply Rmult_integral in Hs. tauto. }
  nra.
Qed.

(** X30.  When a rescale [alpha * I + beta] with [alpha > 0] moves the
    maximum of a non-constant image to the other side of zero, the
    similarity of the image to its rescaled copy is -1. *)
Theorem rescale_across_zero p alpha beta mx :
  array_max (flatten p) = Ok mx ->
  ~ constant (flatten p) ->
  0 < alpha ->
  mx * (alpha * mx + beta) < 0 ->
  calculation_correlation_pearson_tsv_normalized p (rescale alpha beta p)
  = Ok (Fin (-1)).
Proof.
  intros Hmax Hnc Ha Hsign.
  assert (Hmx : mx <> 0) by (intros ->; lra).
  assert (Hmx' : alpha * mx + beta <> 0)
    by (intros Hz; rewrite Hz in Hsign; lra).
  rewrite (similarity_affine p (rescale alpha beta p) alpha beta mx);
    try assumption; [|apply flatten_rescale].
  do 2 f_equal. apply sign_quotient_neg. now apply quotient_neg.
Qed.

Lemma rescale_across_zero_witness :
  calculation_correlation_pearson_tsv_normalized
    [[1; 2]; [3; 4]] (rescale 2 (-10) [[1; 2]; [3; 4]])
  = Ok (Fin (-1)).
Proof.
  apply (rescale_across_zero [[1; 2]; [3; 4]] 2 (-10) 4).
  - simpl. rewrite (Rmax_right 1 2), (Rmax_right 2 3), (Rmax_right 3 4)
      by lra. reflexivity.
  - intros Hc. specialize (Hc 1 2). simpl in Hc.
    assert (H12 : 1 = 2) by (apply Hc; auto). lra.
  - lra.
  - lra.
Defined.

End FlipFacts.
